(** * uniqued: a session daemon that deduplicates sealed memfd blobs

    Shallow embedding of [uniqued.c] (the daemon) and [unique-bytes.c]
    (the client library), and the properties of the specification
    checked against them.

    Conventions of the embedding:
    - [gsize] and [guint32] values are [Z] with the wrap-around written
      out ([gsize_wrap], [guint32_wrap]);
    - the [Blob] records are shared between the global [blobs] table and
      the peers' handle tables through pointers, so they live in a store
      [mem] indexed by address, and the tables hold addresses;
    - undefined behaviour of the C program (dereferencing a freed [Blob],
      reading outside an array, overflowing the [int] reference count) is
      the result [None] of the daemon monad [M];
    - what the kernel answers for a descriptor (seals, contents, read
      faults, fstat) travels with the descriptor as a [File] record;
    - where the descriptors matter, the handlers are embedded a second
      time ([Traced]) with the trace of the descriptors they take from a
      message and close; without the trace they are the handlers of the
      first embedding. *)

From stdpp Require Import gmap strings list fin_maps pretty.
From Stdlib Require Import ZArith.
From Stdlib.Strings Require Import Byte Ascii.

Open Scope Z_scope.

(** ** Machine integers *)

Definition gsize_wrap (z : Z) : Z := z mod 2 ^ 64.
Definition guint32_wrap (z : Z) : Z := z mod 2 ^ 32.
Definition guint_wrap (z : Z) : Z := z mod 2 ^ 32.
Definition G_MAXINT : Z := 2 ^ 31 - 1.
Definition G_MININT : Z := - 2 ^ 31.

(** ** Descriptors and what the kernel answers about them *)

Definition F_SEAL_SEAL : Z := 1.
Definition F_SEAL_SHRINK : Z := 2.
Definition F_SEAL_GROW : Z := 4.
Definition F_SEAL_WRITE : Z := 8.

Definition ALL_SEALS : Z :=
  Z.lor (Z.lor (Z.lor F_SEAL_SEAL F_SEAL_SHRINK) F_SEAL_GROW) F_SEAL_WRITE.

(** An open descriptor as the daemon sees it through system calls:
    [f_fd] is its number, [f_get_seals] what [fcntl (fd, F_GET_SEALS)]
    returns (the seal bits, or -1), [f_data] the bytes of the file,
    [f_fault] the first offset at which [pread] fails (if any) and
    [f_stat_ok] whether [fstat] succeeds; [st_size] is the length of the
    contents. *)
Record File := mkFile {
  f_fd : Z;
  f_get_seals : Z;
  f_data : list byte;
  f_fault : option nat;
  f_stat_ok : bool
}.

Definition fcntl_F_GET_SEALS (f : File) : Z := f_get_seals f.

Definition fstat (f : File) : option Z :=
  if f_stat_ok f then Some (Z.of_nat (length (f_data f))) else None.

(** [pread (fd, buf, count, offset)]: [None] is the result -1, [Some buf]
    the bytes transferred (their number is the result). *)
Definition pread (f : File) (count offset : nat) : option (list byte) :=
  match f_fault f with
  | Some e =>
      if bool_decide (e ≤ offset)%nat then None
      else Some (take count (drop offset (take e (f_data f))))
  | None => Some (take count (drop offset (f_data f)))
  end.

(** ** GLib collaborators *)

(** A [GChecksum] is modelled by the bytes it has been fed. *)
Definition GChecksum := list byte.
Definition g_checksum_new : GChecksum := [].
Definition g_checksum_update (c : GChecksum) (buf : list byte) : GChecksum :=
  c ++ buf.

(** The [GVariant] values the daemon exchanges. *)
#[warnings="-register-all"]
Inductive GVariant :=
| V_h (h : Z)
| V_u (u : Z)
| V_s (s : string)
| V_ah (hs : list Z)
| V_tuple (vs : list GVariant).

Fixpoint g_variant_get_type_string (v : GVariant) : string :=
  match v with
  | V_h _ => "h"
  | V_u _ => "u"
  | V_s _ => "s"
  | V_ah _ => "ah"
  | V_tuple vs =>
      "(" +:+ (fix go (l : list GVariant) : string :=
                 match l with
                 | [] => ""
                 | x :: l' => g_variant_get_type_string x +:+ go l'
                 end) vs +:+ ")"
  end.

Definition g_variant_is_of_type (v : GVariant) (ty : string) : bool :=
  bool_decide (g_variant_get_type_string v = ty).

Inductive GDBusError :=
| G_DBUS_ERROR_FAILED
| G_DBUS_ERROR_INVALID_ARGS
| G_DBUS_ERROR_UNKNOWN_METHOD.

(** What a handler hands to its [GDBusMethodInvocation]. *)
Inductive Reply :=
| return_error (code : GDBusError) (message : string)
| return_value (v : GVariant) (fd_list : list Z).

(** [g_unix_fd_list_append (list, fd, NULL)]: the descriptor is
    duplicated; [dup] is what the kernel answers ([None] on failure).
    Returns the index of the new entry, or -1, and the list. *)
Definition g_unix_fd_list_append (l : list Z) (fd : Z) (dup : option Z)
  : Z * list Z :=
  match dup with
  | Some fd' => (Z.of_nat (length l), l ++ [fd'])
  | None => (-1, l)
  end.

(** ** steal_one_fd_from_list (both programs define it)

    [None] is undefined behaviour: a negative [handle] passes the bound
    check and [fds[handle]] reads before the array.  The inner [None] is
    the result -1.  Closing the other descriptors does not touch the
    daemon's tables; the descriptors closed are
    [steal_one_fd_from_list_closed], below. *)
Definition steal_one_fd_from_list {A} (fd_list : option (list A)) (handle : Z)
  : option (option A) :=
  match fd_list with
  | None => Some None
  | Some fds =>
      if bool_decide (Z.of_nat (length fds) ≤ handle) then Some None
      else if bool_decide (handle < 0) then None
      else Some (fds !! Z.to_nat handle)
  end.

(** The descriptors the loop of [steal_one_fd_from_list] closes, in the
    order it closes them: [i] is the index of the head of [fds]. *)
Fixpoint close_loop {A} (fds : list A) (i handle : Z) : list A :=
  match fds with
  | [] => []
  | fd :: fds' =>
      (if bool_decide (i ≠ handle) then [fd] else [])
        ++ close_loop fds' (i + 1) handle
  end.

(** Nothing is stolen, and nothing closed, when the function answers -1
    at its bound check. *)
Definition steal_one_fd_from_list_closed {A} (fd_list : option (list A))
    (handle : Z) : list A :=
  match fd_list with
  | None => []
  | Some fds =>
      if bool_decide (Z.of_nat (length fds) ≤ handle) then []
      else close_loop fds 0 handle
  end.

(** ** checksum_from_fd *)

Definition BUFSIZE : nat := 64 * 1024.

(** The do-while loop, one [pread] per iteration; each iteration but the
    last consumes at least one byte, so [S (length data)] iterations
    suffice. *)
Fixpoint checksum_loop (fuel : nat) (checksum : GChecksum) (f : File)
    (offset : nat) : bool * GChecksum :=
  match fuel with
  | O => (false, checksum)
  | S fuel' =>
      match pread f BUFSIZE offset with
      | None => (false, checksum)
      | Some buf =>
          if bool_decide (0 < length buf)%nat
          then checksum_loop fuel' (g_checksum_update checksum buf) f
                 (offset + length buf)
          else (true, checksum)
      end
  end.

Definition checksum_from_fd (checksum : GChecksum) (f : File)
  : bool * GChecksum :=
  checksum_loop (S (length (f_data f))) checksum f 0.

(** ** The daemon's data *)

Definition addr := positive.

Record Blob := mkBlob {
  sha256 : string;
  len : Z;
  fd : Z;
  ref_count : Z
}.

(** The C field [blobs] of [Peer] is [peer_blobs] here (the global table
    has the name [blobs]). *)
Record Peer := mkPeer {
  name : string;
  next_blob_id : Z;
  peer_blobs : gmap Z addr
}.

(** The globals of uniqued.c, and the store of allocated [Blob]s.  A
    [Peer] is only ever reached through the [peers] table that owns it,
    so the table holds the record itself. *)
Record Daemon := mkDaemon {
  real_blob_size : Z;
  apparent_blob_size : Z;
  mem : gmap addr Blob;
  blobs : gmap string addr;
  peers : gmap string Peer
}.

(** The state [main] sets up before running the loop. *)
Definition main_init : Daemon :=
  mkDaemon 0 0 ∅ ∅ ∅.

(** ** The daemon monad: state, and [None] for undefined behaviour *)

Definition M (A : Type) : Type := Daemon → option (A * Daemon).

Global Instance M_ret : MRet M := λ A a st, Some (a, st).
Global Instance M_bind : MBind M := λ A B k m st,
  match m st with
  | Some (a, st') => k a st'
  | None => None
  end.

Definition undefined {A} : M A := λ _, None.
Definition get : M Daemon := λ st, Some (st, st).
Definition deref (blob : addr) : M Blob := λ st,
  match mem st !! blob with
  | Some b => Some (b, st)
  | None => None
  end.

Definition set_ref_count (rc : Z) (b : Blob) : Blob :=
  mkBlob (sha256 b) (len b) (fd b) rc.
Definition set_mem (m : gmap addr Blob) (st : Daemon) : Daemon :=
  mkDaemon (real_blob_size st) (apparent_blob_size st) m (blobs st) (peers st).
Definition set_blobs (t : gmap string addr) (st : Daemon) : Daemon :=
  mkDaemon (real_blob_size st) (apparent_blob_size st) (mem st) t (peers st).
Definition set_peers (t : gmap string Peer) (st : Daemon) : Daemon :=
  mkDaemon (real_blob_size st) (apparent_blob_size st) (mem st) (blobs st) t.
Definition set_real (z : Z) (st : Daemon) : Daemon :=
  mkDaemon z (apparent_blob_size st) (mem st) (blobs st) (peers st).
Definition set_apparent (z : Z) (st : Daemon) : Daemon :=
  mkDaemon (real_blob_size st) z (mem st) (blobs st) (peers st).

Definition modify (f : Daemon → Daemon) : M unit := λ st, Some (tt, f st).

(** ** Blobs *)

Definition blob_ref (blob : addr) : M addr :=
  b ← deref blob;
  if bool_decide (ref_count b = G_MAXINT) then undefined
  else
    modify (λ st, set_mem (<[blob := set_ref_count (ref_count b + 1) b]> (mem st)) st);;
    mret blob.

Definition blob_unref (blob : addr) : M unit :=
  b ← deref blob;
  let rc := ref_count b - 1 in
  if bool_decide (ref_count b = G_MININT) then undefined
  else if bool_decide (rc = 0) then
    modify (λ st,
      set_mem (delete blob (mem st))
        (set_blobs (delete (sha256 b) (blobs st))
           (set_real (gsize_wrap (real_blob_size st - len b)) st)))
  else
    modify (λ st, set_mem (<[blob := set_ref_count rc b]> (mem st)) st).

Definition blob_new (f : File) (sha : string) : M addr := λ st,
  let blob := fresh (dom (mem st)) in
  let l := match fstat f with
           | Some st_size => gsize_wrap st_size
           | None => 0
           end in
  let b := mkBlob sha l (f_fd f) 1 in
  Some (blob,
        set_blobs (<[sha := blob]> (blobs st))
          (set_real (gsize_wrap (real_blob_size st + l))
             (set_mem (<[blob := b]> (mem st)) st))).

Definition lookup_blob (sha : string) : M (option addr) :=
  st ← get;
  match blobs st !! sha with
  | Some blob => blob' ← blob_ref blob; mret (Some blob')
  | None => mret None
  end.

Definition removed_blob_from_peer_cb (blob : addr) : M unit :=
  b ← deref blob;
  modify (λ st, set_apparent (gsize_wrap (apparent_blob_size st - len b)) st);;
  blob_unref blob.

(** ** Peers *)

(** The [Peer *] that [lookup_peer] returns is the entry of [peers] under
    [name]; the function makes sure that entry exists. *)
Definition lookup_peer (nm : string) : M Peer := λ st,
  match peers st !! nm with
  | Some peer => Some (peer, st)
  | None =>
      let peer := mkPeer nm 1 ∅ in
      Some (peer, set_peers (<[nm := peer]> (peers st)) st)
  end.

(** Writes through the [Peer *]. *)
Definition store_peer (peer : Peer) : M unit :=
  modify (λ st, set_peers (<[name peer := peer]> (peers st)) st).

(** [g_hash_table_destroy (peer->blobs)]: the value destroy notify runs
    on every entry. *)
Fixpoint destroy_values (l : list addr) : M unit :=
  match l with
  | [] => mret tt
  | blob :: l' => removed_blob_from_peer_cb blob;; destroy_values l'
  end.

Definition peer_free (peer : Peer) : M unit :=
  destroy_values (map_to_list (peer_blobs peer)).*2.

Definition add_blob_to_peer (peer_name : string) (blob : addr) : M Z :=
  peer ← lookup_peer peer_name;
  let blob_id := next_blob_id peer in
  let peer := mkPeer (name peer) (guint32_wrap (next_blob_id peer + 1))
                (peer_blobs peer) in
  store_peer peer;;
  b ← deref blob;
  modify (λ st, set_apparent (gsize_wrap (apparent_blob_size st + len b)) st);;
  blob' ← blob_ref blob;
  (* g_hash_table_insert: a value already under the key is replaced and
     handed to the destroy notify *)
  store_peer (mkPeer (name peer) (next_blob_id peer)
                (<[blob_id := blob']> (peer_blobs peer)));;
  match peer_blobs peer !! blob_id with
  | Some old => removed_blob_from_peer_cb old
  | None => mret tt
  end;;
  mret blob_id.

Definition remove_blob_from_peer (peer_name : string) (blob_id : Z) : M unit :=
  peer ← lookup_peer peer_name;
  (* g_hash_table_remove: the entry is taken out, then its value is
     handed to the destroy notify *)
  match peer_blobs peer !! blob_id with
  | Some blob =>
      store_peer (mkPeer (name peer) (next_blob_id peer)
                    (delete blob_id (peer_blobs peer)));;
      removed_blob_from_peer_cb blob
  | None => mret tt
  end.

(** ** Method handlers

    [sha256_hex] is what [g_checksum_get_string] answers for a SHA-256
    [GChecksum] that has been fed the given bytes. *)

Section Handlers.

Variable sha256_hex : list byte → string.

Definition g_checksum_get_string (c : GChecksum) : string := sha256_hex c.

Definition g_variant_get_h (parameters : GVariant) : Z :=
  match parameters with
  | V_tuple [V_h h] => h
  | _ => 0
  end.

Definition g_variant_get_u (parameters : GVariant) : Z :=
  match parameters with
  | V_tuple [V_u u] => u
  | _ => 0
  end.

(** The check on the result of [fcntl (fd, F_GET_SEALS)], stored in an
    [unsigned int]. *)
Definition seals_missing (r : Z) : bool :=
  let seals := guint_wrap r in
  bool_decide (seals = guint_wrap (-1))
  || negb (bool_decide (Z.land seals ALL_SEALS = ALL_SEALS)).

(** [dup] is the kernel's answer when the canonical descriptor is
    duplicated into the reply's descriptor list. *)
Definition make_unique (sender : string) (parameters : GVariant)
    (fd_list : option (list File)) (dup : option Z) : M Reply :=
  if negb (g_variant_is_of_type parameters "(h)") then
    mret (return_error G_DBUS_ERROR_INVALID_ARGS "Wrong argument types")
  else
    let handle := g_variant_get_h parameters in
    match steal_one_fd_from_list fd_list handle with
    | None => undefined
    | Some None =>
        mret (return_error G_DBUS_ERROR_INVALID_ARGS "No fd passed")
    | Some (Some f) =>
        if seals_missing (fcntl_F_GET_SEALS f) then
          mret (return_error G_DBUS_ERROR_INVALID_ARGS "Fd not sealed")
        else
          match checksum_from_fd g_checksum_new f with
          | (false, _) =>
              mret (return_error G_DBUS_ERROR_INVALID_ARGS "Can't read data")
          | (true, checksum) =>
              let sha := g_checksum_get_string checksum in
              let ret_fds : list Z := [] in
              found ← lookup_blob sha;
              match found with
              | None =>
                  blob ← blob_new f sha;
                  blob_id ← add_blob_to_peer sender blob;
                  blob_unref blob;;
                  mret (return_value (V_tuple [V_ah []; V_u blob_id]) ret_fds)
              | Some blob =>
                  b ← deref blob;
                  let '(fd_handle, ret_fds) :=
                    g_unix_fd_list_append ret_fds (fd b) dup in
                  if bool_decide (fd_handle < 0) then
                    blob_unref blob;;
                    mret (return_error G_DBUS_ERROR_FAILED "Failed to dup fd")
                  else
                    blob_id ← add_blob_to_peer sender blob;
                    blob_unref blob;;
                    mret (return_value (V_tuple [V_ah [fd_handle]; V_u blob_id])
                            ret_fds)
              end
          end
    end.

Definition forget (sender : string) (parameters : GVariant) : M Reply :=
  if negb (g_variant_is_of_type parameters "(u)") then
    mret (return_error G_DBUS_ERROR_INVALID_ARGS "Wrong argument types")
  else
    let blob_id := g_variant_get_u parameters in
    remove_blob_from_peer sender blob_id;;
    mret (return_value (V_tuple []) []).

Definition method_call (sender interface_name method_name : string)
    (parameters : GVariant) (fd_list : option (list File)) (dup : option Z)
  : M Reply :=
  if bool_decide (method_name = "MakeUnique") then
    make_unique sender parameters fd_list dup
  else if bool_decide (method_name = "Forget") then
    forget sender parameters
  else
    mret (return_error G_DBUS_ERROR_UNKNOWN_METHOD
            ("Method " +:+ method_name +:+ " is not implemented on interface "
               +:+ interface_name)).

(** [g_hash_table_remove (peers, name)]: the entry is taken out and the
    peer handed to [peer_free]; the result tells whether there was one. *)
Definition g_hash_table_remove_peer (nm : string) : M bool :=
  st ← get;
  match peers st !! nm with
  | Some peer =>
      modify (λ st, set_peers (delete nm (peers st)) st);;
      peer_free peer;;
      mret true
  | None => mret false
  end.

Definition starts_with_colon (s : string) : bool :=
  match s with
  | String c _ => bool_decide (c = ":"%char)
  | EmptyString => false
  end.

Definition name_owner_changed (nm from to : string) : M unit :=
  if starts_with_colon nm && bool_decide (nm = from) && bool_decide (to = "")
  then g_hash_table_remove_peer nm;; mret tt
  else mret tt.

(** ** The main loop: one event at a time *)

Inductive Event :=
| ev_method_call (sender interface_name method_name : string)
    (parameters : GVariant) (fd_list : option (list File)) (dup : option Z)
| ev_name_owner_changed (nm from to : string).

Definition dispatch (e : Event) : M (option Reply) :=
  match e with
  | ev_method_call sender interface_name method_name parameters fd_list dup =>
      r ← method_call sender interface_name method_name parameters fd_list dup;
      mret (Some r)
  | ev_name_owner_changed nm from to =>
      name_owner_changed nm from to;; mret None
  end.

Fixpoint run (evs : list Event) : M (list (option Reply)) :=
  match evs with
  | [] => mret []
  | e :: evs' => r ← dispatch e; rs ← run evs'; mret (r :: rs)
  end.

(** The states the daemon can be in between two events. *)
Definition reachable (st : Daemon) : Prop :=
  ∃ evs rs, run evs main_init = Some (rs, st).

End Handlers.

(** ** Counting over the tables

    Sums of a weight over the values of a table, over the handle entries
    of all peers, and over a list of [Blob] pointers.  The number of
    handle entries that point at a blob and the bytes the entries stand
    for are both such sums. *)

Definition list_weight {V} (w : V → Z) (l : list V) : Z :=
  foldr (λ v acc, w v + acc) 0 l.

Definition table_weight `{Countable K} {V} (w : V → Z) (m : gmap K V) : Z :=
  map_fold (λ _ v acc, w v + acc) 0 m.

Definition entries_weight (w : addr → Z) (ps : gmap string Peer) : Z :=
  table_weight (λ peer, table_weight w (peer_blobs peer)) ps.

Definition points_at (blob a : addr) : Z :=
  if decide (a = blob) then 1 else 0.

(** Number of peer-handle entries, over all peers, that point at [blob]. *)
Definition handle_count (blob : addr) (ps : gmap string Peer) : Z :=
  entries_weight (points_at blob) ps.

Definition rc_at (m : gmap addr Blob) (a : addr) : Z :=
  from_option ref_count 0 (m !! a).

Definition len_at (m : gmap addr Blob) (a : addr) : Z :=
  from_option len 0 (m !! a).

(** Sum of [blob->len] over the blobs of the store. *)
Definition live_len (st : Daemon) : Z :=
  table_weight (len_at (mem st)) (blobs st).

(** Sum of [blob->len] over the handle entries of all peers. *)
Definition entries_len (st : Daemon) : Z :=
  entries_weight (len_at (mem st)) (peers st).

(** ** The reference-counting discipline

    [owns R A st]: the state is consistent when, besides the handle
    entries, the pointers in [R] hold one counted reference each (local
    variables, values on their way to the destroy notify) and the bytes
    of the blobs in [A] are counted in [apparent_blob_size] without a
    handle entry.  Between two events both lists are empty
    ([consistent]). *)
Record owns (R A : list addr) (st : Daemon) : Prop := mk_owns {
  owns_table : ∀ k a, blobs st !! k = Some a →
    ∃ b, mem st !! a = Some b ∧ sha256 b = k;
  owns_mem : ∀ a b, mem st !! a = Some b → blobs st !! sha256 b = Some a;
  owns_rc : ∀ a,
    rc_at (mem st) a = handle_count a (peers st) + list_weight (points_at a) R;
  owns_pos : ∀ a b, mem st !! a = Some b → 0 < ref_count b ∧ 0 ≤ len b;
  owns_real : real_blob_size st = gsize_wrap (table_weight len (mem st));
  owns_apparent :
    apparent_blob_size st =
    gsize_wrap (entries_len st + list_weight (len_at (mem st)) A);
  owns_names : ∀ n peer, peers st !! n = Some peer → name peer = n;
  owns_tokens : ∀ a,
    list_weight (points_at a) A ≤ list_weight (points_at a) R
}.

Definition consistent (st : Daemon) : Prop := owns [] [] st.

(** Specifications of a computation of the daemon: [always P m Q], from
    a state with [P] the computation [m] is defined and ends with [Q]
    (total correctness); [whenever P m Q], if it is defined it ends with
    [Q] (partial correctness). *)
Definition whenever {A} (P : Daemon → Prop) (m : M A) (Q : A → Daemon → Prop)
  : Prop :=
  ∀ st a st', P st → m st = Some (a, st') → Q a st'.

Definition always {A} (P : Daemon → Prop) (m : M A) (Q : A → Daemon → Prop)
  : Prop :=
  ∀ st, P st → ∃ a st', m st = Some (a, st') ∧ Q a st'.

(** ** The client library (unique-bytes.c) *)

Module Client.

Definition PROT_READ : Z := 1.
Definition MAP_PRIVATE : Z := 2.
Definition MAP_FIXED : Z := 16.

(** What the library asks of the kernel and of the bus: the system
    calls and the Forget calls its functions make themselves, in order
    (what GLib does to descriptors inside a [GUnixFDList] is not
    listed). *)
Inductive Effect :=
| sys_close (fd : Z)
| sys_mmap (addr length prot flags fd offset : Z)
| sys_munmap (addr length : Z)
| call_forget (id : Z).

Record MappedData := mkMappedData {
  ref_count : Z;
  data : Z;
  len : Z;
  id : Z
}.

Definition mapped_data_new (data len : Z) : MappedData :=
  mkMappedData 1 data len 0.

Definition mapped_data_ref (d : MappedData) : MappedData :=
  mkMappedData (guint_wrap (ref_count d + 1)) (data d) (len d) (id d).

Definition set_id (i : Z) (d : MappedData) : MappedData :=
  mkMappedData (ref_count d) (data d) (len d) i.

(** The record after the call ([None] once it has been freed), and what
    the call did. *)
Definition mapped_data_unref (d : MappedData)
  : option MappedData * list Effect :=
  let rc := guint_wrap (ref_count d - 1) in
  if bool_decide (rc = 0) then
    (None,
     sys_munmap (data d) (len d)
       :: (if bool_decide (id d ≠ 0) then [call_forget (id d)] else []))
  else (Some (mkMappedData rc (data d) (len d) (id d)), []).

(** A reply [(ahu)] to MakeUnique with the descriptor list that came
    with it. *)
Record Response := mkResponse {
  r_handles : list Z;
  r_id : Z;
  r_fd_list : option (list Z)
}.

(** [bus] tells whether [get_bus] found the session bus, [memfd_handle]
    is the result of [g_unix_fd_list_append], [response] the result of
    the synchronous call ([None] for [NULL]).  The result is the
    [gboolean], the final contents of [*memfd] and [*id_out], and the
    calls made: the closes of [steal_one_fd_from_list], then the close
    of the old [*memfd]; [None] is undefined behaviour. *)
Definition call_make_unique (bus : bool) (memfd id_out : Z)
    (memfd_handle : Z) (response : option Response)
  : option (bool * Z * Z * list Effect) :=
  let result := false in
  if negb bus then Some (false, memfd, id_out, [])
  else
    body ←
      (if bool_decide (memfd_handle ≠ -1) then
         match response with
         | Some r =>
             stolen ←
               match r_handles r with
               | handle_v :: _ =>
                   new_memfd ← steal_one_fd_from_list (r_fd_list r) handle_v;
                   let closed :=
                     sys_close
                       <$> steal_one_fd_from_list_closed (r_fd_list r) handle_v in
                   match new_memfd with
                   | Some new_memfd =>
                       Some (new_memfd, closed ++ [sys_close memfd])
                   | None => Some (memfd, closed)
                   end
               | [] => Some (memfd, [])
               end;
             let '(memfd, effects) := stolen in
             let id_out := r_id r in
             let result := true in
             Some (result, memfd, id_out, effects)
         | None => Some (result, memfd, id_out, [])
         end
       else Some (result, memfd, id_out, []));
    let '(result, memfd, id_out, effects) := body in
    (* the source has [return FALSE;] here; the statements after it,
       [g_object_unref (fd_list); return result;], are not reached *)
    Some (false, memfd, id_out, effects).

Inductive GBytes :=
| g_bytes_new (data : list byte)
| g_bytes_new_with_free_func (data size : Z) (user_data : MappedData).

(** [memfd] is the result of [create_sealed_memfd_for_data], [mmap_ret]
    the address [mmap] answers (0 for [NULL]). *)
Definition g_bytes_new_unique_sync (bytes : list byte) (memfd : Z)
    (bus : bool) (memfd_handle : Z) (response : option Response)
    (mmap_ret : Z) : option (GBytes * list Effect) :=
  let length := Z.of_nat (length bytes) in
  let memfd_data := 0 in
  let id := 0 in
  if bool_decide (0 ≤ memfd) then
    called ← call_make_unique bus memfd id memfd_handle response;
    let '(ok, memfd, id, effects) := called in
    let memfd_data := if ok : bool then mmap_ret else memfd_data in
    let effects :=
      if ok : bool
      then effects ++ [sys_mmap 0 length PROT_READ MAP_PRIVATE memfd 0]
      else effects in
    let effects := effects ++ [sys_close memfd] in
    if bool_decide (memfd_data ≠ 0) then
      let d := set_id id (mapped_data_new memfd_data length) in
      Some (g_bytes_new_with_free_func memfd_data length d, effects)
    else Some (g_bytes_new bytes, effects)
  else Some (g_bytes_new bytes, []).

(** How [make_unique_cb] ends: in [g_assert]'s abort, or by returning
    with the record as it is then ([None] once freed). *)
Inductive Outcome :=
| aborted (effects : list Effect)
| returned (d : option MappedData) (effects : list Effect).

(** [response] is the result of the finished call, [mmap_ret] the
    address the fixed [mmap] answers.  The calls made start with the
    closes of [steal_one_fd_from_list]. *)
Definition make_unique_cb (mapped_data : MappedData)
    (response : option Response) (mmap_ret : Z) : option Outcome :=
  let finish (d : MappedData) (effects : list Effect) :=
    let '(d', effects') := mapped_data_unref d in
    Some (returned d' (effects ++ effects')) in
  match response with
  | Some r =>
      let record_id effects := finish (set_id (r_id r) mapped_data) effects in
      match r_handles r with
      | handle_v :: _ =>
          new_memfd ← steal_one_fd_from_list (r_fd_list r) handle_v;
          let closed :=
            sys_close <$> steal_one_fd_from_list_closed (r_fd_list r) handle_v in
          match new_memfd with
          | Some new_memfd =>
              let remap :=
                sys_mmap (data mapped_data) (len mapped_data) PROT_READ
                  (Z.lor MAP_PRIVATE MAP_FIXED) new_memfd 0 in
              if bool_decide (mmap_ret = data mapped_data)
              then record_id (closed ++ [remap; sys_close new_memfd])
              else Some (aborted (closed ++ [remap]))
          | None => record_id closed
          end
      | [] => record_id []
      end
  | None => finish mapped_data []
  end.

End Client.

(** ** Vocabulary of the properties *)

(** Every byte of the file can be read: no read fault at or before the
    end of the contents. *)
Definition readable (f : File) : bool :=
  match f_fault f with
  | Some e => bool_decide (length (f_data f) < e)%nat
  | None => true
  end.

(** The descriptor carries the four seals: [F_GET_SEALS] succeeds and
    answers all of them. *)
Definition all_sealed (f : File) : Prop :=
  f_get_seals f ≠ -1 ∧ Z.land (f_get_seals f) ALL_SEALS = ALL_SEALS.

(** The descriptor the message carries at the index its parameter
    names, if there is one. *)
Definition passed_fd (fd_list : option (list File)) (handle : Z)
  : option File :=
  match fd_list with
  | Some fds => if bool_decide (0 ≤ handle) then fds !! Z.to_nat handle else None
  | None => None
  end.

(** The requests MakeUnique is to refuse with invalid-args: the payload
    is not [(h)], there is no descriptor at the index, the descriptor
    lacks a seal, or it cannot be read to the end. *)
Definition bad_request (parameters : GVariant) (fd_list : option (list File))
  : Prop :=
  g_variant_get_type_string parameters ≠ "(h)"
  ∨ match passed_fd fd_list (g_variant_get_h parameters) with
    | None => True
    | Some f => ¬ all_sealed f ∨ readable f = false
    end.

(** [released st st']: from [st] to [st'] references were dropped and
    nothing else happened: the peers are the same, and the blobs still
    in the store are the ones that were there, up to their counts. *)
Definition released (st st' : Daemon) : Prop :=
  peers st' = peers st
  ∧ ∀ a b', mem st' !! a = Some b' →
      ∃ b, mem st !! a = Some b ∧ sha256 b' = sha256 b ∧ len b' = len b
           ∧ fd b' = fd b.

(** The state [add_blob_to_peer] leaves when the handle is new in the
    peer's table: [peer] is the sender's record as [lookup_peer] returned
    it, [b] the blob record before the call. *)
Definition entry_added (peer : Peer) (blob : addr) (b : Blob) (st : Daemon)
  : Daemon :=
  mkDaemon (real_blob_size st)
    (gsize_wrap (apparent_blob_size st + len b))
    (<[blob := set_ref_count (ref_count b + 1) b]> (mem st))
    (blobs st)
    (<[name peer :=
         mkPeer (name peer) (guint32_wrap (next_blob_id peer + 1))
           (<[next_blob_id peer := blob]> (peer_blobs peer))]> (peers st)).

(** ** Sample runs

    [sample_digest] stands in for SHA-256 when the model is run on
    concrete requests (it is injective, as SHA-256 is taken to be); the
    theorems hold for every digest function. *)

Definition sample_digest (l : list byte) : string :=
  String.string_of_list_byte l.

Definition hello_world : list byte :=
  String.list_byte_of_string "Hello, World!" ++ [x00].

Definition sealed_memfd (n : Z) (bytes : list byte) : File :=
  mkFile n ALL_SEALS bytes None true.

Definition unique_interface : string := "org.freedesktop.portal.Unique".

Definition submit (sender : string) (f : File) (dup : option Z) : Event :=
  ev_method_call sender unique_interface "MakeUnique" (V_tuple [V_h 0])
    (Some [f]) dup.

Definition forget_handle (sender : string) (h : Z) : Event :=
  ev_method_call sender unique_interface "Forget" (V_tuple [V_u h]) None None.

Definition state_after (evs : list Event) : Daemon :=
  match run sample_digest evs main_init with
  | Some (_, st) => st
  | None => main_init
  end.

Definition replies_after (evs : list Event) : list (option Reply) :=
  match run sample_digest evs main_init with
  | Some (rs, _) => rs
  | None => []
  end.

(** Two clients submit the same bytes. *)
Definition two_submissions : list Event :=
  [submit ":1.1" (sealed_memfd 7 hello_world) None;
   submit ":1.2" (sealed_memfd 8 hello_world) (Some 9)].

(** A reply to a submission that found the bytes in the store: one
    handle in the array, the canonical descriptor 9 in the list. *)
Definition hit_reply : Client.Response :=
  Client.mkResponse [0] 2 (Some [9]).

(** A reply to a submission of new bytes: no descriptor. *)
Definition miss_reply : Client.Response :=
  Client.mkResponse [] 1 None.

(** The first client submits the same bytes once more. *)
Definition third_submission : Event :=
  submit ":1.1" (sealed_memfd 10 hello_world) (Some 11).

(** One client submits and forgets at once. *)
Definition submit_and_forget : list Event :=
  [submit ":1.1" (sealed_memfd 7 hello_world) None; forget_handle ":1.1" 1].

(** One client submits the same bytes twice. *)
Definition one_submission : list Event :=
  [submit ":1.1" (sealed_memfd 7 hello_world) None].

Definition same_peer_twice : list Event :=
  one_submission ++ [third_submission].

(** The handle of a reply to MakeUnique. *)
Definition reply_handle (r : option Reply) : option Z :=
  match r with
  | Some (return_value (V_tuple [V_ah _; V_u h]) _) => Some h
  | _ => None
  end.

(** ** The client library: the sealed memfd (unique-bytes.c) *)

Definition EINTR : Z := 4.

(** What the kernel answers to one [write]: it took the first [n] bytes
    offered (all of them when fewer were offered), or it failed with
    [errno]. *)
Inductive WriteAnswer :=
| wrote (n : nat)
| write_failed (errno : Z).

(** [answers] are the kernel's answers to the successive calls of
    [write]; [data] stands for the pointer and the length.  The result
    is the [gboolean] and the bytes that reached the descriptor, [None]
    when the loop is still running after the last answer. *)
Fixpoint write_all_to_fd (answers : list WriteAnswer) (data : list byte)
  : option (bool * list byte) :=
  match data, answers with
  | [], _ => Some (true, [])
  | _ :: _, [] => None
  | _ :: _, wrote n :: answers' =>
      '(ok, written) ← write_all_to_fd answers' (drop n data);
      Some (ok, take n data ++ written)
  | _ :: _, write_failed errno :: answers' =>
      if bool_decide (errno = EINTR) then write_all_to_fd answers' data
      else Some (false, [])
  end.

Definition MFD_CLOEXEC : Z := 1.
Definition MFD_ALLOW_SEALING : Z := 2.

(** A memfd as the kernel holds it. *)
Record Memfd := mkMemfd {
  m_name : string;
  m_flags : Z;
  m_data : list byte;
  m_seals : Z
}.

(** [g_strdup_printf ("unique-%d-%d", getpid (), count++)] *)
Definition full_name (pid count : Z) : string :=
  "unique-" +:+ pretty pid +:+ "-" +:+ pretty count.

(** The file after [written] has been written from offset 0. *)
Definition overwrite (written file : list byte) : list byte :=
  written ++ drop (length written) file.

(** [pid] is what [getpid] answers and [count] the static counter;
    [memfd_ret], [ftruncate_ret] and [add_seals_ret] are the results of
    [memfd_create], [ftruncate] and [fcntl (F_ADD_SEALS)], [answers]
    those of the writes.  The result is the descriptor or -1, the
    counter, the memfd behind the descriptor, and what was closed.
    [None]: the counter overflows, or the writes are not answered. *)
Definition create_sealed_memfd_for_data (pid count : Z) (data : list byte)
    (memfd_ret ftruncate_ret : Z) (answers : list WriteAnswer)
    (add_seals_ret : Z)
  : option (Z * Z * option Memfd * list Client.Effect) :=
  if bool_decide (count = G_MAXINT) then None
  else
    let name := full_name pid count in
    let count := count + 1 in
    let memfd := memfd_ret in
    if bool_decide (memfd < 0) then Some (-1, count, None, [])
    else
      let flags := Z.lor MFD_CLOEXEC MFD_ALLOW_SEALING in
      let failed := Some (-1, count, None, [Client.sys_close memfd]) in
      if bool_decide (ftruncate_ret = 0) then
        let file := replicate (length data) x00 in
        '(ok, written) ← write_all_to_fd answers data;
        let file := overwrite written file in
        if ok && bool_decide (add_seals_ret = 0) then
          let seals :=
            Z.lor (Z.lor (Z.lor F_SEAL_SEAL F_SEAL_SHRINK) F_SEAL_GROW)
              F_SEAL_WRITE in
          Some (memfd, count, Some (mkMemfd name flags file (Z.lor 0 seals)), [])
        else failed
      else failed.

(** ** The client library: the asynchronous path *)

(** [bus] tells whether [get_bus] found the session bus, [handle] is the
    result of [g_unix_fd_list_append].  The result is the record and
    whether a call was started whose completion runs [make_unique_cb] on
    the record. *)
Definition call_make_unique_async (bus : bool) (handle : Z)
    (data : Client.MappedData) : Client.MappedData * bool :=
  if negb bus then (data, false)
  else if bool_decide (handle ≠ -1)
       then (Client.mapped_data_ref data, true)
       else (data, false).

(** [mmap] answers [(void * ) -1] for an error. *)
Definition MAP_FAILED : Z := -1.

(** [memfd] is the result of [create_sealed_memfd_for_data], [mmap_ret]
    the address [mmap] answers. *)
Definition g_bytes_new_unique_async (bytes : list byte) (memfd : Z)
    (bus : bool) (handle : Z) (mmap_ret : Z)
  : Client.GBytes * bool * list Client.Effect :=
  let len := Z.of_nat (length bytes) in
  if bool_decide (0 ≤ memfd) then
    let memfd_data := mmap_ret in
    let mapped :=
      Client.sys_mmap 0 len Client.PROT_READ Client.MAP_PRIVATE memfd 0 in
    if bool_decide (memfd_data ≠ 0) then
      let d := Client.mapped_data_new memfd_data len in
      let '(d, pending) := call_make_unique_async bus handle d in
      (Client.g_bytes_new_with_free_func memfd_data len d, pending,
       [mapped; Client.sys_close memfd])
    else (Client.g_bytes_new bytes, false, [mapped; Client.sys_close memfd])
  else (Client.g_bytes_new bytes, false, []).

(** ** The daemon's descriptors

    The handlers once more, this time with what they do to descriptors:
    [g_unix_fd_list_steal_fds] hands the descriptors of the message to
    the handler, [close] gives one up.  The state is threaded as before;
    the trace lists the descriptors taken and closed, in order. *)

Module Traced.

Inductive FdEvent :=
| fd_taken (fd : Z)
| fd_closed (fd : Z).

Definition T (A : Type) : Type := Daemon → option (A * Daemon * list FdEvent).

Global Instance T_ret : MRet T := λ A a st, Some (a, st, []).
Global Instance T_bind : MBind T := λ A B k m st,
  match m st with
  | Some (a, st', tr) =>
      match k a st' with
      | Some (b, st'', tr') => Some (b, st'', tr ++ tr')
      | None => None
      end
  | None => None
  end.

(** A computation that touches no descriptor. *)
Definition lift {A} (m : M A) : T A := λ st,
  match m st with
  | Some (a, st') => Some (a, st', [])
  | None => None
  end.

Definition emit (tr : list FdEvent) : T unit := λ st, Some (tt, st, tr).

Definition close (fd : Z) : T unit := emit [fd_closed fd].

(** [steal_fd] answers the descriptor and leaves -1 in the variable. *)
Definition steal_fd (fdp : Z) : Z * Z := (fdp, -1).

(** The cleanup of an [auto_fd] variable. *)
Definition close_fd (fdp : Z) : T unit :=
  let '(fd, _) := steal_fd fdp in
  if bool_decide (0 ≤ fd) then close fd else mret tt.

Definition blob_unref (blob : addr) : T unit :=
  b ← lift (deref blob);
  let rc := ref_count b - 1 in
  if bool_decide (ref_count b = G_MININT) then lift undefined
  else if bool_decide (rc = 0) then
    lift (modify (λ st,
      set_mem (delete blob (mem st))
        (set_blobs (delete (sha256 b) (blobs st))
           (set_real (gsize_wrap (real_blob_size st - len b)) st))));;
    close (fd b)
  else
    lift (modify (λ st, set_mem (<[blob := set_ref_count rc b]> (mem st)) st)).

Definition removed_blob_from_peer_cb (blob : addr) : T unit :=
  b ← lift (deref blob);
  lift (modify (λ st,
    set_apparent (gsize_wrap (apparent_blob_size st - len b)) st));;
  blob_unref blob.

Fixpoint destroy_values (l : list addr) : T unit :=
  match l with
  | [] => mret tt
  | blob :: l' => removed_blob_from_peer_cb blob;; destroy_values l'
  end.

Definition peer_free (peer : Peer) : T unit :=
  destroy_values (map_to_list (peer_blobs peer)).*2.

Definition add_blob_to_peer (peer_name : string) (blob : addr) : T Z :=
  peer ← lift (lookup_peer peer_name);
  let blob_id := next_blob_id peer in
  let peer := mkPeer (name peer) (guint32_wrap (next_blob_id peer + 1))
                (peer_blobs peer) in
  lift (store_peer peer);;
  b ← lift (deref blob);
  lift (modify (λ st,
    set_apparent (gsize_wrap (apparent_blob_size st + len b)) st));;
  blob' ← lift (blob_ref blob);
  lift (store_peer (mkPeer (name peer) (next_blob_id peer)
                      (<[blob_id := blob']> (peer_blobs peer))));;
  match peer_blobs peer !! blob_id with
  | Some old => removed_blob_from_peer_cb old
  | None => mret tt
  end;;
  mret blob_id.

Definition remove_blob_from_peer (peer_name : string) (blob_id : Z) : T unit :=
  peer ← lift (lookup_peer peer_name);
  match peer_blobs peer !! blob_id with
  | Some blob =>
      lift (store_peer (mkPeer (name peer) (next_blob_id peer)
                          (delete blob_id (peer_blobs peer))));;
      removed_blob_from_peer_cb blob
  | None => mret tt
  end.

(** [steal_one_fd_from_list]: once the bound check has passed the
    descriptors of the list are the handler's, and all but the one at
    [handle] are closed at once.  What it answers is what the function
    of the first embedding answers. *)
Definition steal_one_fd_from_list (fd_list : option (list File)) (handle : Z)
  : T (option File) :=
  emit (fd_taken <$>
          (f_fd <$> match fd_list with
                    | Some fds =>
                        if bool_decide (Z.of_nat (length fds) ≤ handle)
                        then [] else fds
                    | None => []
                    end));;
  emit (fd_closed <$> (f_fd <$> steal_one_fd_from_list_closed fd_list handle));;
  match steal_one_fd_from_list fd_list handle with
  | Some stolen => mret stolen
  | None => lift undefined
  end.

Section Handlers.

Variable sha256_hex : list byte → string.

Definition make_unique (sender : string) (parameters : GVariant)
    (fd_list : option (list File)) (dup : option Z) : T Reply :=
  (* [own_fd] is the [auto_fd] variable [fd] *)
  let own_fd := -1 in
  if negb (g_variant_is_of_type parameters "(h)") then
    close_fd own_fd;;
    mret (return_error G_DBUS_ERROR_INVALID_ARGS "Wrong argument types")
  else
    let handle := g_variant_get_h parameters in
    stolen ← steal_one_fd_from_list fd_list handle;
    match stolen with
    | None =>
        close_fd own_fd;;
        mret (return_error G_DBUS_ERROR_INVALID_ARGS "No fd passed")
    | Some f =>
        let own_fd := f_fd f in
        if seals_missing (fcntl_F_GET_SEALS f) then
          close_fd own_fd;;
          mret (return_error G_DBUS_ERROR_INVALID_ARGS "Fd not sealed")
        else
          match checksum_from_fd g_checksum_new f with
          | (false, _) =>
              close_fd own_fd;;
              mret (return_error G_DBUS_ERROR_INVALID_ARGS "Can't read data")
          | (true, checksum) =>
              let sha := g_checksum_get_string sha256_hex checksum in
              let ret_fds : list Z := [] in
              found ← lift (lookup_blob sha);
              match found with
              | None =>
                  (* blob_new (steal_fd (&fd), sha256): [f] is the file
                     behind the descriptor *)
                  let '(_, own_fd) := steal_fd own_fd in
                  blob ← lift (blob_new f sha);
                  blob_id ← add_blob_to_peer sender blob;
                  blob_unref blob;;
                  close_fd own_fd;;
                  mret (return_value (V_tuple [V_ah []; V_u blob_id]) ret_fds)
              | Some blob =>
                  b ← lift (deref blob);
                  let '(fd_handle, ret_fds) :=
                    g_unix_fd_list_append ret_fds (fd b) dup in
                  if bool_decide (fd_handle < 0) then
                    blob_unref blob;;
                    close_fd own_fd;;
                    mret (return_error G_DBUS_ERROR_FAILED "Failed to dup fd")
                  else
                    blob_id ← add_blob_to_peer sender blob;
                    blob_unref blob;;
                    close_fd own_fd;;
                    mret (return_value (V_tuple [V_ah [fd_handle]; V_u blob_id])
                            ret_fds)
              end
          end
    end.

Definition forget (sender : string) (parameters : GVariant) : T Reply :=
  if negb (g_variant_is_of_type parameters "(u)") then
    mret (return_error G_DBUS_ERROR_INVALID_ARGS "Wrong argument types")
  else
    let blob_id := g_variant_get_u parameters in
    remove_blob_from_peer sender blob_id;;
    mret (return_value (V_tuple []) []).

Definition method_call (sender interface_name method_name : string)
    (parameters : GVariant) (fd_list : option (list File)) (dup : option Z)
  : T Reply :=
  if bool_decide (method_name = "MakeUnique") then
    make_unique sender parameters fd_list dup
  else if bool_decide (method_name = "Forget") then
    forget sender parameters
  else
    mret (return_error G_DBUS_ERROR_UNKNOWN_METHOD
            ("Method " +:+ method_name +:+ " is not implemented on interface "
               +:+ interface_name)).

Definition g_hash_table_remove_peer (nm : string) : T bool :=
  st ← lift get;
  match peers st !! nm with
  | Some peer =>
      lift (modify (λ st, set_peers (delete nm (peers st)) st));;
      peer_free peer;;
      mret true
  | None => mret false
  end.

Definition name_owner_changed (nm from to : string) : T unit :=
  if starts_with_colon nm && bool_decide (nm = from) && bool_decide (to = "")
  then g_hash_table_remove_peer nm;; mret tt
  else mret tt.

Definition dispatch (e : Event) : T (option Reply) :=
  match e with
  | ev_method_call sender interface_name method_name parameters fd_list dup =>
      r ← method_call sender interface_name method_name parameters fd_list dup;
      mret (Some r)
  | ev_name_owner_changed nm from to =>
      name_owner_changed nm from to;; mret None
  end.

Fixpoint run (evs : list Event) : T (list (option Reply)) :=
  match evs with
  | [] => mret []
  | e :: evs' => r ← dispatch e; rs ← run evs'; mret (r :: rs)
  end.

End Handlers.

(** The computation without its trace. *)
Definition erase {A} (m : T A) : M A := λ st,
  match m st with
  | Some (a, st', _) => Some (a, st')
  | None => None
  end.

End Traced.

(** ** Vocabulary of the further properties *)

(** The memfd as the daemon meets it under the descriptor [n]: it can
    be read to the end, and [fstat] succeeds. *)
Definition memfd_file (n : Z) (m : Memfd) : File :=
  mkFile n (m_seals m) (m_data m) None true.

(** [same_blobs st st']: the blobs allocated in [st'] were allocated in
    [st], with the digest, the length and the descriptor they have. *)
Definition same_blobs (st st' : Daemon) : Prop :=
  ∀ a b', mem st' !! a = Some b' →
    ∃ b, mem st !! a = Some b ∧ sha256 b' = sha256 b ∧ len b' = len b
         ∧ fd b' = fd b.

(** The peer an event is about: the sender of a method call, the name of
    a NameOwnerChanged signal. *)
Definition subject (e : Event) : string :=
  match e with
  | ev_method_call sender _ _ _ _ _ => sender
  | ev_name_owner_changed nm _ _ => nm
  end.

(** The descriptors a message carries are open descriptors. *)
Definition descriptors_valid (e : Event) : Prop :=
  match e with
  | ev_method_call _ _ _ _ (Some fds) _ => Forall (λ f, 0 ≤ f_fd f) fds
  | _ => True
  end.

Definition fd_is (x y : Z) : Z := if decide (y = x) then 1 else 0.

(** How many blobs of the store hold the descriptor [x]. *)
Definition held (x : Z) (st : Daemon) : Z :=
  table_weight (λ b, fd_is x (fd b)) (mem st).

(** How often a trace takes, and closes, the descriptor [x]. *)
Definition taken (x : Z) (tr : list Traced.FdEvent) : Z :=
  list_weight (λ ev, match ev with
                     | Traced.fd_taken y => fd_is x y
                     | Traced.fd_closed _ => 0
                     end) tr.

Definition closed (x : Z) (tr : list Traced.FdEvent) : Z :=
  list_weight (λ ev, match ev with
                     | Traced.fd_taken _ => 0
                     | Traced.fd_closed y => fd_is x y
                     end) tr.

(** [moves before m after]: the computation accounts for every
    descriptor: those it takes, those the blobs hold and those in local
    variables before ([before]) are the ones it closes, those the blobs
    hold and those in local variables after ([after]). *)
Definition moves {A} (before : list Z) (m : Traced.T A) (after : A → list Z)
  : Prop :=
  ∀ st a st' tr x, m st = Some (a, st', tr) →
    taken x tr + held x st + list_weight (fd_is x) before
    = closed x tr + held x st' + list_weight (fd_is x) (after a).

(** ** Further sample runs *)

Definition goodbye : list byte := String.list_byte_of_string "Goodbye".

(** One client submits two different contents. *)
Definition two_contents : list Event :=
  [submit ":1.1" (sealed_memfd 7 hello_world) None;
   submit ":1.1" (sealed_memfd 8 goodbye) None].

(** A descriptor that carries no seal. *)
Definition unsealed_memfd (n : Z) (bytes : list byte) : File :=
  mkFile n 0 bytes None true.

Definition ENOSPC : Z := 28.

(** A reply whose list carries a second descriptor besides the one its
    array names, at index 1. *)
Definition crowded_reply : Client.Response :=
  Client.mkResponse [1] 2 (Some [10; 9]).

(** A reply to a submission of new bytes that carries the handle 0. *)
Definition zero_reply : Client.Response :=
  Client.mkResponse [] 0 None.

(** A file of 2^63 - 1 zero bytes, the largest [st_size] there is. *)
Definition huge : list byte := replicate (Z.to_nat (2 ^ 63 - 1)) x00.

(** One client submits the same bytes three times. *)
Definition three_submissions (bytes : list byte) : list Event :=
  [submit ":1.1" (sealed_memfd 7 bytes) None;
   submit ":1.1" (sealed_memfd 8 bytes) (Some 9);
   submit ":1.1" (sealed_memfd 10 bytes) (Some 11)].

(** The daemon when the next handle of ":1.1" is [k] and nobody holds a
    handle. *)
Definition lone_peer (k : Z) : Daemon :=
  set_peers {[ ":1.1" := mkPeer ":1.1" k ∅ ]} main_init.

(** * Properties *)

Section weights.
Context `{Countable K} {V : Type}.
Implicit Types (w : V → Z) (m : gmap K V) (l : list V).

Lemma list_weight_app w l1 l2 :
  list_weight w (l1 ++ l2) = list_weight w l1 + list_weight w l2.
Proof. induction l1 as [|v l1 IH]; simpl; [done | rewrite IH; lia]. Qed.

Lemma list_weight_perm w l1 l2 :
  l1 ≡ₚ l2 → list_weight w l1 = list_weight w l2.
Proof. induction 1; simpl; lia. Qed.

Lemma list_weight_nonneg w l : (∀ v, 0 ≤ w v) → 0 ≤ list_weight w l.
Proof. intros Hw. induction l as [|v l IH]; simpl; [done | specialize (Hw v); lia]. Qed.

Lemma list_weight_ext w w' l :
  (∀ v, v ∈ l → w v = w' v) → list_weight w l = list_weight w' l.
Proof.
  induction l as [|v l IH]; simpl; intros Hw; [done|].
  rewrite Hw, IH; [done | | left]. intros x Hx. apply Hw. by right.
Qed.

Lemma table_weight_empty w : table_weight w (∅ : gmap K V) = 0.
Proof. unfold table_weight. by rewrite map_fold_empty. Qed.

Lemma table_weight_insert w m k v :
  m !! k = None → table_weight w (<[k:=v]> m) = w v + table_weight w m.
Proof.
  intros Hk. unfold table_weight.
  rewrite map_fold_insert_L; [done | intros; lia | done].
Qed.

Lemma table_weight_delete w m k v :
  m !! k = Some v → table_weight w (delete k m) = table_weight w m - w v.
Proof.
  intros Hk. unfold table_weight.
  rewrite (map_fold_delete_L _ _ k v m); [lia | intros; lia | done].
Qed.

Lemma table_weight_replace w m k v0 v :
  m !! k = Some v0 →
  table_weight w (<[k:=v]> m) = table_weight w m - w v0 + w v.
Proof.
  intros Hk. rewrite <- insert_delete_eq.
  rewrite table_weight_insert by apply lookup_delete_eq.
  rewrite (table_weight_delete _ _ _ _ Hk). lia.
Qed.

Lemma table_weight_ext w w' m :
  (∀ k v, m !! k = Some v → w v = w' v) →
  table_weight w m = table_weight w' m.
Proof.
  induction m as [|k v m Hk IH] using map_ind; intros Hw.
  - by rewrite !table_weight_empty.
  - rewrite !table_weight_insert by done.
    rewrite (Hw k v) by apply lookup_insert_eq.
    rewrite IH; [done|]. intros k' v' Hk'. apply (Hw k').
    rewrite lookup_insert_ne; [done | congruence].
Qed.

Lemma table_weight_nonneg w m :
  (∀ v, 0 ≤ w v) → 0 ≤ table_weight w m.
Proof.
  intros Hw. induction m as [|k v m Hk IH] using map_ind.
  - by rewrite table_weight_empty.
  - rewrite table_weight_insert by done. specialize (Hw v). lia.
Qed.

Lemma table_weight_entry w m k v :
  (∀ v, 0 ≤ w v) → m !! k = Some v → w v ≤ table_weight w m.
Proof.
  intros Hw Hk.
  pose proof (table_weight_delete w m k v Hk).
  pose proof (table_weight_nonneg w (delete k m) Hw). lia.
Qed.

Lemma table_weight_values w m :
  table_weight w m = list_weight w (map_to_list m).*2.
Proof.
  unfold table_weight. rewrite map_fold_foldr.
  induction (map_to_list m) as [|[k v] l IH]; simpl; [done | by rewrite IH].
Qed.

End weights.

(** ** The daemon monad *)

Lemma bind_Some {A B} (m : M A) (k : A → M B) st b st'' :
  (m ≫= k) st = Some (b, st'') ↔
  ∃ a st', m st = Some (a, st') ∧ k a st' = Some (b, st'').
Proof.
  unfold mbind, M_bind. destruct (m st) as [[a st']|]; split.
  - eauto.
  - intros (? & ? & [= <- <-] & ?). done.
  - done.
  - intros (? & ? & ? & ?). done.
Qed.

Lemma bind_eq {A B} (m : M A) (k : A → M B) st a st' :
  m st = Some (a, st') → (m ≫= k) st = k a st'.
Proof. intros Hm. unfold mbind, M_bind. by rewrite Hm. Qed.

Lemma ret_Some {A} (a b : A) (st st' : Daemon) :
  (mret a : M A) st = Some (b, st') ↔ b = a ∧ st' = st.
Proof.
  unfold mret, M_ret. split; [by intros [= -> ->] | by intros [-> ->]].
Qed.

Lemma modify_Some (f : Daemon → Daemon) st u st' :
  modify f st = Some (u, st') ↔ st' = f st.
Proof.
  unfold modify. destruct u. split; [by intros [= ->] | by intros ->].
Qed.

Lemma deref_Some blob st b st' :
  deref blob st = Some (b, st') ↔ mem st !! blob = Some b ∧ st' = st.
Proof.
  unfold deref. destruct (mem st !! blob) as [b0|].
  - split; [by intros [= -> ->] | by intros [[= ->] ->]].
  - split; [done | by intros [? _]].
Qed.

Lemma always_whenever {A} P (m : M A) Q : always P m Q → whenever P m Q.
Proof.
  intros Ht st a st' HP Hm. destruct (Ht st HP) as (a' & st'' & Hm' & HQ).
  congruence.
Qed.

Lemma always_bind {A B} P (m : M A) Q (k : A → M B) S :
  always P m Q → (∀ a, always (Q a) (k a) S) → always P (m ≫= k) S.
Proof.
  intros Hm Hk st HP. destruct (Hm st HP) as (a & st' & Hm' & HQ).
  destruct (Hk a st' HQ) as (b & st'' & Hk' & HS).
  exists b, st''. split; [|done]. by rewrite (bind_eq _ _ _ _ _ Hm').
Qed.

Lemma whenever_bind {A B} P (m : M A) Q (k : A → M B) S :
  whenever P m Q → (∀ a, whenever (Q a) (k a) S) → whenever P (m ≫= k) S.
Proof.
  intros Hm Hk st b st'' HP Hb. apply bind_Some in Hb as (a & st' & Hm' & Hk').
  eapply Hk; [|done]. eapply Hm; done.
Qed.

Lemma always_ret {A} (P : Daemon → Prop) (Q : A → Daemon → Prop) a :
  (∀ st, P st → Q a st) → always P (mret a) Q.
Proof. intros HPQ st HP. exists a, st. split; [done | auto]. Qed.

Lemma whenever_ret {A} (P : Daemon → Prop) (Q : A → Daemon → Prop) a :
  (∀ st, P st → Q a st) → whenever P (mret a) Q.
Proof. intros. by apply always_whenever, always_ret. Qed.

(** ** Counting handle entries *)

Lemma points_at_nonneg blob a : 0 ≤ points_at blob a.
Proof. unfold points_at. case_decide; lia. Qed.

Lemma points_at_same a : points_at a a = 1.
Proof. unfold points_at. by rewrite decide_True. Qed.

Lemma points_at_other blob a : a ≠ blob → points_at blob a = 0.
Proof. intros. unfold points_at. by rewrite decide_False. Qed.

Lemma list_count_elem (a : addr) l :
  a ∈ l → 0 < list_weight (points_at a) l.
Proof.
  induction 1 as [x l | x y l Hx IH]; simpl.
  - rewrite points_at_same.
    pose proof (list_weight_nonneg (points_at x) l (points_at_nonneg x)). lia.
  - pose proof (points_at_nonneg x y). lia.
Qed.

Lemma list_count_nonneg (a : addr) l : 0 ≤ list_weight (points_at a) l.
Proof. apply list_weight_nonneg, points_at_nonneg. Qed.

Lemma entries_weight_insert_new w ps n peer :
  ps !! n = None →
  entries_weight w (<[n:=peer]> ps) =
  entries_weight w ps + table_weight w (peer_blobs peer).
Proof.
  intros Hn. unfold entries_weight. rewrite table_weight_insert by done. lia.
Qed.

Lemma entries_weight_replace w ps n peer0 peer :
  ps !! n = Some peer0 →
  entries_weight w (<[n:=peer]> ps) =
  entries_weight w ps - table_weight w (peer_blobs peer0)
  + table_weight w (peer_blobs peer).
Proof.
  intros Hn. unfold entries_weight.
  by rewrite (table_weight_replace _ _ _ _ _ Hn).
Qed.

Lemma entries_weight_delete w ps n peer :
  ps !! n = Some peer →
  entries_weight w (delete n ps) =
  entries_weight w ps - table_weight w (peer_blobs peer).
Proof.
  intros Hn. unfold entries_weight.
  by rewrite (table_weight_delete _ _ _ _ Hn).
Qed.

Lemma entries_weight_ext w w' ps :
  (∀ n peer i a, ps !! n = Some peer → peer_blobs peer !! i = Some a →
                  w a = w' a) →
  entries_weight w ps = entries_weight w' ps.
Proof.
  intros Hw. unfold entries_weight. apply table_weight_ext.
  intros n peer Hn. apply table_weight_ext. intros i a Hi. eauto.
Qed.

Lemma handle_count_nonneg blob ps : 0 ≤ handle_count blob ps.
Proof.
  unfold handle_count, entries_weight. apply table_weight_nonneg.
  intros peer. apply table_weight_nonneg, points_at_nonneg.
Qed.

Lemma handle_count_entry ps n peer i a :
  ps !! n = Some peer → peer_blobs peer !! i = Some a →
  0 < handle_count a ps.
Proof.
  intros Hn Hi. unfold handle_count, entries_weight.
  pose proof (table_weight_entry (points_at a) (peer_blobs peer) i a
                (points_at_nonneg a) Hi) as H1.
  rewrite points_at_same in H1.
  pose proof (table_weight_entry
                (λ p, table_weight (points_at a) (peer_blobs p)) ps n peer) as H2.
  simpl in H2. specialize (H2 (λ p, table_weight_nonneg _ _ (points_at_nonneg a)) Hn).
  lia.
Qed.

(** ** What the discipline gives *)

Lemma rc_at_lookup m a b : m !! a = Some b → rc_at m a = ref_count b.
Proof. intros Ha. unfold rc_at. by rewrite Ha. Qed.

Lemma rc_at_absent m a : m !! a = None → rc_at m a = 0.
Proof. intros Ha. unfold rc_at. by rewrite Ha. Qed.

Lemma len_at_lookup m a b : m !! a = Some b → len_at m a = len b.
Proof. intros Ha. unfold len_at. by rewrite Ha. Qed.

Lemma owns_referenced R A st a :
  owns R A st → 0 < rc_at (mem st) a → ∃ b, mem st !! a = Some b.
Proof.
  intros _ Hrc. unfold rc_at in Hrc.
  destruct (mem st !! a) as [b|]; [eauto | simpl in Hrc; lia].
Qed.

Lemma owns_held R A st a :
  owns R A st → a ∈ R → ∃ b, mem st !! a = Some b.
Proof.
  intros Ho Ha. apply (owns_referenced R A st a Ho).
  rewrite (owns_rc _ _ _ Ho).
  pose proof (handle_count_nonneg a (peers st)).
  pose proof (list_count_elem a R Ha). lia.
Qed.

Lemma owns_entry R A st n peer i a :
  owns R A st → peers st !! n = Some peer → peer_blobs peer !! i = Some a →
  ∃ b, mem st !! a = Some b.
Proof.
  intros Ho Hn Hi. apply (owns_referenced R A st a Ho).
  rewrite (owns_rc _ _ _ Ho).
  pose proof (handle_count_entry _ _ _ _ _ Hn Hi).
  pose proof (list_count_nonneg a R). lia.
Qed.

Lemma owns_absent R A st a :
  owns R A st → mem st !! a = None →
  handle_count a (peers st) = 0 ∧ list_weight (points_at a) R = 0
  ∧ list_weight (points_at a) A = 0.
Proof.
  intros Ho Ha. pose proof (owns_rc _ _ _ Ho a) as Hrc.
  rewrite (rc_at_absent _ _ Ha) in Hrc.
  pose proof (handle_count_nonneg a (peers st)).
  pose proof (list_count_nonneg a R). pose proof (list_count_nonneg a A).
  pose proof (owns_tokens _ _ _ Ho a). lia.
Qed.

(** Changing the reference count of a blob by [d], when the holders in
    the lists change accordingly. *)
Lemma owns_update_rc R R' A st a b d :
  owns R A st → mem st !! a = Some b → 0 < ref_count b + d →
  (∀ x, list_weight (points_at x) R' =
        list_weight (points_at x) R + d * points_at x a) →
  (∀ x, list_weight (points_at x) A ≤ list_weight (points_at x) R') →
  owns R' A
    (set_mem (<[a := set_ref_count (ref_count b + d) b]> (mem st)) st).
Proof.
  intros Ho Ha Hpos HR Htok.
  assert (Hlen : ∀ x, len_at (<[a := set_ref_count (ref_count b + d) b]> (mem st)) x
                      = len_at (mem st) x).
  { intros x. unfold len_at. destruct (decide (x = a)) as [->|Hne].
    - by rewrite lookup_insert_eq, Ha.
    - by rewrite lookup_insert_ne. }
  destruct Ho as [H1 H2 H3 H4 H5 H6 H7 H8]. split; simpl.
  - intros k x Hk. destruct (H1 k x Hk) as (bx & Hx & Hsha).
    destruct (decide (x = a)) as [->|Hne].
    + rewrite lookup_insert_eq. eexists. split; [done|]. simpl. congruence.
    + rewrite lookup_insert_ne by done. eauto.
  - intros x bx. destruct (decide (x = a)) as [->|Hne].
    + rewrite lookup_insert_eq. intros [= <-]. simpl. by apply H2.
    + rewrite lookup_insert_ne by done. apply H2.
  - intros x. rewrite HR. destruct (decide (x = a)) as [->|Hne].
    + rewrite (rc_at_lookup _ _ _ (lookup_insert_eq _ _ _)). simpl.
      specialize (H3 a). rewrite (rc_at_lookup _ _ _ Ha) in H3.
      rewrite points_at_same. lia.
    + unfold rc_at. rewrite lookup_insert_ne by done.
      rewrite (points_at_other x a) by congruence. specialize (H3 x).
      unfold rc_at in H3. lia.
  - intros x bx. destruct (decide (x = a)) as [->|Hne].
    + rewrite lookup_insert_eq. intros [= <-]. simpl.
      split; [lia | by apply (H4 a b)].
    + rewrite lookup_insert_ne by done. apply H4.
  - rewrite H5. f_equal. rewrite (table_weight_replace _ _ _ _ _ Ha).
    simpl. lia.
  - rewrite H6. unfold entries_len. simpl. f_equal. f_equal.
    + apply entries_weight_ext. intros. by rewrite Hlen.
    + apply list_weight_ext. intros. by rewrite Hlen.
  - done.
  - done.
Qed.

(** ** Blobs *)

Lemma blob_ref_Some blob st x st' :
  blob_ref blob st = Some (x, st') ↔
  ∃ b, mem st !! blob = Some b ∧ ref_count b ≠ G_MAXINT ∧ x = blob
       ∧ st' = set_mem (<[blob := set_ref_count (ref_count b + 1) b]> (mem st)) st.
Proof.
  unfold blob_ref. rewrite bind_Some. split.
  - intros (b & st1 & [Hb ->]%deref_Some & Hk). exists b.
    case_bool_decide; [done|].
    apply bind_Some in Hk as (u & st2 & ->%modify_Some & [-> ->]%ret_Some).
    done.
  - intros (b & Hb & Hrc & -> & ->). exists b, st. split.
    + by apply deref_Some.
    + rewrite bool_decide_eq_false_2 by done. done.
Qed.

Lemma blob_unref_Some blob st u st' :
  blob_unref blob st = Some (u, st') ↔
  ∃ b, mem st !! blob = Some b ∧ ref_count b ≠ G_MININT ∧
       st' = if bool_decide (ref_count b - 1 = 0)
             then set_mem (delete blob (mem st))
                    (set_blobs (delete (sha256 b) (blobs st))
                       (set_real (gsize_wrap (real_blob_size st - len b)) st))
             else set_mem (<[blob := set_ref_count (ref_count b - 1) b]> (mem st)) st.
Proof.
  unfold blob_unref. rewrite bind_Some. destruct u. split.
  - intros (b & st1 & [Hb ->]%deref_Some & Hk). exists b. split; [done|].
    case_bool_decide; [done|]. split; [done|].
    case_bool_decide; by apply modify_Some in Hk.
  - intros (b & Hb & Hmin & ->). exists b, st. split; [by apply deref_Some|].
    rewrite (bool_decide_eq_false_2 (ref_count b = G_MININT)) by done.
    case_bool_decide; done.
Qed.

Lemma owns_blob_ref R A blob :
  whenever (owns R A) (blob_ref blob) (λ x st', x = blob ∧ owns (blob :: R) A st').
Proof.
  intros st x st' Ho (b & Hb & Hrc & -> & ->)%blob_ref_Some. split; [done|].
  apply (owns_update_rc R (blob :: R) A st blob b 1 Ho Hb).
  - destruct (owns_pos _ _ _ Ho _ _ Hb). lia.
  - intros x. simpl. lia.
  - intros x. simpl. pose proof (owns_tokens _ _ _ Ho x).
    pose proof (points_at_nonneg x blob). lia.
Qed.

Lemma owns_blob_unref R A blob :
  (∀ x, list_weight (points_at x) A ≤ list_weight (points_at x) R) →
  always (owns (blob :: R) A) (blob_unref blob) (λ _ st', owns R A st').
Proof.
  intros Htok st Ho.
  destruct (owns_held _ _ _ blob Ho) as [b Hb]; [left|].
  destruct (owns_pos _ _ _ Ho _ _ Hb) as [Hpos Hlen].
  eexists tt, _. split.
  { apply blob_unref_Some. exists b. split; [done|].
    split; [unfold G_MININT; lia | done]. }
  case_bool_decide as Hrc.
  - (* the last reference: the blob is destroyed *)
    pose proof (owns_rc _ _ _ Ho blob) as Hcount.
    rewrite (rc_at_lookup _ _ _ Hb) in Hcount. simpl in Hcount.
    rewrite points_at_same in Hcount.
    pose proof (handle_count_nonneg blob (peers st)).
    pose proof (list_count_nonneg blob R).
    assert (Hframe : ∀ a, 0 < rc_at (mem st) a → a ≠ blob →
                          len_at (delete blob (mem st)) a = len_at (mem st) a).
    { intros a _ Hne. unfold len_at. by rewrite lookup_delete_ne. }
    assert (Hlive : ∀ a, 0 < handle_count a (peers st)
                           + list_weight (points_at a) R → a ≠ blob).
    { intros a Ha ->. lia. }
    split; simpl.
    + intros k a. destruct (decide (k = sha256 b)) as [->|Hk].
      { by rewrite lookup_delete_eq. }
      rewrite lookup_delete_ne by done. intros Ha.
      destruct (owns_table _ _ _ Ho _ _ Ha) as (ba & Hba & Hsha).
      exists ba. split; [|done]. rewrite lookup_delete_ne; [done|].
      intros ->. congruence.
    + intros a ba. destruct (decide (a = blob)) as [->|Hne].
      { by rewrite lookup_delete_eq. }
      rewrite lookup_delete_ne by done. intros Ha.
      pose proof (owns_mem _ _ _ Ho _ _ Ha) as Hk.
      rewrite lookup_delete_ne; [done|]. intros Heq.
      pose proof (owns_mem _ _ _ Ho _ _ Hb) as Hk'. congruence.
    + intros a. destruct (decide (a = blob)) as [->|Hne].
      * rewrite rc_at_absent by apply lookup_delete_eq. lia.
      * unfold rc_at. rewrite lookup_delete_ne by done.
        pose proof (owns_rc _ _ _ Ho a) as Ha. unfold rc_at in Ha.
        simpl in Ha. rewrite (points_at_other a blob) in Ha by congruence. lia.
    + intros a ba. destruct (decide (a = blob)) as [->|Hne].
      { by rewrite lookup_delete_eq. }
      rewrite lookup_delete_ne by done. apply (owns_pos _ _ _ Ho).
    + rewrite (owns_real _ _ _ Ho), (table_weight_delete _ _ _ _ Hb).
      unfold gsize_wrap. by rewrite Zminus_mod_idemp_l.
    + rewrite (owns_apparent _ _ _ Ho). unfold entries_len. simpl.
      f_equal. f_equal.
      * apply entries_weight_ext. intros n peer i a Hn Hi. symmetry.
        apply Hframe; [|apply Hlive].
        -- rewrite (owns_rc _ _ _ Ho).
           pose proof (handle_count_entry _ _ _ _ _ Hn Hi).
           pose proof (list_count_nonneg a (blob :: R)). lia.
        -- pose proof (handle_count_entry _ _ _ _ _ Hn Hi).
           pose proof (list_count_nonneg a R). lia.
      * apply list_weight_ext. intros a Ha. symmetry.
        pose proof (list_count_elem a A Ha). specialize (Htok a).
        pose proof (handle_count_nonneg a (peers st)).
        apply Hframe; [|apply Hlive; lia].
        rewrite (owns_rc _ _ _ Ho).
        pose proof (list_count_nonneg a (blob :: R)).
        simpl. pose proof (points_at_nonneg a blob). lia.
    + apply (owns_names _ _ _ Ho).
    + done.
  - replace (ref_count b - 1) with (ref_count b + -1) by lia.
    apply (owns_update_rc (blob :: R) R A st blob b (-1) Ho Hb); [lia | |done].
    intros x. simpl. lia.
Qed.

Lemma fresh_blob_absent (m : gmap addr Blob) : m !! fresh (dom m) = None.
Proof. apply not_elem_of_dom, is_fresh. Qed.

Lemma gsize_wrap_range z : 0 ≤ gsize_wrap z < 2 ^ 64.
Proof. unfold gsize_wrap. apply Z.mod_pos_bound. lia. Qed.

Lemma owns_blob_new R A f sha :
  whenever (λ st, owns R A st ∧ blobs st !! sha = None) (blob_new f sha)
    (λ blob st', owns (blob :: R) A st').
Proof.
  intros st blob st' [Ho Hsha] Hnew. unfold blob_new in Hnew.
  injection Hnew as <- <-.
  set (blob := fresh (dom (mem st))).
  set (l := match fstat f with Some sz => gsize_wrap sz | None => 0 end).
  assert (Hfresh : mem st !! blob = None) by apply fresh_blob_absent.
  destruct (owns_absent _ _ _ _ Ho Hfresh) as (Hc & HR & HA).
  assert (Hl : 0 ≤ l).
  { subst l. destruct (fstat f); [apply gsize_wrap_range | done]. }
  assert (Hframe : ∀ a, a ≠ blob →
            len_at (<[blob := mkBlob sha l (f_fd f) 1]> (mem st)) a
            = len_at (mem st) a).
  { intros a Hne. unfold len_at. by rewrite lookup_insert_ne. }
  split; simpl.
  - intros k a. destruct (decide (k = sha)) as [->|Hk].
    + rewrite lookup_insert_eq. intros [= <-]. rewrite lookup_insert_eq. eauto.
    + rewrite lookup_insert_ne by done. intros Ha.
      destruct (owns_table _ _ _ Ho _ _ Ha) as (ba & Hba & Hs).
      exists ba. split; [|done]. rewrite lookup_insert_ne; [done|].
      intros <-. congruence.
  - intros a ba. destruct (decide (a = blob)) as [->|Hne].
    + rewrite lookup_insert_eq. intros [= <-]. simpl. apply lookup_insert_eq.
    + rewrite lookup_insert_ne by done. intros Ha.
      pose proof (owns_mem _ _ _ Ho _ _ Ha) as Hk.
      rewrite lookup_insert_ne; [done|]. intros Heq. congruence.
  - intros a. destruct (decide (a = blob)) as [->|Hne].
    + rewrite (rc_at_lookup _ _ _ (lookup_insert_eq _ _ _)). simpl.
      rewrite points_at_same. lia.
    + unfold rc_at. rewrite lookup_insert_ne by done.
      rewrite (points_at_other a blob) by congruence.
      pose proof (owns_rc _ _ _ Ho a) as Ha. unfold rc_at in Ha. lia.
  - intros a ba. destruct (decide (a = blob)) as [->|Hne].
    + rewrite lookup_insert_eq. intros [= <-]. simpl. lia.
    + rewrite lookup_insert_ne by done. apply (owns_pos _ _ _ Ho).
  - rewrite (owns_real _ _ _ Ho), table_weight_insert by done. simpl.
    unfold gsize_wrap. rewrite Zplus_mod_idemp_l. f_equal. lia.
  - rewrite (owns_apparent _ _ _ Ho). unfold entries_len. simpl.
    f_equal. f_equal.
    + apply entries_weight_ext. intros n peer i a Hn Hi. symmetry.
      apply Hframe. intros ->.
      pose proof (handle_count_entry _ _ _ _ _ Hn Hi). lia.
    + apply list_weight_ext. intros a Ha. symmetry. apply Hframe.
      intros ->. pose proof (list_count_elem _ _ Ha). lia.
  - apply (owns_names _ _ _ Ho).
  - intros a. pose proof (owns_tokens _ _ _ Ho a).
    pose proof (points_at_nonneg a blob). lia.
Qed.

Lemma owns_lookup_blob R A sha :
  whenever (owns R A) (lookup_blob sha)
    (λ found st',
       match found with
       | Some blob => owns (blob :: R) A st' ∧ blobs st' !! sha = Some blob
       | None => owns R A st' ∧ blobs st' !! sha = None
       end).
Proof.
  intros st found st' Ho Hl. unfold lookup_blob in Hl.
  apply bind_Some in Hl as (st0 & st1 & [= <- <-] & Hl).
  destruct (blobs st !! sha) as [blob|] eqn:Hsha.
  - apply bind_Some in Hl as (x & st2 & Href & [-> ->]%ret_Some).
    pose proof Href as (b & _ & _ & -> & ->)%blob_ref_Some.
    destruct (owns_blob_ref R A blob st _ _ Ho Href) as [_ Ho']. done.
  - apply ret_Some in Hl as [-> ->]. done.
Qed.

Lemma owns_count_apparent R A st blob b :
  owns R A st → mem st !! blob = Some b →
  (∀ x, list_weight (points_at x) (blob :: A) ≤ list_weight (points_at x) R) →
  owns R (blob :: A)
    (set_apparent (gsize_wrap (apparent_blob_size st + len b)) st).
Proof.
  intros [H1 H2 H3 H4 H5 H6 H7 H8] Hb Htok. split; try done. simpl.
  rewrite H6, (len_at_lookup _ _ _ Hb). unfold gsize_wrap, entries_len. simpl.
  rewrite Zplus_mod_idemp_l. f_equal. lia.
Qed.

Lemma owns_discount_apparent R A st blob b :
  owns R (blob :: A) st → mem st !! blob = Some b →
  owns R A (set_apparent (gsize_wrap (apparent_blob_size st - len b)) st).
Proof.
  intros [H1 H2 H3 H4 H5 H6 H7 H8] Hb. split; try done; simpl.
  - rewrite H6. simpl. rewrite (len_at_lookup _ _ _ Hb).
    unfold gsize_wrap, entries_len. simpl.
    rewrite Zminus_mod_idemp_l. f_equal. lia.
  - intros a. specialize (H8 a). simpl in H8.
    pose proof (points_at_nonneg a blob). lia.
Qed.

Lemma removed_blob_from_peer_cb_Some blob st u st' :
  removed_blob_from_peer_cb blob st = Some (u, st') ↔
  ∃ b, mem st !! blob = Some b ∧
       blob_unref blob
         (set_apparent (gsize_wrap (apparent_blob_size st - len b)) st)
       = Some (u, st').
Proof.
  unfold removed_blob_from_peer_cb. rewrite bind_Some. split.
  - intros (b & st1 & [Hb ->]%deref_Some & Hk). exists b. split; [done|].
    by apply bind_Some in Hk as (? & st2 & ->%modify_Some & Hk).
  - intros (b & Hb & Hk). exists b, st. split; [by apply deref_Some|].
    by rewrite (bind_eq _ _ _ tt _ eq_refl).
Qed.

Lemma owns_removed_blob_from_peer_cb R A blob :
  always (owns (blob :: R) (blob :: A)) (removed_blob_from_peer_cb blob)
    (λ _ st', owns R A st').
Proof.
  intros st Ho. destruct (owns_held _ _ _ blob Ho) as [b Hb]; [left|].
  pose proof (owns_discount_apparent _ _ _ _ _ Ho Hb) as Ho'.
  destruct (owns_blob_unref R A blob) with (st := set_apparent
    (gsize_wrap (apparent_blob_size st - len b)) st) as ([] & st' & Hu & Ho'');
    [|done|].
  - intros x. pose proof (owns_tokens _ _ _ Ho x) as Hx. simpl in Hx. lia.
  - exists tt, st'. split; [|done].
    apply removed_blob_from_peer_cb_Some. eauto.
Qed.

Lemma owns_destroy_values R A l :
  always (owns (l ++ R) (l ++ A)) (destroy_values l) (λ _ st', owns R A st').
Proof.
  induction l as [|blob l IH]; simpl.
  - by apply always_ret.
  - eapply always_bind; [apply owns_removed_blob_from_peer_cb|].
    intros []. apply IH.
Qed.

(** ** Peers *)

Lemma lookup_peer_Some nm st peer st' :
  lookup_peer nm st = Some (peer, st') ↔
  (peers st !! nm = Some peer ∧ st' = st)
  ∨ (peers st !! nm = None ∧ peer = mkPeer nm 1 ∅
     ∧ st' = set_peers (<[nm := peer]> (peers st)) st).
Proof.
  unfold lookup_peer. destruct (peers st !! nm) as [peer0|]; split.
  - intros [= -> ->]. by left.
  - by intros [[[= ->] ->]|[? _]].
  - intros [= <- <-]. by right.
  - by intros [[? _]|(_ & -> & ->)].
Qed.

Lemma owns_new_peer R A st nm :
  owns R A st → peers st !! nm = None →
  owns R A (set_peers (<[nm := mkPeer nm 1 ∅]> (peers st)) st).
Proof.
  intros [H1 H2 H3 H4 H5 H6 H7 H8] Hn. split; try done; simpl.
  - intros a. rewrite H3. unfold handle_count.
    rewrite entries_weight_insert_new by done. simpl.
    rewrite table_weight_empty. lia.
  - rewrite H6. unfold entries_len. simpl.
    rewrite entries_weight_insert_new by done. simpl.
    rewrite table_weight_empty. f_equal. lia.
  - intros n peer. destruct (decide (n = nm)) as [->|Hne].
    + rewrite lookup_insert_eq. by intros [= <-].
    + rewrite lookup_insert_ne by done. apply H7.
Qed.

Lemma owns_lookup_peer R A nm :
  always (owns R A) (lookup_peer nm)
    (λ peer st', owns R A st' ∧ peers st' !! nm = Some peer ∧ name peer = nm).
Proof.
  intros st Ho. unfold lookup_peer.
  destruct (peers st !! nm) as [peer|] eqn:Hn.
  - exists peer, st. split; [done|]. split; [done|]. split; [done|].
    by apply (owns_names _ _ _ Ho).
  - eexists _, _. split; [done|]. split; [by apply owns_new_peer|].
    simpl. by rewrite lookup_insert_eq.
Qed.

(** Rewriting a peer's record, when the pointers that leave its table go
    to the lists and those that enter it come from them. *)
Lemma owns_store_peer R R' A A' st nm peer0 peer' :
  owns R A st → peers st !! nm = Some peer0 → name peer' = nm →
  (∀ w, table_weight w (peer_blobs peer') + list_weight w R'
        = table_weight w (peer_blobs peer0) + list_weight w R) →
  (∀ w, table_weight w (peer_blobs peer') + list_weight w A'
        = table_weight w (peer_blobs peer0) + list_weight w A) →
  (∀ x, list_weight (points_at x) A' ≤ list_weight (points_at x) R') →
  owns R' A' (set_peers (<[nm := peer']> (peers st)) st).
Proof.
  intros [H1 H2 H3 H4 H5 H6 H7 H8] Hn Hname HR HA Htok.
  split; try done; simpl.
  - intros a. rewrite H3. unfold handle_count.
    rewrite (entries_weight_replace _ _ _ _ _ Hn).
    specialize (HR (points_at a)). lia.
  - rewrite H6. unfold entries_len. simpl.
    rewrite (entries_weight_replace _ _ _ _ _ Hn).
    specialize (HA (len_at (mem st))). f_equal. lia.
  - intros n peer. destruct (decide (n = nm)) as [->|Hne].
    + rewrite lookup_insert_eq. by intros [= <-].
    + rewrite lookup_insert_ne by done. apply H7.
Qed.

Lemma owns_delete_peer R A st nm peer :
  owns R A st → peers st !! nm = Some peer →
  owns ((map_to_list (peer_blobs peer)).*2 ++ R)
       ((map_to_list (peer_blobs peer)).*2 ++ A)
       (set_peers (delete nm (peers st)) st).
Proof.
  intros [H1 H2 H3 H4 H5 H6 H7 H8] Hn. split; try done; simpl.
  - intros a. rewrite H3. unfold handle_count.
    rewrite (entries_weight_delete _ _ _ _ Hn), list_weight_app.
    rewrite <- table_weight_values. lia.
  - rewrite H6. unfold entries_len. simpl.
    rewrite (entries_weight_delete _ _ _ _ Hn), list_weight_app.
    rewrite <- table_weight_values. f_equal. lia.
  - intros n p. destruct (decide (n = nm)) as [->|Hne].
    + by rewrite lookup_delete_eq.
    + rewrite lookup_delete_ne by done. apply H7.
  - intros a. rewrite !list_weight_app. specialize (H8 a). lia.
Qed.

Lemma lookup_peer_mem nm st peer st' :
  lookup_peer nm st = Some (peer, st') →
  mem st' = mem st ∧ blobs st' = blobs st
  ∧ real_blob_size st' = real_blob_size st
  ∧ apparent_blob_size st' = apparent_blob_size st.
Proof. intros [[_ ->]|(_ & _ & ->)]%lookup_peer_Some; done. Qed.

Lemma add_blob_to_peer_Some nm blob st blob_id st' :
  add_blob_to_peer nm blob st = Some (blob_id, st') →
  ∃ peer st1 b,
    lookup_peer nm st = Some (peer, st1) ∧ mem st !! blob = Some b
    ∧ ref_count b ≠ G_MAXINT ∧ blob_id = next_blob_id peer
    ∧ match peer_blobs peer !! blob_id with
      | Some old =>
          removed_blob_from_peer_cb old (entry_added peer blob b st1)
          = Some (tt, st')
      | None => st' = entry_added peer blob b st1
      end.
Proof.
  unfold add_blob_to_peer. intros Hadd.
  apply bind_Some in Hadd as (peer & st1 & Hpeer & Hadd).
  destruct (lookup_peer_mem _ _ _ _ Hpeer) as (Hmem & _).
  apply bind_Some in Hadd as ([] & st2 & Hst2%modify_Some & Hadd).
  apply bind_Some in Hadd as (b & ? & [Hb ->]%deref_Some & Hadd).
  apply bind_Some in Hadd as ([] & st3 & Hst3%modify_Some & Hadd).
  apply bind_Some in Hadd as (blob' & st4 & Href & Hadd).
  apply blob_ref_Some in Href as (b' & Hb' & Hrc & -> & Hst4).
  apply bind_Some in Hadd as ([] & st5 & Hst5%modify_Some & Hadd).
  apply bind_Some in Hadd as ([] & st6 & Hold & [-> ->]%ret_Some).
  assert (b' = b) as -> by (subst st3 st2; simpl in *; congruence).
  assert (mem st !! blob = Some b) by (subst st2; simpl in *; congruence).
  assert (st5 = entry_added peer blob b st1) as ->.
  { subst st5 st4 st3 st2. unfold entry_added, set_peers, set_mem, set_apparent.
    simpl. by rewrite insert_insert_eq. }
  exists peer, st1, b. do 4 (split; [done|]). simpl in Hold.
  destruct (peer_blobs peer !! next_blob_id peer) as [old|].
  - done.
  - by apply ret_Some in Hold as [_ ->].
Qed.

Lemma owns_entry_added R A st peer blob b :
  owns (blob :: R) A st →
  (∀ x, list_weight (points_at x) A ≤ list_weight (points_at x) R) →
  peers st !! name peer = Some peer → mem st !! blob = Some b →
  owns (option_list (peer_blobs peer !! next_blob_id peer) ++ blob :: R)
       (option_list (peer_blobs peer !! next_blob_id peer) ++ A)
       (entry_added peer blob b st).
Proof.
  intros Ho Htok Hpeer Hb.
  assert (owns (blob :: R) (blob :: A)
            (set_apparent (gsize_wrap (apparent_blob_size st + len b)) st))
    as Ho1.
  { apply owns_count_apparent; [done..|]. intros x. simpl.
    specialize (Htok x). lia. }
  assert (owns (blob :: blob :: R) (blob :: A)
            (set_mem (<[blob := set_ref_count (ref_count b + 1) b]> (mem st))
               (set_apparent (gsize_wrap (apparent_blob_size st + len b)) st)))
    as Ho2.
  { apply (owns_update_rc (blob :: R) (blob :: blob :: R) (blob :: A) _
             blob b 1 Ho1 Hb).
    - destruct (owns_pos _ _ _ Ho _ _ Hb). lia.
    - intros x. simpl. lia.
    - intros x. simpl. specialize (Htok x).
      pose proof (points_at_nonneg x blob). lia. }
  set (olds := option_list (peer_blobs peer !! next_blob_id peer)).
  assert (Holds : ∀ w : addr → Z,
    table_weight w (<[next_blob_id peer := blob]> (peer_blobs peer))
    + list_weight w olds = table_weight w (peer_blobs peer) + w blob).
  { intros w. subst olds.
    destruct (peer_blobs peer !! next_blob_id peer) as [old|] eqn:Hold; simpl.
    - rewrite (table_weight_replace _ _ _ _ _ Hold). lia.
    - rewrite table_weight_insert by done. lia. }
  apply (owns_store_peer _ (olds ++ blob :: R) _ (olds ++ A) _ (name peer)
           peer (mkPeer (name peer) (guint32_wrap (next_blob_id peer + 1))
                   (<[next_blob_id peer := blob]> (peer_blobs peer))))
    in Ho2; [done|done|done|..].
  - intros w. simpl. rewrite list_weight_app. simpl.
    specialize (Holds w). lia.
  - intros w. simpl. rewrite list_weight_app.
    specialize (Holds w). lia.
  - intros x. rewrite !list_weight_app. simpl. specialize (Htok x).
    pose proof (points_at_nonneg x blob). lia.
Qed.

Lemma owns_add_blob_to_peer R A nm blob :
  (∀ x, list_weight (points_at x) A ≤ list_weight (points_at x) R) →
  whenever (owns (blob :: R) A) (add_blob_to_peer nm blob)
    (λ _ st', owns (blob :: R) A st').
Proof.
  intros Htok st blob_id st' Ho Hadd.
  apply add_blob_to_peer_Some in Hadd
    as (peer & st1 & b & Hpeer & Hb & Hrc & -> & Hst').
  destruct (owns_lookup_peer _ _ nm st Ho)
    as (peer' & st1' & Hpeer' & Ho1 & Hn & Hname).
  rewrite Hpeer in Hpeer'. injection Hpeer' as <- <-.
  destruct (lookup_peer_mem _ _ _ _ Hpeer) as (Hmem & _).
  rewrite <- Hmem, <- Hname in *.
  pose proof (owns_entry_added R A st1 peer blob b Ho1 Htok Hn Hb) as Ho2.
  destruct (peer_blobs peer !! next_blob_id peer) as [old|]; simpl in Ho2.
  - destruct (owns_removed_blob_from_peer_cb (blob :: R) A old _ Ho2)
      as ([] & st'' & Hcb & Ho3).
    congruence.
  - by subst st'.
Qed.

Lemma remove_blob_from_peer_Some nm blob_id st u st' :
  remove_blob_from_peer nm blob_id st = Some (u, st') ↔
  ∃ peer st1,
    lookup_peer nm st = Some (peer, st1)
    ∧ match peer_blobs peer !! blob_id with
      | Some blob =>
          removed_blob_from_peer_cb blob
            (set_peers (<[name peer := mkPeer (name peer) (next_blob_id peer)
                             (delete blob_id (peer_blobs peer))]> (peers st1))
               st1)
          = Some (u, st')
      | None => st' = st1
      end.
Proof.
  unfold remove_blob_from_peer. rewrite bind_Some. destruct u.
  split; intros (peer & st1 & Hpeer & Hrest); exists peer, st1;
    (split; [done|]);
    destruct (peer_blobs peer !! blob_id) as [blob|].
  - by apply bind_Some in Hrest as ([] & st2 & ->%modify_Some & Hrest).
  - by apply ret_Some in Hrest as [_ ->].
  - by rewrite (bind_eq _ _ _ tt _ eq_refl).
  - by subst.
Qed.

Lemma owns_remove_blob_from_peer R A nm blob_id :
  always (owns R A) (remove_blob_from_peer nm blob_id) (λ _ st', owns R A st').
Proof.
  intros st Ho.
  destruct (owns_lookup_peer _ _ nm st Ho) as (peer & st1 & Hpeer & Ho1 & Hn & Hname).
  destruct (peer_blobs peer !! blob_id) as [blob|] eqn:Hid.
  - assert (owns (blob :: R) (blob :: A)
      (set_peers (<[name peer := mkPeer (name peer) (next_blob_id peer)
                       (delete blob_id (peer_blobs peer))]> (peers st1)) st1))
      as Ho2.
    { rewrite <- Hname in Hn.
      apply (owns_store_peer R _ A _ st1 (name peer) peer
               (mkPeer (name peer) (next_blob_id peer)
                  (delete blob_id (peer_blobs peer))) Ho1 Hn eq_refl).
      - intros w. simpl. rewrite (table_weight_delete _ _ _ _ Hid). lia.
      - intros w. simpl. rewrite (table_weight_delete _ _ _ _ Hid). lia.
      - intros x. simpl. pose proof (owns_tokens _ _ _ Ho1 x). lia. }
    destruct (owns_removed_blob_from_peer_cb R A blob _ Ho2)
      as ([] & st' & Hcb & Ho3).
    exists tt, st'. split; [|done].
    apply remove_blob_from_peer_Some. exists peer, st1. by rewrite Hid.
  - exists tt, st1. split; [|done].
    apply remove_blob_from_peer_Some. exists peer, st1. by rewrite Hid.
Qed.

(** The destroy notify leaves the peers' tables alone. *)
Lemma blob_unref_peers blob st u st' :
  blob_unref blob st = Some (u, st') → peers st' = peers st.
Proof.
  intros (b & _ & _ & ->)%blob_unref_Some. by case_bool_decide.
Qed.

Lemma removed_blob_from_peer_cb_peers blob st u st' :
  removed_blob_from_peer_cb blob st = Some (u, st') → peers st' = peers st.
Proof.
  intros (b & _ & Hu)%removed_blob_from_peer_cb_Some.
  by apply blob_unref_peers in Hu.
Qed.

Lemma destroy_values_peers l st u st' :
  destroy_values l st = Some (u, st') → peers st' = peers st.
Proof.
  revert st. induction l as [|blob l IH]; simpl; intros st Hd.
  - by apply ret_Some in Hd as [_ ->].
  - apply bind_Some in Hd as ([] & st1 & Hcb & Hd).
    rewrite (IH _ Hd). by apply removed_blob_from_peer_cb_peers in Hcb.
Qed.

(** ** The order in which a table is destroyed

    GLib hands the values of a destroyed table to the destroy notify in
    an order of its own; [peer_free] takes the order of [map_to_list].
    The callbacks commute, so the order makes no difference. *)

Lemma removed_blob_from_peer_cb_eq blob st :
  removed_blob_from_peer_cb blob st
  = match mem st !! blob with
    | Some b =>
        if bool_decide (ref_count b = G_MININT) then None
        else
          Some (tt,
                if bool_decide (ref_count b - 1 = 0)
                then mkDaemon (gsize_wrap (real_blob_size st - len b))
                       (gsize_wrap (apparent_blob_size st - len b))
                       (delete blob (mem st)) (delete (sha256 b) (blobs st))
                       (peers st)
                else mkDaemon (real_blob_size st)
                       (gsize_wrap (apparent_blob_size st - len b))
                       (<[blob := set_ref_count (ref_count b - 1) b]> (mem st))
                       (blobs st) (peers st))
    | None => None
    end.
Proof.
  unfold removed_blob_from_peer_cb, blob_unref, deref, modify, undefined,
    mbind, M_bind.
  destruct (mem st !! blob) as [b|] eqn:Hb; [|done]. simpl. rewrite Hb.
  by repeat case_bool_decide.
Qed.

Lemma gsize_wrap_sub_comm x l1 l2 :
  gsize_wrap (gsize_wrap (x - l1) - l2) = gsize_wrap (gsize_wrap (x - l2) - l1).
Proof.
  unfold gsize_wrap. rewrite !Zminus_mod_idemp_l. f_equal. lia.
Qed.

Lemma removed_blob_from_peer_cb_comm a b st :
  (removed_blob_from_peer_cb a ;; removed_blob_from_peer_cb b) st
  = (removed_blob_from_peer_cb b ;; removed_blob_from_peer_cb a) st.
Proof.
  destruct (decide (a = b)) as [->|Hne]; [done|].
  unfold mbind, M_bind.
  rewrite (removed_blob_from_peer_cb_eq a st), (removed_blob_from_peer_cb_eq b st).
  destruct (mem st !! a) as [ba|] eqn:Ha, (mem st !! b) as [bb|] eqn:Hb;
    repeat case_bool_decide; rewrite ?removed_blob_from_peer_cb_eq; simpl;
    rewrite ?lookup_delete_ne, ?lookup_insert_ne by done;
    rewrite ?Ha, ?Hb; try done;
    repeat case_bool_decide; try done.
  all: do 2 f_equal; f_equal;
    first [ apply gsize_wrap_sub_comm | apply delete_delete
          | by apply delete_insert_ne | symmetry; by apply delete_insert_ne
          | by apply insert_insert_ne ].
Qed.

Lemma destroy_values_perm l1 l2 st :
  l1 ≡ₚ l2 → destroy_values l1 st = destroy_values l2 st.
Proof.
  intros Hperm. revert st.
  induction Hperm as [|x l1 l2 _ IH|x y l|l1 l2 l3 _ IH1 _ IH2]; intros st.
  - done.
  - simpl. unfold mbind, M_bind.
    destruct (removed_blob_from_peer_cb x st) as [[[] st']|]; [apply IH | done].
  - pose proof (removed_blob_from_peer_cb_comm y x st) as Hcomm.
    simpl. unfold mbind, M_bind in *.
    destruct (removed_blob_from_peer_cb y st) as [[[] sy]|],
      (removed_blob_from_peer_cb x st) as [[[] sx]|]; simpl in *.
    + by rewrite Hcomm.
    + by rewrite Hcomm.
    + by rewrite <- Hcomm.
    + done.
  - by rewrite IH1.
Qed.

(** X15. Peer death does not depend on the order in which the hash table
    hands its values to the destroy notify: destroying the handles of a
    peer in any order gives what [peer_free] gives. *)
Lemma peer_free_any_order peer l st :
  l ≡ₚ (map_to_list (peer_blobs peer)).*2 →
  destroy_values l st = peer_free peer st.
Proof. apply destroy_values_perm. Qed.

(** ** Issuing a handle is defined *)

Lemma add_blob_to_peer_eq nm blob st peer st1 b :
  lookup_peer nm st = Some (peer, st1) → mem st !! blob = Some b →
  ref_count b ≠ G_MAXINT →
  add_blob_to_peer nm blob st
  = (match peer_blobs peer !! next_blob_id peer with
     | Some old => removed_blob_from_peer_cb old
     | None => mret tt
     end ;; mret (next_blob_id peer)) (entry_added peer blob b st1).
Proof.
  intros Hpeer Hb Hrc. unfold add_blob_to_peer.
  destruct (lookup_peer_mem _ _ _ _ Hpeer) as (Hmem & _).
  rewrite (bind_eq _ _ _ _ _ Hpeer).
  unfold store_peer at 1. rewrite (bind_eq _ _ _ tt _ eq_refl).
  erewrite (bind_eq (deref blob) _ _ b); [|apply deref_Some; split; [|done]].
  2:{ simpl. by rewrite Hmem. }
  rewrite (bind_eq _ _ _ tt _ eq_refl).
  erewrite (bind_eq (blob_ref blob) _ _ blob).
  2:{ apply blob_ref_Some. exists b. split; [simpl; by rewrite Hmem|].
      split; [done|]. split; [done|]. reflexivity. }
  unfold store_peer. rewrite (bind_eq _ _ _ tt _ eq_refl). simpl.
  f_equal. unfold entry_added, set_peers, set_mem, set_apparent. simpl.
  by rewrite insert_insert_eq.
Qed.

Lemma add_blob_to_peer_total R A nm blob b :
  (∀ x, list_weight (points_at x) A ≤ list_weight (points_at x) R) →
  always (λ st, owns (blob :: R) A st ∧ mem st !! blob = Some b
               ∧ ref_count b ≠ G_MAXINT)
    (add_blob_to_peer nm blob) (λ _ st', owns (blob :: R) A st').
Proof.
  intros Htok st (Ho & Hb & Hrc).
  destruct (owns_lookup_peer _ _ nm st Ho)
    as (peer & st1 & Hpeer & Ho1 & Hn & Hname).
  destruct (lookup_peer_mem _ _ _ _ Hpeer) as (Hmem & _).
  rewrite (add_blob_to_peer_eq _ _ _ _ _ _ Hpeer Hb Hrc).
  rewrite <- Hmem, <- Hname in *.
  pose proof (owns_entry_added R A st1 peer blob b Ho1 Htok Hn Hb) as Ho2.
  destruct (peer_blobs peer !! next_blob_id peer) as [old|]; simpl in Ho2.
  - destruct (owns_removed_blob_from_peer_cb (blob :: R) A old _ Ho2)
      as ([] & st' & Hcb & Ho3).
    exists (next_blob_id peer), st'. split; [|done].
    by rewrite (bind_eq _ _ _ _ _ Hcb).
  - by exists (next_blob_id peer), (entry_added peer blob b st1).
Qed.

(** ** The handlers keep the state consistent *)

Lemma consistent_main_init : consistent main_init.
Proof.
  split; simpl; done.
Qed.

Section HandlerProperties.

Variable sha256_hex : list byte → string.

Lemma consistent_make_unique sender parameters fd_list dup :
  whenever consistent (make_unique sha256_hex sender parameters fd_list dup)
    (λ _ st', consistent st').
Proof.
  intros st r st' Ho Hmu. unfold make_unique in Hmu.
  destruct (negb _); [by apply ret_Some in Hmu as [_ ->]|].
  destruct (steal_one_fd_from_list _ _) as [[f|]|];
    [|by apply ret_Some in Hmu as [_ ->]|done].
  destruct (seals_missing _); [by apply ret_Some in Hmu as [_ ->]|].
  destruct (checksum_from_fd _ _) as [[] checksum];
    [|by apply ret_Some in Hmu as [_ ->]].
  apply bind_Some in Hmu as (found & st1 & Hfound & Hmu).
  pose proof (owns_lookup_blob [] [] _ _ _ _ Ho Hfound) as Ho1.
  destruct found as [blob|]; destruct Ho1 as [Ho1 Hsha].
  - apply bind_Some in Hmu as (b & ? & [Hb ->]%deref_Some & Hmu).
    destruct (g_unix_fd_list_append _ _ _) as [fd_handle ret_fds].
    case_bool_decide.
    + apply bind_Some in Hmu as ([] & st2 & Hunref & [_ ->]%ret_Some).
      by apply (always_whenever _ _ _ (owns_blob_unref [] [] blob (λ _, Z.le_refl _))
                  _ _ _ Ho1 Hunref).
    + apply bind_Some in Hmu as (blob_id & st2 & Hadd & Hmu).
      apply bind_Some in Hmu as ([] & st3 & Hunref & [_ ->]%ret_Some).
      pose proof (owns_add_blob_to_peer [] [] sender blob (λ _, Z.le_refl _)
                    _ _ _ Ho1 Hadd) as Ho2.
      by apply (always_whenever _ _ _ (owns_blob_unref [] [] blob (λ _, Z.le_refl _))
                  _ _ _ Ho2 Hunref).
  - apply bind_Some in Hmu as (blob & st2 & Hnew & Hmu).
    apply bind_Some in Hmu as (blob_id & st3 & Hadd & Hmu).
    apply bind_Some in Hmu as ([] & st4 & Hunref & [_ ->]%ret_Some).
    pose proof (owns_blob_new [] [] _ _ _ _ _ (conj Ho1 Hsha) Hnew) as Ho2.
    pose proof (owns_add_blob_to_peer [] [] sender blob (λ _, Z.le_refl _)
                  _ _ _ Ho2 Hadd) as Ho3.
    by apply (always_whenever _ _ _ (owns_blob_unref [] [] blob (λ _, Z.le_refl _))
                _ _ _ Ho3 Hunref).
Qed.

Lemma consistent_forget sender parameters :
  always consistent (forget sender parameters) (λ _ st', consistent st').
Proof.
  unfold forget. destruct (negb _); [by apply always_ret|].
  eapply always_bind; [apply owns_remove_blob_from_peer|].
  intros []. by apply always_ret.
Qed.

Lemma consistent_method_call sender interface_name method_name parameters
    fd_list dup :
  whenever consistent
    (method_call sha256_hex sender interface_name method_name parameters
       fd_list dup)
    (λ _ st', consistent st').
Proof.
  unfold method_call. case_bool_decide; [apply consistent_make_unique|].
  case_bool_decide; [apply always_whenever, consistent_forget|].
  by apply whenever_ret.
Qed.

Lemma consistent_remove_peer nm :
  always consistent (g_hash_table_remove_peer nm)
    (λ found st', consistent st' ∧ peers st' !! nm = None).
Proof.
  intros st Ho. unfold g_hash_table_remove_peer.
  destruct (peers st !! nm) as [peer|] eqn:Hn.
  - pose proof (owns_delete_peer _ _ _ _ _ Ho Hn) as Ho1.
    destruct (owns_destroy_values [] [] _ _ Ho1) as ([] & st' & Hd & Ho2).
    exists true, st'. split.
    + rewrite (bind_eq _ _ _ st st eq_refl), Hn.
      rewrite (bind_eq _ _ _ tt _ eq_refl).
      unfold peer_free. by rewrite (bind_eq _ _ _ tt _ Hd).
    + split; [done|]. rewrite (destroy_values_peers _ _ _ _ Hd). simpl.
      apply lookup_delete_eq.
  - exists false, st. split; [|done].
    by rewrite (bind_eq _ _ _ st st eq_refl), Hn.
Qed.

Lemma consistent_name_owner_changed nm from to :
  always consistent (name_owner_changed nm from to) (λ _ st', consistent st').
Proof.
  unfold name_owner_changed. destruct (_ && _); [|by apply always_ret].
  eapply always_bind; [apply consistent_remove_peer|].
  intros found. apply always_ret. by intros st [Ho _].
Qed.

Lemma consistent_dispatch e :
  whenever consistent (dispatch sha256_hex e) (λ _ st', consistent st').
Proof.
  destruct e; simpl.
  - eapply whenever_bind; [apply consistent_method_call|].
    intros r. by apply whenever_ret.
  - eapply whenever_bind; [apply always_whenever, consistent_name_owner_changed|].
    intros []. by apply whenever_ret.
Qed.

Lemma consistent_run evs :
  whenever consistent (run sha256_hex evs) (λ _ st', consistent st').
Proof.
  induction evs as [|e evs IH]; simpl.
  - by apply whenever_ret.
  - eapply whenever_bind; [apply consistent_dispatch|].
    intros r. eapply whenever_bind; [apply IH|].
    intros rs. by apply whenever_ret.
Qed.

Lemma reachable_consistent st : reachable sha256_hex st → consistent st.
Proof.
  intros (evs & rs & Hrun).
  exact (consistent_run evs _ _ _ consistent_main_init Hrun).
Qed.

End HandlerProperties.

(** ** Bytes counted: the store against the handle entries *)

(** The store and the [blobs] table list the same blobs. *)
Lemma table_weight_reindex (t : gmap string addr) (m : gmap addr Blob) :
  (∀ k a, t !! k = Some a → ∃ b, m !! a = Some b ∧ sha256 b = k) →
  (∀ a b, m !! a = Some b → t !! sha256 b = Some a) →
  table_weight (len_at m) t = table_weight len m.
Proof.
  revert m. induction t as [|k a t Hk IH] using map_ind; intros m Ht Hm.
  - assert (m = ∅) as ->.
    { apply map_empty. intros a. destruct (m !! a) as [b|] eqn:Ha; [|done].
      specialize (Hm a b Ha). by rewrite lookup_empty in Hm. }
    by rewrite !table_weight_empty.
  - destruct (Ht k a) as (b & Hb & Hsha); [apply lookup_insert_eq|].
    rewrite table_weight_insert by done.
    rewrite (len_at_lookup _ _ _ Hb).
    pose proof (table_weight_delete len m a b Hb) as Hdel.
    rewrite <- (IH (delete a m)) in Hdel.
    + rewrite (table_weight_ext (len_at m) (len_at (delete a m))); [lia|].
      intros k' a' Hk'. unfold len_at. rewrite lookup_delete_ne; [done|].
      intros <-. destruct (Ht k' a) as (b' & Hb' & Hsha').
      { rewrite lookup_insert_ne; [done | congruence]. }
      congruence.
    + intros k' a' Hk'. destruct (Ht k' a') as (b' & Hb' & Hsha').
      { rewrite lookup_insert_ne; [done | congruence]. }
      exists b'. split; [|done]. rewrite lookup_delete_ne; [done|].
      intros <-. congruence.
    + intros a' b'. destruct (decide (a' = a)) as [->|Hne].
      { by rewrite lookup_delete_eq. }
      rewrite lookup_delete_ne by done. intros Hb'.
      pose proof (Hm a' b' Hb') as Hk'.
      rewrite lookup_insert_ne in Hk'; [done|].
      intros Heq. rewrite <- Heq, lookup_insert_eq in Hk'. congruence.
Qed.

Lemma consistent_live_len st :
  consistent st → live_len st = table_weight len (mem st).
Proof.
  intros Ho. apply table_weight_reindex.
  - apply (owns_table _ _ _ Ho).
  - apply (owns_mem _ _ _ Ho).
Qed.

(** All handle entries, as a list of the pointers they hold. *)
Lemma list_weight_concat_map {V} (w : addr → Z) (f : V → list addr) l :
  list_weight w (concat (map f l)) = list_weight (λ v, list_weight w (f v)) l.
Proof.
  induction l as [|v l IH]; simpl; [done|].
  by rewrite list_weight_app, IH.
Qed.

Lemma entries_weight_list w ps :
  entries_weight w ps =
  list_weight w
    (concat (map (λ peer, (map_to_list (peer_blobs peer)).*2)
               (map_to_list ps).*2)).
Proof.
  unfold entries_weight. rewrite table_weight_values, list_weight_concat_map.
  apply list_weight_ext. intros peer _. apply table_weight_values.
Qed.

Lemma list_weight_split (w : addr → Z) (a : addr) l :
  list_weight w l =
  list_weight (points_at a) l * w a
  + list_weight w (filter (λ x, x ≠ a) l).
Proof.
  induction l as [|x l IH]; simpl; [done|].
  destruct (decide (x = a)) as [->|Hne].
  - rewrite filter_cons_False by naive_solver.
    rewrite points_at_same. lia.
  - rewrite filter_cons_True by done. simpl.
    rewrite (points_at_other a x) by done. lia.
Qed.

(** Every blob of the store occurs in the list: the store holds no more
    bytes than the list counts. *)
Lemma store_le_references (m : gmap addr Blob) (l : list addr) :
  (∀ a b, m !! a = Some b → 0 ≤ len b ∧ 0 < list_weight (points_at a) l) →
  0 ≤ table_weight len m ≤ list_weight (len_at m) l.
Proof.
  revert l. induction m as [|a b m Ha IH] using map_ind; intros l Hm.
  - rewrite table_weight_empty. split; [done|].
    apply list_weight_nonneg. intros x. unfold len_at. by rewrite lookup_empty.
  - rewrite table_weight_insert by done.
    destruct (Hm a b) as [Hlen Hcount]; [apply lookup_insert_eq|].
    rewrite (list_weight_split _ a l).
    rewrite (len_at_lookup _ _ _ (lookup_insert_eq _ _ _)).
    rewrite (list_weight_ext (len_at (<[a:=b]> m)) (len_at m)
               (filter (λ x, x ≠ a) l)).
    2:{ intros x [Hx _]%list_elem_of_filter. unfold len_at.
        by rewrite lookup_insert_ne. }
    destruct (IH (filter (λ x, x ≠ a) l)) as [IH1 IH2]; [|nia].
    intros a' b' Ha'. assert (a' ≠ a) as Hne by congruence.
    destruct (Hm a' b') as [Hlen' Hcount'].
    { by rewrite lookup_insert_ne. }
    split; [done|].
    rewrite (list_weight_split _ a l), (points_at_other a' a) in Hcount'
      by congruence. lia.
Qed.

Lemma consistent_store_le_entries st :
  consistent st → 0 ≤ table_weight len (mem st) ≤ entries_len st.
Proof.
  intros Ho. unfold entries_len. rewrite entries_weight_list.
  apply store_le_references. intros a b Hb.
  destruct (owns_pos _ _ _ Ho _ _ Hb) as [Hrc Hlen]. split; [done|].
  rewrite <- entries_weight_list.
  pose proof (owns_rc _ _ _ Ho a) as Hcount.
  rewrite (rc_at_lookup _ _ _ Hb) in Hcount. simpl in Hcount.
  unfold handle_count in Hcount. lia.
Qed.

(** ** Hashing the descriptor *)

Lemma BUFSIZE_pos : (0 < BUFSIZE)%nat.
Proof. unfold BUFSIZE. lia. Qed.

Lemma take_drop_length {A} (n : nat) (l : list A) :
  take n l ++ drop (length (take n l)) l = l.
Proof.
  rewrite length_take. destruct (decide (n ≤ length l)%nat).
  - rewrite Nat.min_l by done. apply take_drop.
  - rewrite Nat.min_r by lia. rewrite take_ge, drop_ge by lia.
    apply app_nil_r.
Qed.

Lemma pread_readable f count offset :
  readable f = true → (offset ≤ length (f_data f))%nat →
  pread f count offset = Some (take count (drop offset (f_data f))).
Proof.
  unfold readable, pread. destruct (f_fault f) as [e|]; [|done].
  intros He%bool_decide_eq_true Hoff.
  rewrite bool_decide_eq_false_2 by lia.
  by rewrite (take_ge (f_data f) e) by lia.
Qed.

Lemma checksum_loop_ok f fuel checksum offset :
  readable f = true → (offset ≤ length (f_data f))%nat →
  (length (f_data f) - offset < fuel)%nat →
  checksum_loop fuel checksum f offset
  = (true, checksum ++ drop offset (f_data f)).
Proof.
  intros Hr. revert checksum offset.
  induction fuel as [|fuel IH]; intros checksum offset Hoff Hfuel; [lia|].
  cbn [checksum_loop]. rewrite pread_readable by done.
  pose proof BUFSIZE_pos as Hbuf.
  set (buf := take BUFSIZE (drop offset (f_data f))).
  assert (length buf = BUFSIZE `min` (length (f_data f) - offset))%nat as Hlen.
  { subst buf. by rewrite length_take, length_drop. }
  case_bool_decide as Hpos.
  - rewrite IH by lia. unfold g_checksum_update. rewrite <- app_assoc.
    f_equal. f_equal. rewrite <- drop_drop.
    subst buf. apply take_drop_length.
  - rewrite drop_ge by lia. by rewrite app_nil_r.
Qed.

Lemma checksum_loop_fault f e fuel checksum offset :
  f_fault f = Some e → (e ≤ length (f_data f))%nat →
  (offset ≤ e)%nat → (e - offset < fuel)%nat →
  (checksum_loop fuel checksum f offset).1 = false.
Proof.
  intros He Hle. revert checksum offset.
  induction fuel as [|fuel IH]; intros checksum offset Hoff Hfuel; [lia|].
  cbn [checksum_loop]. unfold pread. rewrite He.
  case_bool_decide as Hend; [done|].
  pose proof BUFSIZE_pos as Hbuf.
  set (buf := take BUFSIZE (drop offset (take e (f_data f)))).
  assert (length buf = BUFSIZE `min` (e - offset))%nat as Hlen.
  { subst buf. rewrite length_take, length_drop, length_take. lia. }
  rewrite bool_decide_eq_true_2 by lia. apply IH; lia.
Qed.

Lemma checksum_from_fd_readable f checksum :
  readable f = true →
  checksum_from_fd checksum f = (true, checksum ++ f_data f).
Proof.
  intros Hr. unfold checksum_from_fd. rewrite checksum_loop_ok; [done..|lia|lia].
Qed.

Lemma checksum_from_fd_fault f checksum :
  readable f = false → (checksum_from_fd checksum f).1 = false.
Proof.
  unfold readable, checksum_from_fd.
  destruct (f_fault f) as [e|] eqn:He; [|done].
  intros Hr%bool_decide_eq_false.
  apply (checksum_loop_fault f e); [done|lia..].
Qed.

Lemma checksum_from_fd_spec f checksum :
  checksum_from_fd checksum f
  = if readable f then (true, checksum ++ f_data f)
    else (false, (checksum_from_fd checksum f).2).
Proof.
  destruct (readable f) eqn:Hr.
  - by apply checksum_from_fd_readable.
  - pose proof (checksum_from_fd_fault f checksum Hr).
    by destruct (checksum_from_fd checksum f) as [[] ?].
Qed.

(** The test of the seals, in terms of the bits [F_GET_SEALS] answers. *)
Lemma seals_missing_spec f :
  - 2 ^ 31 ≤ f_get_seals f < 2 ^ 31 →
  seals_missing (fcntl_F_GET_SEALS f) = false ↔ all_sealed f.
Proof.
  intros Hrange. unfold seals_missing, all_sealed, fcntl_F_GET_SEALS, guint_wrap.
  assert (Z.land (f_get_seals f mod 2 ^ 32) ALL_SEALS
          = Z.land (f_get_seals f) ALL_SEALS) as ->.
  { change ALL_SEALS with (Z.ones 4). rewrite !Z.land_ones by lia.
    apply Z.mod_mod_divide. exists (2 ^ 28). lia. }
  rewrite orb_false_iff, negb_false_iff, !bool_decide_eq_false,
    bool_decide_eq_true.
  change ((-1) mod 2 ^ 32) with (2 ^ 32 - 1).
  split; intros [Herr Hbits]; (split; [|done]).
  - intros Heq. apply Herr. by rewrite Heq.
  - intros Heq. apply Herr.
    destruct (decide (0 ≤ f_get_seals f)).
    + rewrite Z.mod_small in Heq by lia. lia.
    + assert (f_get_seals f mod 2 ^ 32 = f_get_seals f + 2 ^ 32) as Hm.
      { symmetry. apply (Z.mod_unique _ _ (-1)); lia. }
      lia.
Qed.

(** ** MakeUnique: the requests it refuses *)

Lemma steal_one_fd_from_list_nonneg fd_list handle :
  0 ≤ handle →
  steal_one_fd_from_list fd_list handle = Some (passed_fd fd_list handle).
Proof.
  intros Hh. unfold steal_one_fd_from_list, passed_fd.
  destruct fd_list as [fds|]; [|done].
  rewrite (bool_decide_eq_true_2 (0 ≤ handle)) by done.
  case_bool_decide.
  - by rewrite lookup_ge_None_2 by lia.
  - by rewrite bool_decide_eq_false_2 by lia.
Qed.

Lemma steal_one_fd_from_list_negative {A} (fds : list A) handle :
  handle < 0 → steal_one_fd_from_list (Some fds) handle = None.
Proof.
  intros Hh. unfold steal_one_fd_from_list.
  rewrite bool_decide_eq_false_2 by lia.
  by rewrite bool_decide_eq_true_2 by lia.
Qed.

(** For an index that is not negative, MakeUnique answers invalid-args
    exactly on the bad requests, and leaves the state alone when it
    does. *)
Lemma make_unique_invalid_args sha256_hex st sender parameters fd_list dup :
  0 ≤ g_variant_get_h parameters →
  (∀ f, passed_fd fd_list (g_variant_get_h parameters) = Some f →
        - 2 ^ 31 ≤ f_get_seals f < 2 ^ 31) →
  (bad_request parameters fd_list →
   ∃ message,
     make_unique sha256_hex sender parameters fd_list dup st
     = Some (return_error G_DBUS_ERROR_INVALID_ARGS message, st))
  ∧ (∀ message st',
       make_unique sha256_hex sender parameters fd_list dup st
       = Some (return_error G_DBUS_ERROR_INVALID_ARGS message, st') →
       bad_request parameters fd_list ∧ st' = st).
Proof.
  intros Hh Hseals. unfold make_unique, bad_request, g_variant_is_of_type.
  rewrite (steal_one_fd_from_list_nonneg _ _ Hh).
  case_bool_decide as Hty; simpl.
  2:{ split; [by eexists|]. intros message st' Hr.
      apply ret_Some in Hr as [_ ->]. split; [by left | done]. }
  destruct (passed_fd fd_list (g_variant_get_h parameters)) as [f|] eqn:Hf.
  2:{ split; [by eexists|]. intros message st' Hr.
      apply ret_Some in Hr as [_ ->]. split; [by right | done]. }
  pose proof (seals_missing_spec f (Hseals f eq_refl)) as Hsealed.
  destruct (seals_missing (fcntl_F_GET_SEALS f)) eqn:Hmissing.
  { split; [by eexists|]. intros message st' Hr.
    apply ret_Some in Hr as [_ ->]. split; [|done]. right. left.
    intros Hs%Hsealed. done. }
  rewrite checksum_from_fd_spec. destruct (readable f) eqn:Hr.
  2:{ split; [by eexists|]. intros message st' Hret.
      apply ret_Some in Hret as [_ ->]. split; [|done]. right. by right. }
  split.
  { intros [?|[Hs|?]]; [done| |done]. destruct Hs. by apply Hsealed. }
  intros message st' Hmu. exfalso.
  apply bind_Some in Hmu as (found & st1 & _ & Hmu).
  destruct found as [blob|].
  - apply bind_Some in Hmu as (b & st2 & _ & Hmu).
    destruct (g_unix_fd_list_append _ _ _) as [fd_handle ret_fds].
    case_bool_decide.
    + by apply bind_Some in Hmu as (? & ? & _ & [? _]%ret_Some).
    + apply bind_Some in Hmu as (? & ? & _ & Hmu).
      by apply bind_Some in Hmu as (? & ? & _ & [? _]%ret_Some).
  - apply bind_Some in Hmu as (? & ? & _ & Hmu).
    apply bind_Some in Hmu as (? & ? & _ & Hmu).
    by apply bind_Some in Hmu as (? & ? & _ & [? _]%ret_Some).
Qed.

(** ** Dropping references *)

Lemma released_refl st : released st st.
Proof. split; [done|]. intros a b' Hb. by exists b'. Qed.

Lemma released_trans st1 st2 st3 :
  released st1 st2 → released st2 st3 → released st1 st3.
Proof.
  intros [Hp1 Hm1] [Hp2 Hm2]. split; [congruence|].
  intros a b3 Hb3. destruct (Hm2 a b3 Hb3) as (b2 & Hb2 & ? & ? & ?).
  destruct (Hm1 a b2 Hb2) as (b1 & Hb1 & ? & ? & ?).
  exists b1. repeat split; congruence.
Qed.

Lemma blob_unref_released blob st u st' :
  blob_unref blob st = Some (u, st') → released st st'.
Proof.
  intros (b & Hb & _ & ->)%blob_unref_Some. split; [by case_bool_decide|].
  intros a b'. case_bool_decide; simpl.
  - destruct (decide (a = blob)) as [->|Hne].
    + by rewrite lookup_delete_eq.
    + rewrite lookup_delete_ne by done. intros Ha. by exists b'.
  - destruct (decide (a = blob)) as [->|Hne].
    + rewrite lookup_insert_eq. intros [= <-]. by exists b.
    + rewrite lookup_insert_ne by done. intros Ha. by exists b'.
Qed.

Lemma removed_blob_from_peer_cb_released blob st u st' :
  removed_blob_from_peer_cb blob st = Some (u, st') → released st st'.
Proof.
  intros (b & _ & Hu)%removed_blob_from_peer_cb_Some.
  by apply blob_unref_released in Hu.
Qed.

Lemma destroy_values_released l st u st' :
  destroy_values l st = Some (u, st') → released st st'.
Proof.
  revert st. induction l as [|blob l IH]; simpl; intros st Hd.
  - apply ret_Some in Hd as [_ ->]. apply released_refl.
  - apply bind_Some in Hd as ([] & st1 & Hcb & Hd).
    eapply released_trans; [|by apply IH].
    by apply removed_blob_from_peer_cb_released in Hcb.
Qed.

Lemma set_ref_count_eq b b' :
  sha256 b' = sha256 b → len b' = len b → fd b' = fd b →
  b' = set_ref_count (ref_count b') b.
Proof. destruct b, b'. simpl. by intros -> -> ->. Qed.

(** ** Reachable states *)

Lemma run_snoc sha256_hex evs e s0 rs st r st' :
  run sha256_hex evs s0 = Some (rs, st) →
  dispatch sha256_hex e st = Some (r, st') →
  run sha256_hex (evs ++ [e]) s0 = Some (rs ++ [r], st').
Proof.
  revert s0 rs. induction evs as [|e0 evs IH]; simpl; intros s0 rs Hrun He.
  - apply ret_Some in Hrun as [-> ->].
    rewrite (bind_eq _ _ _ _ _ He). by rewrite (bind_eq _ _ _ [] st' eq_refl).
  - apply bind_Some in Hrun as (r0 & s1 & He0 & Hrun).
    apply bind_Some in Hrun as (rs0 & s2 & Hrun & [-> ->]%ret_Some).
    rewrite (bind_eq _ _ _ _ _ He0).
    by rewrite (bind_eq _ _ _ _ _ (IH _ _ Hrun He)).
Qed.

Lemma reachable_step sha256_hex e st r st' :
  reachable sha256_hex st → dispatch sha256_hex e st = Some (r, st') →
  reachable sha256_hex st'.
Proof.
  intros (evs & rs & Hrun) He. exists (evs ++ [e]), (rs ++ [r]).
  by apply (run_snoc _ _ _ _ _ st).
Qed.

(** ** MakeUnique: the requests it serves *)

Lemma lookup_blob_Some sha st found st' :
  lookup_blob sha st = Some (found, st') ↔
  match blobs st !! sha with
  | Some blob =>
      found = Some blob
      ∧ ∃ b, mem st !! blob = Some b ∧ ref_count b ≠ G_MAXINT
             ∧ st' = set_mem (<[blob := set_ref_count (ref_count b + 1) b]>
                                (mem st)) st
  | None => found = None ∧ st' = st
  end.
Proof.
  unfold lookup_blob. rewrite bind_Some. split.
  - intros (st0 & st1 & [= <- <-] & Hl).
    destruct (blobs st !! sha) as [blob|].
    + apply bind_Some in Hl as (x & st2 & Href & [-> ->]%ret_Some).
      apply blob_ref_Some in Href as (b & Hb & Hrc & -> & ->). eauto.
    + by apply ret_Some in Hl as [-> ->].
  - intros Hl. exists st, st. split; [done|].
    destruct (blobs st !! sha) as [blob|].
    + destruct Hl as (-> & b & Hb & Hrc & ->).
      assert (blob_ref blob st
              = Some (blob, set_mem (<[blob := set_ref_count (ref_count b + 1) b]>
                                       (mem st)) st)) as Href.
      { apply blob_ref_Some. eauto. }
      by rewrite (bind_eq _ _ _ _ _ Href).
    + by destruct Hl as [-> ->].
Qed.

(** What happened when MakeUnique answered with a value. *)
Lemma make_unique_value_inv sha256_hex sender parameters fd_list dup st v fds st' :
  make_unique sha256_hex sender parameters fd_list dup st
  = Some (return_value v fds, st') →
  ∃ f found s0 blob arr s1 blob_id s2,
    steal_one_fd_from_list fd_list (g_variant_get_h parameters) = Some (Some f)
    ∧ readable f = true
    ∧ lookup_blob (sha256_hex (f_data f)) st = Some (found, s0)
    ∧ match found with
      | Some canonical =>
          blob = canonical ∧ s1 = s0 ∧ arr = [0]
          ∧ ∃ fd', dup = Some fd' ∧ fds = [fd']
      | None =>
          blob_new f (sha256_hex (f_data f)) s0 = Some (blob, s1)
          ∧ arr = [] ∧ fds = []
      end
    ∧ add_blob_to_peer sender blob s1 = Some (blob_id, s2)
    ∧ blob_unref blob s2 = Some (tt, st')
    ∧ v = V_tuple [V_ah arr; V_u blob_id].
Proof.
  unfold make_unique. intros Hmu.
  destruct (negb _); [by apply ret_Some in Hmu as [? _]|].
  destruct (steal_one_fd_from_list _ _) as [[f|]|];
    [|by apply ret_Some in Hmu as [? _]|done].
  destruct (seals_missing _); [by apply ret_Some in Hmu as [? _]|].
  rewrite checksum_from_fd_spec in Hmu. destruct (readable f) eqn:Hr;
    [|by apply ret_Some in Hmu as [? _]].
  cbv beta iota zeta delta [g_checksum_get_string g_checksum_new app] in Hmu.
  apply bind_Some in Hmu as (found & s0 & Hfound & Hmu).
  exists f, found, s0. destruct found as [blob|].
  - apply bind_Some in Hmu as (b & ? & [Hb ->]%deref_Some & Hmu).
    destruct dup as [fd'|].
    + cbv beta iota zeta delta [g_unix_fd_list_append length app] in Hmu.
      change (Z.of_nat 0) with 0 in Hmu.
      rewrite bool_decide_eq_false_2 in Hmu by lia.
      apply bind_Some in Hmu as (blob_id & s2 & Hadd & Hmu).
      apply bind_Some in Hmu as ([] & s3 & Hunref & [[= -> ->] ->]%ret_Some).
      exists blob, [0], s0, blob_id, s2.
      do 3 (split; [done|]). split; [do 3 (split; [done|]); by exists fd'|]. done.
    + cbv beta iota zeta delta [g_unix_fd_list_append] in Hmu.
      rewrite bool_decide_eq_true_2 in Hmu by lia.
      by apply bind_Some in Hmu as (? & ? & _ & [? _]%ret_Some).
  - apply bind_Some in Hmu as (blob & s1 & Hnew & Hmu).
    apply bind_Some in Hmu as (blob_id & s2 & Hadd & Hmu).
    apply bind_Some in Hmu as ([] & s3 & Hunref & [[= -> ->] ->]%ret_Some).
    exists blob, [], s1, blob_id, s2. do 3 (split; [done|]). done.
Qed.

(** Issuing a handle, dropping the caller's reference and forgetting
    the handle amounts to dropping the caller's reference; only the
    peer's handle counter remembers. *)
Lemma handle_round_trip s1 sender blob b peer stP s3 :
  lookup_peer sender s1 = Some (peer, stP) → name peer = sender →
  mem s1 !! blob = Some b →
  peer_blobs peer !! next_blob_id peer = None →
  0 < ref_count b →
  blob_unref blob (entry_added peer blob b stP) = Some (tt, s3) →
  ∃ s4,
    forget sender (V_tuple [V_u (next_blob_id peer)]) s3
    = Some (return_value (V_tuple []) [], s4)
    ∧ peers s4 = <[sender := mkPeer sender (guint32_wrap (next_blob_id peer + 1))
                               (peer_blobs peer)]> (peers s1)
    ∧ apparent_blob_size s4
      = gsize_wrap (gsize_wrap (apparent_blob_size s1 + len b) - len b)
    ∧ if decide (ref_count b = 1)
      then mem s4 = delete blob (mem s1)
           ∧ blobs s4 = delete (sha256 b) (blobs s1)
           ∧ real_blob_size s4 = gsize_wrap (real_blob_size s1 - len b)
      else mem s4 = <[blob := set_ref_count (ref_count b - 1) b]> (mem s1)
           ∧ blobs s4 = blobs s1
           ∧ real_blob_size s4 = real_blob_size s1.
Proof.
  intros Hpeer Hname Hb Hfresh Hrc Hunref. subst sender.
  destruct (lookup_peer_mem _ _ _ _ Hpeer) as (Hmem & Hblobs & Hreal & Happ).
  assert (∀ X, <[name peer := X]> (peers stP)
               = <[name peer := X]> (peers s1)) as Hpeers.
  { intros X. apply lookup_peer_Some in Hpeer as [[_ ->]|(_ & _ & ->)];
      [done|]. simpl. apply insert_insert_eq. }
  apply blob_unref_Some in Hunref as (b2 & Hb2 & _ & ->).
  unfold entry_added in Hb2. simpl in Hb2. rewrite lookup_insert_eq in Hb2.
  injection Hb2 as <-. simpl.
  rewrite bool_decide_eq_false_2 by lia.
  replace (ref_count b + 1 - 1) with (ref_count b) by lia.
  set (peer2 := mkPeer (name peer) (guint32_wrap (next_blob_id peer + 1))
                  (<[next_blob_id peer := blob]> (peer_blobs peer))).
  set (s3 := set_mem _ _).
  set (stR := set_peers
                (<[name peer2 := mkPeer (name peer2) (next_blob_id peer2)
                      (delete (next_blob_id peer) (peer_blobs peer2))]>
                   (peers s3)) s3).
  set (b3 := set_ref_count (ref_count b) (set_ref_count (ref_count b + 1) b)).
  assert (mem stR !! blob = Some b3) as Hb3.
  { subst stR s3. unfold entry_added. simpl. apply lookup_insert_eq. }
  set (stA := set_apparent (gsize_wrap (apparent_blob_size stR - len b3)) stR).
  set (s4 := if bool_decide (ref_count b3 - 1 = 0)
             then set_mem (delete blob (mem stA))
                    (set_blobs (delete (sha256 b3) (blobs stA))
                       (set_real (gsize_wrap (real_blob_size stA - len b3)) stA))
             else set_mem (<[blob := set_ref_count (ref_count b3 - 1) b3]>
                             (mem stA)) stA).
  assert (remove_blob_from_peer (name peer) (next_blob_id peer) s3
          = Some (tt, s4)) as Hrem.
  { apply remove_blob_from_peer_Some. exists peer2, s3. split.
    - apply lookup_peer_Some. left. split; [|done].
      subst s3. unfold entry_added. simpl. apply lookup_insert_eq.
    - subst peer2. simpl. rewrite lookup_insert_eq.
      apply removed_blob_from_peer_cb_Some. exists b3. split; [done|].
      apply blob_unref_Some. exists b3. split; [done|].
      split; [subst b3; simpl; unfold G_MININT; lia | done]. }
  exists s4. split.
  { unfold forget. simpl. by rewrite (bind_eq _ _ _ _ _ Hrem). }
  assert (peers s4
          = <[name peer := mkPeer (name peer)
                             (guint32_wrap (next_blob_id peer + 1))
                             (peer_blobs peer)]> (peers s1)) as Hp4.
  { rewrite <- Hpeers.
    assert (peers s4 = peers stA) as -> by (subst s4; by case_bool_decide).
    subst stA stR s3 peer2. unfold entry_added. simpl.
    rewrite insert_insert_eq, delete_insert_eq.
    by rewrite (delete_id _ _ Hfresh). }
  assert (apparent_blob_size s4
          = gsize_wrap (gsize_wrap (apparent_blob_size s1 + len b) - len b))
    as Ha4.
  { assert (apparent_blob_size s4 = apparent_blob_size stA) as ->
      by (subst s4; by case_bool_decide).
    subst stA stR s3. unfold entry_added. simpl. by rewrite Happ. }
  split; [done|]. split; [done|].
  subst s4. subst b3. simpl.
  destruct (decide (ref_count b = 1)) as [H1|H1].
  - rewrite bool_decide_eq_true_2 by lia. simpl.
    subst stA stR s3. unfold entry_added. simpl.
    rewrite !delete_insert_eq. by rewrite Hmem, Hblobs, Hreal.
  - rewrite bool_decide_eq_false_2 by lia. simpl.
    subst stA stR s3. unfold entry_added. simpl.
    rewrite !insert_insert_eq. by rewrite Hmem, Hblobs, Hreal.
Qed.

Lemma gsize_round_trip x l :
  0 ≤ x < 2 ^ 64 → gsize_wrap (gsize_wrap (x + l) - l) = x.
Proof.
  intros Hx. unfold gsize_wrap. rewrite Zminus_mod_idemp_l.
  replace (x + l - l) with x by lia. by apply Z.mod_small.
Qed.

Lemma set_ref_count_back b d :
  set_ref_count (ref_count b + d - d) (set_ref_count (ref_count b + d) b) = b.
Proof.
  destruct b. unfold set_ref_count. simpl. f_equal. lia.
Qed.

(** What a served submission leaves: the bytes have one blob in the
    store, and the sender a new handle to it. *)
Lemma make_unique_value_post sha256_hex st sender parameters fd_list dup v fds
    st' f :
  consistent st →
  steal_one_fd_from_list fd_list (g_variant_get_h parameters) = Some (Some f) →
  make_unique sha256_hex sender parameters fd_list dup st
  = Some (return_value v fds, st') →
  let peer := default (mkPeer sender 1 ∅) (peers st !! sender) in
  ∃ arr blob b',
    v = V_tuple [V_ah arr; V_u (next_blob_id peer)]
    ∧ consistent st'
    ∧ blobs st' !! sha256_hex (f_data f) = Some blob
    ∧ mem st' !! blob = Some b' ∧ sha256 b' = sha256_hex (f_data f)
    ∧ peers st'
      = <[sender := mkPeer sender (guint32_wrap (next_blob_id peer + 1))
                      (<[next_blob_id peer := blob]> (peer_blobs peer))]>
          (peers st)
    ∧ (∀ a, blobs st !! sha256_hex (f_data f) = Some a →
            a = blob ∧ arr = [0] ∧ ∃ fd', dup = Some fd' ∧ fds = [fd'])
    ∧ (blobs st !! sha256_hex (f_data f) = None → arr = [] ∧ fds = []).
Proof.
  intros Ho Hf Hmu peer0.
  pose proof (consistent_make_unique _ _ _ _ _ _ _ _ Ho Hmu) as Ho'.
  apply make_unique_value_inv in Hmu
    as (f' & found & s0 & blob & arr & s1 & blob_id & s2 & Hf' & _ & Hfound
        & Hs1 & Hadd & Hunref & ->).
  rewrite Hf in Hf'. injection Hf' as <-.
  apply add_blob_to_peer_Some in Hadd
    as (peer & stP & b & Hpeer & Hb & _ & -> & Hs2).
  apply lookup_blob_Some in Hfound.
  (* the blob the handle is issued for carries the digest of the bytes *)
  assert (peers s1 = peers st ∧ sha256 b = sha256_hex (f_data f)
          ∧ (∀ a, blobs st !! sha256_hex (f_data f) = Some a →
                  a = blob ∧ arr = [0] ∧ ∃ fd', dup = Some fd' ∧ fds = [fd'])
          ∧ (blobs st !! sha256_hex (f_data f) = None → arr = [] ∧ fds = []))
    as (Hpeers & Hsha & Hhit & Hmiss).
  { destruct (blobs st !! sha256_hex (f_data f)) as [canonical|] eqn:Hc.
    - destruct Hfound as (-> & b0 & Hb0 & _ & ->).
      destruct Hs1 as (-> & -> & -> & Hdup). simpl in Hb.
      rewrite lookup_insert_eq in Hb. injection Hb as <-. simpl.
      destruct (owns_table _ _ _ Ho _ _ Hc) as (b0' & Hb0' & Hsha).
      split; [done|]. split; [congruence|]. split; [|done].
      by intros a [= <-].
    - destruct Hfound as [-> ->]. destruct Hs1 as (Hnew & -> & ->).
      unfold blob_new in Hnew. injection Hnew as <- <-. simpl in Hb.
      rewrite lookup_insert_eq in Hb. by injection Hb as <-. }
  assert (peer = peer0 ∧ name peer = sender) as [-> Hname].
  { subst peer0.
    apply lookup_peer_Some in Hpeer as [[Hp _]|(Hp & -> & _)];
      rewrite Hpeers in Hp; rewrite Hp; simpl; [|done].
    split; [done|]. by apply (owns_names _ _ _ Ho). }
  (* after the entry is added, only references are dropped *)
  assert (released (entry_added peer0 blob b stP) st') as [Hp' Hm'].
  { apply (released_trans _ s2); [|by apply blob_unref_released in Hunref].
    destruct (peer_blobs peer0 !! next_blob_id peer0) as [old|].
    - by apply removed_blob_from_peer_cb_released in Hs2.
    - subst s2. apply released_refl. }
  assert (peers st'
          = <[sender := mkPeer sender (guint32_wrap (next_blob_id peer0 + 1))
                          (<[next_blob_id peer0 := blob]> (peer_blobs peer0))]>
              (peers st)) as Hpeers'.
  { rewrite Hp'. unfold entry_added. simpl. rewrite Hname, <- Hpeers.
    apply lookup_peer_Some in Hpeer as [[_ ->]|(_ & _ & ->)]; [done|].
    simpl. apply insert_insert_eq. }
  destruct (owns_entry _ _ st' sender
              (mkPeer sender (guint32_wrap (next_blob_id peer0 + 1))
                 (<[next_blob_id peer0 := blob]> (peer_blobs peer0)))
              (next_blob_id peer0) blob Ho') as [b' Hb'].
  { rewrite Hpeers'. apply lookup_insert_eq. }
  { simpl. apply lookup_insert_eq. }
  destruct (Hm' blob b' Hb') as (bm & Hbm & Hsha' & _).
  unfold entry_added in Hbm. simpl in Hbm. rewrite lookup_insert_eq in Hbm.
  injection Hbm as <-. simpl in Hsha'.
  exists arr, blob, b'. split; [done|]. split; [done|].
  split; [|split; [done|]; split; [congruence|]; done].
  rewrite <- Hsha, <- Hsha'. by apply (owns_mem _ _ _ Ho').
Qed.

(** A well-formed submission is served: the call is defined and answers
    with a value, as long as the reference count has room for the two
    references the handler takes and, for bytes already in the store,
    the canonical descriptor can be duplicated. *)
Lemma make_unique_serves sha256_hex st sender parameters fd_list dup f :
  consistent st →
  g_variant_get_type_string parameters = "(h)" →
  0 ≤ g_variant_get_h parameters →
  passed_fd fd_list (g_variant_get_h parameters) = Some f →
  - 2 ^ 31 ≤ f_get_seals f < 2 ^ 31 → all_sealed f → readable f = true →
  (∀ blob b, blobs st !! sha256_hex (f_data f) = Some blob →
             mem st !! blob = Some b →
             ref_count b + 2 ≤ G_MAXINT ∧ is_Some dup) →
  ∃ v fds st',
    make_unique sha256_hex sender parameters fd_list dup st
    = Some (return_value v fds, st').
Proof.
  intros Ho Hty Hh Hf Hrange Hsealed Hr Hroom. unfold make_unique.
  unfold g_variant_is_of_type. rewrite bool_decide_eq_true_2 by done.
  cbn [negb]. rewrite (steal_one_fd_from_list_nonneg _ _ Hh), Hf.
  apply (seals_missing_spec f Hrange) in Hsealed. rewrite Hsealed.
  rewrite (checksum_from_fd_readable _ _ Hr).
  cbv beta iota zeta delta [g_checksum_get_string g_checksum_new app].
  destruct (blobs st !! sha256_hex (f_data f)) as [blob|] eqn:Hsha.
  - destruct (owns_table _ _ _ Ho _ _ Hsha) as (b & Hb & _).
    destruct (Hroom blob b eq_refl Hb) as [Hrc [fd' ->]].
    set (s0 := set_mem (<[blob := set_ref_count (ref_count b + 1) b]> (mem st)) st).
    assert (lookup_blob (sha256_hex (f_data f)) st = Some (Some blob, s0))
      as Hfound.
    { apply lookup_blob_Some. rewrite Hsha. split; [done|]. exists b.
      split; [done|]. split; [lia | done]. }
    destruct (owns_lookup_blob [] [] _ _ _ _ Ho Hfound) as [Ho0 _].
    assert (mem s0 !! blob = Some (set_ref_count (ref_count b + 1) b)) as Hb0
      by apply lookup_insert_eq.
    destruct (add_blob_to_peer_total [] [] sender blob
                (set_ref_count (ref_count b + 1) b) (λ _, Z.le_refl _) s0)
      as (blob_id & s1 & Hadd & Ho1).
    { split; [done|]. split; [done|]. simpl. lia. }
    destruct (owns_blob_unref [] [] blob (λ _, Z.le_refl _) s1 Ho1)
      as ([] & s2 & Hunref & _).
    eexists _, _, s2. rewrite (bind_eq _ _ _ _ _ Hfound).
    erewrite (bind_eq (deref blob)); [|by apply deref_Some].
    cbv beta iota zeta delta [g_unix_fd_list_append length app].
    change (Z.of_nat 0) with 0. rewrite bool_decide_eq_false_2 by lia.
    rewrite (bind_eq _ _ _ _ _ Hadd). by rewrite (bind_eq _ _ _ _ _ Hunref).
  - assert (lookup_blob (sha256_hex (f_data f)) st = Some (None, st)) as Hfound.
    { apply lookup_blob_Some. by rewrite Hsha. }
    destruct (blob_new f (sha256_hex (f_data f)) st) as [[blob s0]|] eqn:Hnew;
      [|done].
    pose proof (owns_blob_new [] [] _ _ _ _ _ (conj Ho Hsha) Hnew) as Ho0.
    destruct (owns_held _ _ _ blob Ho0) as [b Hb]; [left|].
    assert (ref_count b = 1) as Hone.
    { unfold blob_new in Hnew. injection Hnew as <- <-. simpl in Hb.
      rewrite lookup_insert_eq in Hb. by injection Hb as <-. }
    destruct (add_blob_to_peer_total [] [] sender blob b (λ _, Z.le_refl _) s0)
      as (blob_id & s1 & Hadd & Ho1).
    { split; [done|]. split; [done|]. rewrite Hone. done. }
    destruct (owns_blob_unref [] [] blob (λ _, Z.le_refl _) s1 Ho1)
      as ([] & s2 & Hunref & _).
    eexists _, _, s2. rewrite (bind_eq _ _ _ _ _ Hfound).
    rewrite (bind_eq _ _ _ _ _ Hnew), (bind_eq _ _ _ _ _ Hadd).
    by rewrite (bind_eq _ _ _ _ _ Hunref).
Qed.

(** A call that is answered with an error, of either kind, leaves the
    state as it was. *)
Lemma make_unique_error_keeps_state sha256_hex st sender parameters fd_list
    dup code message st' :
  consistent st →
  make_unique sha256_hex sender parameters fd_list dup st
  = Some (return_error code message, st') →
  st' = st.
Proof.
  intros Ho Hmu. unfold make_unique in Hmu.
  destruct (negb _); [by apply ret_Some in Hmu as [_ ->]|].
  destruct (steal_one_fd_from_list _ _) as [[f|]|];
    [|by apply ret_Some in Hmu as [_ ->]|done].
  destruct (seals_missing _); [by apply ret_Some in Hmu as [_ ->]|].
  destruct (checksum_from_fd _ _) as [[] checksum];
    [|by apply ret_Some in Hmu as [_ ->]].
  apply bind_Some in Hmu as (found & s0 & Hfound & Hmu).
  apply lookup_blob_Some in Hfound. destruct found as [blob|].
  - destruct (blobs st !! _) as [canonical|]; [|by destruct Hfound].
    destruct Hfound as ([= ->] & b & Hb & _ & ->).
    apply bind_Some in Hmu as (b1 & ? & [Hb1 ->]%deref_Some & Hmu).
    destruct (g_unix_fd_list_append _ _ _) as [fd_handle ret_fds].
    case_bool_decide.
    + apply bind_Some in Hmu as ([] & s1 & Hunref & [_ ->]%ret_Some).
      apply blob_unref_Some in Hunref as (b2 & Hb2 & _ & ->).
      simpl in Hb2. rewrite lookup_insert_eq in Hb2. injection Hb2 as <-.
      destruct (owns_pos _ _ _ Ho _ _ Hb) as [Hpos _]. simpl.
      rewrite bool_decide_eq_false_2 by lia.
      destruct st as [real apparent m t ps]. unfold set_mem. simpl in *.
      f_equal. rewrite insert_insert_eq, set_ref_count_back.
      by apply insert_id.
    + apply bind_Some in Hmu as (? & ? & _ & Hmu).
      by apply bind_Some in Hmu as (? & ? & _ & [? _]%ret_Some).
  - apply bind_Some in Hmu as (? & ? & _ & Hmu).
    apply bind_Some in Hmu as (? & ? & _ & Hmu).
    by apply bind_Some in Hmu as (? & ? & _ & [? _]%ret_Some).
Qed.

Lemma guint32_next_differs h : guint32_wrap (h + 1) ≠ h.
Proof.
  unfold guint32_wrap. intros Heq.
  pose proof (Z.mod_pos_bound (h + 1) (2 ^ 32)) as Hb.
  destruct (decide (h + 1 < 2 ^ 32)).
  - rewrite Z.mod_small in Heq by lia. lia.
  - assert (h + 1 = 2 ^ 32) as Hh by lia.
    rewrite Hh, Z.mod_same in Heq by lia. lia.
Qed.

(** A served submission and the Forget of its handle undo each other,
    up to the sender's peer record and its handle counter. *)
Lemma submission_undone sha256_hex st sender parameters fd_list dup v fds st1 :
  consistent st →
  (∀ peer, peers st !! sender = Some peer →
           peer_blobs peer !! next_blob_id peer = None) →
  make_unique sha256_hex sender parameters fd_list dup st
  = Some (return_value v fds, st1) →
  ∃ arr blob_id st2,
    v = V_tuple [V_ah arr; V_u blob_id]
    ∧ forget sender (V_tuple [V_u blob_id]) st1
      = Some (return_value (V_tuple []) [], st2)
    ∧ real_blob_size st2 = real_blob_size st
    ∧ apparent_blob_size st2 = apparent_blob_size st
    ∧ mem st2 = mem st ∧ blobs st2 = blobs st
    ∧ peers st2
      = <[sender :=
            let peer := default (mkPeer sender 1 ∅) (peers st !! sender) in
            mkPeer sender (guint32_wrap (next_blob_id peer + 1))
              (peer_blobs peer)]> (peers st).
Proof.
  intros Ho Hfresh Hmu.
  apply make_unique_value_inv in Hmu
    as (f & found & s0 & blob & arr & s1 & blob_id & s2 & _ & _ & Hfound
        & Hs1 & Hadd & Hunref & ->).
  apply add_blob_to_peer_Some in Hadd
    as (peer & stP & b & Hpeer & Hb & _ & -> & Hs2).
  apply lookup_blob_Some in Hfound.
  assert (peers s1 = peers st ∧ apparent_blob_size s1 = apparent_blob_size st)
    as [Hpeers Happ].
  { destruct (blobs st !! sha256_hex (f_data f)) as [canonical|].
    - destruct Hfound as (-> & b0 & _ & _ & ->).
      by destruct Hs1 as (_ & -> & _).
    - destruct Hfound as [-> ->]. destruct Hs1 as (Hnew & _).
      unfold blob_new in Hnew. by injection Hnew as <- <-. }
  assert (peers st !! sender = Some peer ∧ name peer = sender
          ∨ peers st !! sender = None ∧ peer = mkPeer sender 1 ∅) as Hwho.
  { apply lookup_peer_Some in Hpeer as [[Hp _]|(Hp & -> & _)];
      rewrite Hpeers in Hp; [left|by right].
    split; [done|]. by apply (owns_names _ _ _ Ho). }
  assert (name peer = sender) as Hname by (by destruct Hwho as [[_ ?]|[_ ->]]).
  assert (peer_blobs peer !! next_blob_id peer = None) as Hnone.
  { destruct Hwho as [[Hp _]|[_ ->]]; [by apply Hfresh | done]. }
  assert (default (mkPeer sender 1 ∅) (peers st !! sender) = peer) as Hdef.
  { by destruct Hwho as [[-> _]|[-> ->]]. }
  rewrite Hnone in Hs2. subst s2.
  pose proof (owns_real _ _ _ Ho) as Hreal.
  pose proof (owns_apparent _ _ _ Ho) as Happarent.
  pose proof (gsize_wrap_range (table_weight len (mem st))) as Hreal_range.
  pose proof (gsize_wrap_range
                (entries_len st + list_weight (len_at (mem st)) [])) as Happ_range.
  rewrite <- Hreal in Hreal_range. rewrite <- Happarent in Happ_range.
  destruct (blobs st !! sha256_hex (f_data f)) as [canonical|] eqn:Hsha.
  - (* the bytes were in the store *)
    destruct Hfound as (-> & b0 & Hb0 & _ & ->).
    destruct Hs1 as (-> & -> & _). simpl in Hb.
    rewrite lookup_insert_eq in Hb. injection Hb as <-.
    destruct (owns_pos _ _ _ Ho _ _ Hb0) as [Hpos _].
    destruct (handle_round_trip _ sender canonical _ peer stP st1 Hpeer Hname
                (lookup_insert_eq _ _ _) Hnone) as (st2 & Hforget & Hp2 & Ha2 & Hrest);
      [simpl; lia | done |].
    simpl in Hrest. rewrite decide_False in Hrest by lia.
    destruct Hrest as (Hm2 & Hb2 & Hr2). simpl in Ha2, Hp2.
    exists arr, (next_blob_id peer), st2.
    split; [done|]. split; [done|]. split; [done|].
    split; [by rewrite Ha2, gsize_round_trip|].
    split.
    { rewrite Hm2, insert_insert_eq.
      rewrite set_ref_count_back. by apply insert_id. }
    split; [done|]. by rewrite Hp2, Hdef.
  - (* new bytes *)
    destruct Hfound as [-> ->]. destruct Hs1 as (Hnew & -> & _).
    unfold blob_new in Hnew. injection Hnew as <- <-. simpl in Hb.
    rewrite lookup_insert_eq in Hb. injection Hb as <-.
    set (blob := fresh (dom (mem st))) in *.
    set (l := match fstat f with Some sz => gsize_wrap sz | None => 0 end) in *.
    set (s1 := set_blobs _ _) in *.
    assert (mem s1 !! blob
            = Some (mkBlob (sha256_hex (f_data f)) l (f_fd f) 1)) as Hb1.
    { subst s1. simpl. apply lookup_insert_eq. }
    destruct (handle_round_trip s1 sender blob _ peer stP st1 Hpeer Hname Hb1
                Hnone) as (st2 & Hforget & Hp2 & Ha2 & Hrest);
      [simpl; lia | done |].
    simpl in Hrest. destruct Hrest as (Hm2 & Hb2 & Hr2).
    simpl in Ha2, Hp2.
    exists [], (next_blob_id peer), st2.
    split; [done|]. split; [done|].
    split; [by rewrite Hr2, gsize_round_trip|].
    split; [by rewrite Ha2, gsize_round_trip|].
    split.
    { rewrite Hm2, delete_insert_eq. apply delete_id, fresh_blob_absent. }
    split.
    { by rewrite Hb2, delete_insert_eq, delete_id. }
    by rewrite Hp2, Hdef.
Qed.

(** * The claims of the specification *)

Section Claims.

Variable sha256_hex : list byte → string.

(** C2. After any sequence of MakeUnique, Forget and peer-death events,
    the reference count of every blob of the store equals the number of
    peer-handle entries, over all peers, that point at it. *)
Theorem refcount_is_handle_count st k blob b :
  reachable sha256_hex st →
  blobs st !! k = Some blob → mem st !! blob = Some b →
  ref_count b = handle_count blob (peers st).
Proof.
  intros Ho%reachable_consistent _ Hb.
  pose proof (owns_rc _ _ _ Ho blob) as Hrc.
  rewrite (rc_at_lookup _ _ _ Hb) in Hrc. simpl in Hrc. lia.
Qed.

(** C4, as the code has it.  After any sequence of events that leaves
    the bytes the handle entries stand for below 2^64, what the 64-bit
    [gsize] counter can hold, the real-size counter is the sum of [len]
    over the blobs of the store, the apparent-size counter the sum of
    [len] over the handle entries of all peers, and the apparent size is
    at least the real size. *)
Theorem size_counters st :
  reachable sha256_hex st → entries_len st < 2 ^ 64 →
  real_blob_size st = live_len st
  ∧ apparent_blob_size st = entries_len st
  ∧ real_blob_size st ≤ apparent_blob_size st.
Proof.
  intros Ho%reachable_consistent Hfit.
  pose proof (consistent_store_le_entries st Ho) as [Hlo Hle].
  rewrite (consistent_live_len st Ho).
  rewrite (owns_real _ _ _ Ho), (owns_apparent _ _ _ Ho). simpl.
  unfold gsize_wrap. rewrite Z.add_0_r.
  rewrite !Z.mod_small by lia. lia.
Qed.

(** C10. A method whose name is neither MakeUnique nor Forget is answered
    with the unknown-method error and the state is left as it is. *)
Theorem unknown_method_rejected st sender interface_name method_name
    parameters fd_list dup :
  method_name ≠ "MakeUnique" → method_name ≠ "Forget" →
  method_call sha256_hex sender interface_name method_name parameters
    fd_list dup st
  = Some (return_error G_DBUS_ERROR_UNKNOWN_METHOD
            ("Method " +:+ method_name +:+ " is not implemented on interface "
               +:+ interface_name), st).
Proof.
  intros Hm Hf. unfold method_call.
  by rewrite !bool_decide_eq_false_2 by done.
Qed.

(** C6, as the code has it.  A Forget whose handle has no entry in the
    sender's table is answered with the empty tuple; the blob store, the
    size counters and every handle table stay as they are; a sender the
    daemon has not seen before gets an empty peer record. *)
Theorem forget_unknown_handle st sender h :
  (∀ peer, peers st !! sender = Some peer → peer_blobs peer !! h = None) →
  forget sender (V_tuple [V_u h]) st
  = Some (return_value (V_tuple []) [],
          match peers st !! sender with
          | Some _ => st
          | None => set_peers (<[sender := mkPeer sender 1 ∅]> (peers st)) st
          end).
Proof.
  intros Hh. unfold forget. simpl.
  unfold remove_blob_from_peer, lookup_peer, mbind, M_bind.
  destruct (peers st !! sender) as [peer|] eqn:Hs.
  - by rewrite (Hh peer eq_refl).
  - simpl. by rewrite lookup_empty.
Qed.

(** C5 fails on the code for a negative index.  There is no descriptor
    at index -1, yet MakeUnique does not answer invalid-args: the index
    passes the bound check of [steal_one_fd_from_list], which then reads
    [fds[-1]], outside the array. *)
Theorem make_unique_negative_index st sender f fds dup :
  bad_request (V_tuple [V_h (-1)]) (Some (f :: fds))
  ∧ make_unique sha256_hex sender (V_tuple [V_h (-1)]) (Some (f :: fds)) dup st
    = None.
Proof.
  split; [by right|]. unfold make_unique.
  change (g_variant_get_h (V_tuple [V_h (-1)])) with (-1).
  by rewrite steal_one_fd_from_list_negative.
Qed.

(** C7. When NameOwnerChanged reports that the unique name of a peer
    (it starts with a colon, the old owner is the name, the new owner is
    empty) has gone, the peer's record is removed and with it every
    handle it was issued; each blob loses as many references as the peer
    had handles to it, and the apparent size the bytes those handles
    stood for; a blob whose count reaches zero is destroyed, every other
    blob stays in the store. *)
Theorem peer_death_releases st nm peer :
  reachable sha256_hex st → starts_with_colon nm = true →
  peers st !! nm = Some peer →
  ∃ st',
    name_owner_changed nm nm "" st = Some (tt, st')
    ∧ reachable sha256_hex st'
    ∧ peers st' = delete nm (peers st) ∧ peers st' !! nm = None
    ∧ apparent_blob_size st'
      = gsize_wrap (apparent_blob_size st
                    - table_weight (len_at (mem st)) (peer_blobs peer))
    ∧ ∀ a b, mem st !! a = Some b →
        let held := table_weight (points_at a) (peer_blobs peer) in
        if decide (ref_count b = held)
        then mem st' !! a = None ∧ blobs st' !! sha256 b = None
        else mem st' !! a = Some (set_ref_count (ref_count b - held) b)
             ∧ blobs st' !! sha256 b = Some a.
Proof.
  intros Hreach Hcolon Hn. pose proof (reachable_consistent _ _ Hreach) as Ho.
  pose proof (owns_delete_peer _ _ _ _ _ Ho Hn) as Ho1.
  destruct (owns_destroy_values [] [] _ _ Ho1) as ([] & st' & Hd & Ho').
  pose proof (destroy_values_released _ _ _ _ Hd) as [Hpeers Hmem].
  simpl in Hpeers, Hmem.
  assert (name_owner_changed nm nm "" st = Some (tt, st')) as Hrun.
  { assert (g_hash_table_remove_peer nm st = Some (true, st')) as Hrem.
    { unfold g_hash_table_remove_peer.
      rewrite (bind_eq _ _ _ st st eq_refl), Hn.
      rewrite (bind_eq _ _ _ tt _ eq_refl).
      unfold peer_free. by rewrite (bind_eq _ _ _ tt _ Hd). }
    unfold name_owner_changed. rewrite Hcolon.
    rewrite !bool_decide_eq_true_2 by done. cbn [andb].
    by rewrite (bind_eq _ _ _ _ _ Hrem). }
  assert (∀ a, rc_at (mem st') a
               = rc_at (mem st) a - table_weight (points_at a) (peer_blobs peer))
    as Hrc.
  { intros a. rewrite (owns_rc _ _ _ Ho'), (owns_rc _ _ _ Ho), Hpeers. simpl.
    unfold handle_count. rewrite (entries_weight_delete _ _ _ _ Hn). lia. }
  exists st'. split; [done|]. split.
  { apply (reachable_step _ (ev_name_owner_changed nm nm "") st None);
      [done|]. simpl. by rewrite (bind_eq _ _ _ tt st' Hrun). }
  split; [done|]. split; [rewrite Hpeers; apply lookup_delete_eq|]. split.
  - rewrite (owns_apparent _ _ _ Ho'), (owns_apparent _ _ _ Ho). simpl.
    unfold entries_len, gsize_wrap. rewrite Zminus_mod_idemp_l, !Z.add_0_r.
    f_equal. rewrite Hpeers.
    rewrite <- (entries_weight_delete _ _ _ _ Hn).
    apply entries_weight_ext. intros n p i a Hp Hi.
    rewrite <- Hpeers in Hp.
    destruct (owns_entry _ _ _ _ _ _ _ Ho' Hp Hi) as [b' Hb'].
    destruct (Hmem a b' Hb') as (b & Hb & _ & Hlen & _).
    by rewrite (len_at_lookup _ _ _ Hb'), (len_at_lookup _ _ _ Hb).
  - intros a b Hb held. specialize (Hrc a).
    rewrite (rc_at_lookup _ _ _ Hb) in Hrc. fold held in Hrc.
    destruct (mem st' !! a) as [b'|] eqn:Hb'.
    + destruct (Hmem a b' Hb') as (b0 & Hb0 & Hsha & Hlen & Hfd).
      assert (b0 = b) as -> by congruence.
      rewrite (rc_at_lookup _ _ _ Hb') in Hrc.
      destruct (owns_pos _ _ _ Ho' _ _ Hb') as [Hpos _].
      rewrite decide_False by lia. split.
      * f_equal. rewrite <- Hrc. by apply set_ref_count_eq.
      * rewrite <- Hsha. by apply (owns_mem _ _ _ Ho').
    + rewrite (rc_at_absent _ _ Hb') in Hrc.
      rewrite decide_True by lia. split; [done|].
      destruct (blobs st' !! sha256 b) as [a'|] eqn:Ha'; [|done].
      destruct (owns_table _ _ _ Ho' _ _ Ha') as (b' & Hb'' & Hsha).
      destruct (Hmem a' b' Hb'') as (b0 & Hb0 & Hsha0 & _).
      pose proof (owns_mem _ _ _ Ho _ _ Hb0) as H1.
      pose proof (owns_mem _ _ _ Ho _ _ Hb) as H2.
      assert (a' = a) as -> by congruence. congruence.
Qed.

(** C3, as the code has it.  A submission followed by Forget of the
    handle it returned leaves the blob store, the size counters and the
    handle tables as they were before the submission, whether or not
    somebody else holds the same bytes; what remains is the sender's peer
    record (created if it was not there) with its handle counter advanced
    by one.  (The handle is taken to be new in the sender's table, as it
    is until the 32-bit counter wraps.) *)
Theorem submit_then_forget st sender parameters fd_list dup v fds st1 :
  reachable sha256_hex st →
  (∀ peer, peers st !! sender = Some peer →
           peer_blobs peer !! next_blob_id peer = None) →
  make_unique sha256_hex sender parameters fd_list dup st
  = Some (return_value v fds, st1) →
  ∃ arr blob_id st2,
    v = V_tuple [V_ah arr; V_u blob_id]
    ∧ forget sender (V_tuple [V_u blob_id]) st1
      = Some (return_value (V_tuple []) [], st2)
    ∧ real_blob_size st2 = real_blob_size st
    ∧ apparent_blob_size st2 = apparent_blob_size st
    ∧ mem st2 = mem st ∧ blobs st2 = blobs st
    ∧ peers st2
      = <[sender :=
            let peer := default (mkPeer sender 1 ∅) (peers st !! sender) in
            mkPeer sender (guint32_wrap (next_blob_id peer + 1))
              (peer_blobs peer)]> (peers st).
Proof.
  intros Ho%reachable_consistent Hfresh Hmu.
  by apply (submission_undone sha256_hex st sender parameters fd_list dup v fds
              st1).
Qed.

(** C8. When the same bytes are submitted twice, by one peer or by two,
    the second submission finds the blob of the first: the store holds
    exactly one blob for the bytes, and the two replies carry two
    handles, two entries of the senders' tables that point at that blob.
    A handle is a number of its peer's table: the two numbers differ
    when the sender is the same, and they belong to two tables when the
    senders differ.  (The second reply also carries the one descriptor
    that [g_unix_fd_list_append] made for it.) *)
Theorem same_bytes_one_blob st sender1 sender2 parameters1 parameters2
    fd_list1 fd_list2 dup1 dup2 f1 f2 v1 v2 fds1 fds2 st1 st2 :
  reachable sha256_hex st →
  steal_one_fd_from_list fd_list1 (g_variant_get_h parameters1)
  = Some (Some f1) →
  steal_one_fd_from_list fd_list2 (g_variant_get_h parameters2)
  = Some (Some f2) →
  f_data f1 = f_data f2 →
  make_unique sha256_hex sender1 parameters1 fd_list1 dup1 st
  = Some (return_value v1 fds1, st1) →
  make_unique sha256_hex sender2 parameters2 fd_list2 dup2 st1
  = Some (return_value v2 fds2, st2) →
  ∃ arr1 h1 h2 fd' blob b peer1 peer2,
    v1 = V_tuple [V_ah arr1; V_u h1]
    ∧ v2 = V_tuple [V_ah [0]; V_u h2] ∧ dup2 = Some fd' ∧ fds2 = [fd']
    ∧ blobs st2 !! sha256_hex (f_data f1) = Some blob
    ∧ mem st2 !! blob = Some b
    ∧ (∀ a b', mem st2 !! a = Some b' →
               sha256 b' = sha256_hex (f_data f1) → a = blob)
    ∧ peers st2 !! sender1 = Some peer1 ∧ peer_blobs peer1 !! h1 = Some blob
    ∧ peers st2 !! sender2 = Some peer2 ∧ peer_blobs peer2 !! h2 = Some blob
    ∧ (sender1 = sender2 → h1 ≠ h2).
Proof.
  intros Ho%reachable_consistent Hf1 Hf2 Hdata Hmu1 Hmu2.
  destruct (make_unique_value_post _ _ _ _ _ _ _ _ _ _ Ho Hf1 Hmu1)
    as (arr1 & blob & b1 & -> & Ho1 & Hblob1 & Hb1 & Hsha1 & Hpeers1 & _).
  destruct (make_unique_value_post _ _ _ _ _ _ _ _ _ _ Ho1 Hf2 Hmu2)
    as (arr2 & blob2 & b2 & -> & Ho2 & Hblob2 & Hb2 & Hsha2 & Hpeers2
        & Hhit & _).
  rewrite <- Hdata in *.
  destruct (Hhit blob Hblob1) as (<- & -> & fd' & -> & ->).
  set (peer := default (mkPeer sender1 1 ∅) (peers st !! sender1)) in *.
  set (p1 := mkPeer sender1 (guint32_wrap (next_blob_id peer + 1))
               (<[next_blob_id peer := blob]> (peer_blobs peer))) in *.
  set (peer' := default (mkPeer sender2 1 ∅) (peers st1 !! sender2)) in *.
  set (p2 := mkPeer sender2 (guint32_wrap (next_blob_id peer' + 1))
               (<[next_blob_id peer' := blob]> (peer_blobs peer'))) in *.
  assert (peers st2 !! sender2 = Some p2) as Hp2.
  { rewrite Hpeers2. apply lookup_insert_eq. }
  assert (∃ peer1, peers st2 !! sender1 = Some peer1
                   ∧ peer_blobs peer1 !! next_blob_id peer = Some blob
                   ∧ (sender1 = sender2 →
                      next_blob_id peer ≠ next_blob_id peer'))
    as (peer1 & Hp1 & Hh1 & Hne).
  { destruct (decide (sender1 = sender2)) as [Heq|Hneq].
    - exists p2. split; [by rewrite Heq|].
      assert (peer' = p1) as Hpeer'.
      { subst peer'. by rewrite Hpeers1, <- Heq, lookup_insert_eq. }
      assert (next_blob_id peer ≠ next_blob_id peer') as Hdiff.
      { rewrite Hpeer'. simpl. intros Heq'. symmetry in Heq'.
        by apply guint32_next_differs in Heq'. }
      split; [|done]. subst p2. simpl.
      rewrite lookup_insert_ne by done. rewrite Hpeer'. simpl.
      apply lookup_insert_eq.
    - exists p1. split; [|split; [apply lookup_insert_eq | done]].
      rewrite Hpeers2, lookup_insert_ne by done.
      rewrite Hpeers1. apply lookup_insert_eq. }
  exists arr1, (next_blob_id peer), (next_blob_id peer'), fd', blob, b2,
    peer1, p2.
  do 6 (split; [done|]). split.
  { intros a b' Ha Hsha. pose proof (owns_mem _ _ _ Ho2 _ _ Ha) as Hk.
    rewrite Hsha in Hk. congruence. }
  split; [done|]. split; [done|]. split; [done|].
  split; [apply lookup_insert_eq | done].
Qed.

End Claims.

(** The size counters are exact modulo 2^64 in every reachable state. *)
Lemma size_counters_wrap sha256_hex st :
  reachable sha256_hex st →
  real_blob_size st = gsize_wrap (live_len st)
  ∧ apparent_blob_size st = gsize_wrap (entries_len st).
Proof.
  intros Ho%reachable_consistent.
  rewrite (consistent_live_len st Ho).
  rewrite (owns_real _ _ _ Ho), (owns_apparent _ _ _ Ho). simpl.
  by rewrite Z.add_0_r.
Qed.

Lemma refcount_is_handle_count_witness :
  ref_count (mkBlob (sample_digest hello_world) 14 7 2)
  = handle_count 1%positive (peers (state_after two_submissions)).
Proof.
  apply (refcount_is_handle_count sample_digest _ (sample_digest hello_world)).
  - exists two_submissions, (replies_after two_submissions).
    vm_compute. reflexivity.
  - vm_compute. reflexivity.
  - vm_compute. reflexivity.
Defined.

Lemma size_counters_witness :
  real_blob_size (state_after two_submissions)
  = live_len (state_after two_submissions)
  ∧ apparent_blob_size (state_after two_submissions)
    = entries_len (state_after two_submissions)
  ∧ real_blob_size (state_after two_submissions)
    ≤ apparent_blob_size (state_after two_submissions).
Proof.
  apply (size_counters sample_digest).
  - exists two_submissions, (replies_after two_submissions).
    vm_compute. reflexivity.
  - vm_compute. reflexivity.
Defined.

Lemma unknown_method_rejected_witness :
  method_call sample_digest ":1.1" unique_interface "Ping" (V_tuple []) None
    None main_init
  = Some (return_error G_DBUS_ERROR_UNKNOWN_METHOD
            "Method Ping is not implemented on interface org.freedesktop.portal.Unique",
          main_init).
Proof.
  apply (unknown_method_rejected sample_digest main_init ":1.1"
           unique_interface "Ping"); discriminate.
Defined.

(** C6 as stated fails: a Forget from a sender the daemon has never seen
    is answered with the empty tuple, but leaves a peer record behind. *)
Lemma forget_unknown_sender_changes_state :
  peers main_init !! ":1.5" = None
  ∧ forget ":1.5" (V_tuple [V_u 1]) main_init
    = Some (return_value (V_tuple []) [],
            set_peers {[ ":1.5" := mkPeer ":1.5" 1 ∅ ]} main_init)
  ∧ set_peers {[ ":1.5" := mkPeer ":1.5" 1 ∅ ]} main_init ≠ main_init.
Proof.
  split; [done|]. split; [done|].
  intros Heq. apply (f_equal (λ st, peers st !! ":1.5")) in Heq.
  simpl in Heq. by rewrite lookup_singleton_eq in Heq.
Qed.

Lemma forget_unknown_handle_witness :
  forget ":1.1" (V_tuple [V_u 5]) (state_after two_submissions)
  = Some (return_value (V_tuple []) [],
          match peers (state_after two_submissions) !! ":1.1" with
          | Some _ => state_after two_submissions
          | None =>
              set_peers (<[":1.1" := mkPeer ":1.1" 1 ∅]>
                           (peers (state_after two_submissions)))
                (state_after two_submissions)
          end).
Proof.
  apply (forget_unknown_handle (state_after two_submissions) ":1.1" 5).
  intros peer Hpeer. vm_compute in Hpeer. injection Hpeer as <-.
  vm_compute. reflexivity.
Defined.

(** ** The client library *)

Lemma call_make_unique_result bus memfd id_out memfd_handle response r :
  Client.call_make_unique bus memfd id_out memfd_handle response = Some r →
  r.1.1.1 = false.
Proof.
  unfold Client.call_make_unique. destruct bus; simpl; [|by intros [= <-]].
  destruct (if bool_decide (memfd_handle ≠ -1) then _ else _)
    as [[[[result memfd'] id_out'] effects]|]; simpl; [|done].
  by intros [= <-].
Qed.

(** C1 fails on the code: [call_make_unique] answers FALSE whatever the
    bus replied, and [g_bytes_new_unique_sync] then returns the plain
    heap copy even though the daemon answered. *)
Theorem call_make_unique_always_false :
  (∀ bus memfd id_out memfd_handle response,
      match Client.call_make_unique bus memfd id_out memfd_handle response with
      | Some (result, _, _, _) => result = false
      | None => True
      end)
  ∧ Client.call_make_unique true 5 0 0 (Some hit_reply)
    = Some (false, 9, 2, [Client.sys_close 5])
  ∧ Client.g_bytes_new_unique_sync hello_world 5 true 0 (Some hit_reply) 4096
    = Some (Client.g_bytes_new hello_world,
            [Client.sys_close 5; Client.sys_close 9]).
Proof.
  split; [|split; vm_compute; reflexivity].
  intros bus memfd id_out memfd_handle response.
  destruct (Client.call_make_unique _ _ _ _ _)
    as [[[[result memfd'] id_out'] effects]|] eqn:Hcall; [|done].
  by apply call_make_unique_result in Hcall.
Qed.

(** What [make_unique_cb] does with a reply.  When the reply names a
    descriptor, the handler closes the other descriptors of the list,
    maps that one read-only, private and fixed at the address and length
    of the existing mapping, and aborts if the kernel answers another
    address; a reply with no handle in its array leaves the mapping
    alone; either way the handle of the reply is recorded on the mapping
    record, whose destruction sends Forget for it unless it is 0. *)
Lemma make_unique_cb_reply (d : Client.MappedData) (r : Client.Response)
    (mmap_ret : Z) :
  (∀ handle_v rest new_memfd,
      Client.r_handles r = handle_v :: rest →
      steal_one_fd_from_list (Client.r_fd_list r) handle_v
      = Some (Some new_memfd) →
      let closed :=
        Client.sys_close
          <$> steal_one_fd_from_list_closed (Client.r_fd_list r) handle_v in
      let remap :=
        Client.sys_mmap (Client.data d) (Client.len d) Client.PROT_READ
          (Z.lor Client.MAP_PRIVATE Client.MAP_FIXED) new_memfd 0 in
      (mmap_ret ≠ Client.data d →
       Client.make_unique_cb d (Some r) mmap_ret
       = Some (Client.aborted (closed ++ [remap])))
      ∧ (mmap_ret = Client.data d →
         Client.make_unique_cb d (Some r) mmap_ret
         = Some (Client.returned
                   (Client.mapped_data_unref (Client.set_id (Client.r_id r) d)).1
                   ((closed ++ [remap; Client.sys_close new_memfd])
                      ++ (Client.mapped_data_unref
                            (Client.set_id (Client.r_id r) d)).2))))
  ∧ (Client.r_handles r = [] →
     Client.make_unique_cb d (Some r) mmap_ret
     = Some (Client.returned
               (Client.mapped_data_unref (Client.set_id (Client.r_id r) d)).1
               (Client.mapped_data_unref (Client.set_id (Client.r_id r) d)).2))
  ∧ (∀ d', (Client.mapped_data_unref (Client.set_id (Client.r_id r) d)).1
           = Some d' →
           Client.id d' = Client.r_id r ∧ Client.data d' = Client.data d
           ∧ Client.len d' = Client.len d)
  ∧ (∀ d', Client.id d' = Client.r_id r →
           guint_wrap (Client.ref_count d' - 1) = 0 →
           Client.mapped_data_unref d'
           = (None,
              Client.sys_munmap (Client.data d') (Client.len d')
                :: if bool_decide (Client.r_id r ≠ 0)
                   then [Client.call_forget (Client.r_id r)] else [])).
Proof.
  split; [|split; [|split]].
  - intros handle_v rest new_memfd Hhandles Hstolen closed remap.
    unfold Client.make_unique_cb. rewrite Hhandles, Hstolen. simpl.
    split.
    + intros Hne. by rewrite bool_decide_eq_false_2.
    + intros ->. rewrite bool_decide_eq_true_2 by done.
      by destruct (Client.mapped_data_unref _).
  - intros Hnil. unfold Client.make_unique_cb. rewrite Hnil.
    by destruct (Client.mapped_data_unref _).
  - intros d'. unfold Client.mapped_data_unref. case_bool_decide; [done|].
    simpl. by intros [= <-].
  - intros d' Hid Hlast. unfold Client.mapped_data_unref.
    rewrite bool_decide_eq_true_2 by done. by rewrite Hid.
Qed.

(** ** Sample runs of the daemon *)

(** C3 as stated fails: after a submission and the Forget of its handle
    on a fresh daemon, with no other peer around, the peer table is not
    what it was: the sender's record stays, its counter at 2. *)
Lemma submit_then_forget_leaves_peer :
  run sample_digest submit_and_forget main_init
  = Some ([Some (return_value (V_tuple [V_ah []; V_u 1]) []);
           Some (return_value (V_tuple []) [])],
          set_peers {[ ":1.1" := mkPeer ":1.1" 2 ∅ ]} main_init)
  ∧ set_peers {[ ":1.1" := mkPeer ":1.1" 2 ∅ ]} main_init ≠ main_init.
Proof.
  split; [vm_compute; reflexivity|].
  intros Heq. apply (f_equal (λ st, peers st !! ":1.1")) in Heq.
  simpl in Heq. by rewrite lookup_singleton_eq in Heq.
Qed.

Lemma submit_then_forget_witness :
  ∃ st2,
    forget ":1.1" (V_tuple [V_u 2])
      (state_after (two_submissions ++ [third_submission]))
    = Some (return_value (V_tuple []) [], st2)
    ∧ real_blob_size st2 = real_blob_size (state_after two_submissions)
    ∧ apparent_blob_size st2 = apparent_blob_size (state_after two_submissions)
    ∧ mem st2 = mem (state_after two_submissions)
    ∧ blobs st2 = blobs (state_after two_submissions).
Proof.
  destruct (submit_then_forget sample_digest (state_after two_submissions)
              ":1.1" (V_tuple [V_h 0]) (Some [sealed_memfd 10 hello_world])
              (Some 11) (V_tuple [V_ah [0]; V_u 2]) [11]
              (state_after (two_submissions ++ [third_submission])))
    as (arr & blob_id & st2 & Hv & Hforget & Hr & Ha & Hm & Hb & _).
  - exists two_submissions, (replies_after two_submissions).
    vm_compute. reflexivity.
  - intros peer Hpeer. vm_compute in Hpeer. injection Hpeer as <-.
    vm_compute. reflexivity.
  - vm_compute. reflexivity.
  - injection Hv as <- <-. exists st2. repeat split; assumption.
Defined.

Lemma same_bytes_one_blob_witness :
  ∃ blob peer,
    blobs (state_after same_peer_twice) !! sample_digest hello_world = Some blob
    ∧ peers (state_after same_peer_twice) !! ":1.1" = Some peer
    ∧ peer_blobs peer !! 1 = Some blob ∧ peer_blobs peer !! 2 = Some blob.
Proof.
  destruct (same_bytes_one_blob sample_digest main_init ":1.1" ":1.1"
              (V_tuple [V_h 0]) (V_tuple [V_h 0])
              (Some [sealed_memfd 7 hello_world])
              (Some [sealed_memfd 10 hello_world]) None (Some 11)
              (sealed_memfd 7 hello_world) (sealed_memfd 10 hello_world)
              (V_tuple [V_ah []; V_u 1]) (V_tuple [V_ah [0]; V_u 2]) [] [11]
              (state_after one_submission) (state_after same_peer_twice))
    as (arr1 & h1 & h2 & fd' & blob & b & peer1 & peer2 & Hv1 & Hv2 & _ & _
        & Hblob & _ & _ & Hp1 & Hh1 & Hp2 & Hh2 & _).
  - by exists [], [].
  - reflexivity.
  - reflexivity.
  - reflexivity.
  - vm_compute. reflexivity.
  - vm_compute. reflexivity.
  - injection Hv1 as <- <-. injection Hv2 as <-.
    rewrite Hp1 in Hp2. injection Hp2 as <-.
    exists blob, peer1. repeat split; assumption.
Defined.

Lemma peer_death_releases_witness :
  ∃ st',
    name_owner_changed ":1.2" ":1.2" "" (state_after two_submissions)
    = Some (tt, st')
    ∧ peers st' !! ":1.2" = None
    ∧ apparent_blob_size st' = 14
    ∧ mem st' !! 1%positive
      = Some (mkBlob (sample_digest hello_world) 14 7 1).
Proof.
  destruct (peer_death_releases sample_digest (state_after two_submissions)
              ":1.2" (mkPeer ":1.2" 2 {[ 1 := 1%positive ]}))
    as (st' & Hrun & _ & _ & Hnone & Happ & Hblobs).
  - exists two_submissions, (replies_after two_submissions).
    vm_compute. reflexivity.
  - reflexivity.
  - vm_compute. reflexivity.
  - exists st'. split; [done|]. split; [done|]. split.
    + rewrite Happ. vm_compute. reflexivity.
    + specialize (Hblobs 1%positive (mkBlob (sample_digest hello_world) 14 7 2)).
      destruct Hblobs as [Hm _]; [vm_compute; reflexivity | exact Hm].
Defined.

(** * Further properties of the code *)

(** ** The store and the handle tables *)

Lemma table_weight_pos_entry `{Countable K} {V} (w : V → Z) (m : gmap K V) :
  (∀ v, 0 ≤ w v) → 0 < table_weight w m → ∃ k v, m !! k = Some v ∧ 0 < w v.
Proof.
  intros Hw. induction m as [|k v m Hk IH] using map_ind.
  - rewrite table_weight_empty. lia.
  - rewrite table_weight_insert by done. intros Hpos.
    destruct (decide (0 < w v)) as [Hv|Hv].
    + exists k, v. by rewrite lookup_insert_eq.
    + destruct IH as (k' & v' & Hk' & Hv'); [specialize (Hw v); lia|].
      exists k', v'. split; [|done]. rewrite lookup_insert_ne; [done|].
      intros ->. congruence.
Qed.

Lemma table_weight_zero `{Countable K} {V} (w : V → Z) (m : gmap K V) :
  (∀ k v, m !! k = Some v → w v = 0) → table_weight w m = 0.
Proof.
  intros Hw. rewrite (table_weight_ext w (λ _, 0) m Hw).
  induction m as [|k v m Hk IH] using map_ind.
  - apply table_weight_empty.
  - rewrite table_weight_insert by done. rewrite IH; [done|].
    intros k' v' Hk'. apply (Hw k'). rewrite lookup_insert_ne; [done|].
    intros ->. congruence.
Qed.

Section FurtherProperties.

Variable sha256_hex : list byte → string.

(** X1. In every reachable state the table of the store and the
    allocated [Blob]s agree: the table maps a digest to a blob exactly
    when that blob is allocated and carries the digest, so no two blobs
    of the store have the same digest. *)
Theorem store_keyed_by_digest st :
  reachable sha256_hex st →
  (∀ k a, blobs st !! k = Some a ↔ ∃ b, mem st !! a = Some b ∧ sha256 b = k)
  ∧ (∀ a1 a2 b1 b2, mem st !! a1 = Some b1 → mem st !! a2 = Some b2 →
       sha256 b1 = sha256 b2 → a1 = a2).
Proof.
  intros Ho%reachable_consistent. split.
  - intros k a. split.
    + apply (owns_table _ _ _ Ho).
    + intros (b & Hb & <-). by apply (owns_mem _ _ _ Ho).
  - intros a1 a2 b1 b2 H1 H2 Heq.
    apply (owns_mem _ _ _ Ho) in H1, H2. congruence.
Qed.

(** X2. A handle never dangles: in every reachable state each entry
    of a peer's handle table points at an allocated blob, which is in
    the store under its digest and has a positive reference count. *)
Theorem handles_point_at_live_blobs st n peer h a :
  reachable sha256_hex st →
  peers st !! n = Some peer → peer_blobs peer !! h = Some a →
  ∃ b, mem st !! a = Some b ∧ blobs st !! sha256 b = Some a ∧ 0 < ref_count b.
Proof.
  intros Ho%reachable_consistent Hn Hh.
  destruct (owns_entry _ _ _ _ _ _ _ Ho Hn Hh) as [b Hb].
  exists b. split; [done|]. split; [by apply (owns_mem _ _ _ Ho)|].
  by destruct (owns_pos _ _ _ Ho _ _ Hb).
Qed.

(** X3. No blob is left behind: in every reachable state each blob of
    the store is the value of some handle of some peer. *)
Theorem live_blobs_are_referenced st a b :
  reachable sha256_hex st → mem st !! a = Some b →
  ∃ n peer h, peers st !! n = Some peer ∧ peer_blobs peer !! h = Some a.
Proof.
  intros Ho%reachable_consistent Hb.
  pose proof (owns_rc _ _ _ Ho a) as Hrc.
  rewrite (rc_at_lookup _ _ _ Hb) in Hrc. simpl in Hrc.
  destruct (owns_pos _ _ _ Ho _ _ Hb) as [Hpos _].
  destruct (table_weight_pos_entry
              (λ peer, table_weight (points_at a) (peer_blobs peer)) (peers st))
    as (n & peer & Hn & Hw).
  { intros peer. apply table_weight_nonneg. intros. apply points_at_nonneg. }
  { unfold handle_count, entries_weight in Hrc. lia. }
  destruct (table_weight_pos_entry (points_at a) (peer_blobs peer))
    as (h & a' & Hh & Hp); [apply points_at_nonneg | done |].
  exists n, peer, h. split; [done|]. unfold points_at in Hp.
  destruct (decide (a' = a)) as [->|]; [done | lia].
Qed.

(** X4. When no peer holds a handle the store is empty and both size
    counters are zero. *)
Theorem no_handles_no_blobs st :
  reachable sha256_hex st →
  (∀ n peer, peers st !! n = Some peer → peer_blobs peer = ∅) →
  mem st = ∅ ∧ blobs st = ∅
  ∧ real_blob_size st = 0 ∧ apparent_blob_size st = 0.
Proof.
  intros Ho%reachable_consistent Hempty.
  assert (mem st = ∅) as Hmem.
  { apply map_empty. intros a. destruct (mem st !! a) as [b|] eqn:Hb; [|done].
    exfalso. pose proof (owns_rc _ _ _ Ho a) as Hrc.
    rewrite (rc_at_lookup _ _ _ Hb) in Hrc. simpl in Hrc.
    destruct (owns_pos _ _ _ Ho _ _ Hb) as [Hpos _].
    unfold handle_count, entries_weight in Hrc.
    rewrite table_weight_zero in Hrc; [lia|].
    intros n peer Hn. rewrite (Hempty n peer Hn). apply table_weight_empty. }
  split; [done|]. split.
  { apply map_empty. intros k. destruct (blobs st !! k) as [a|] eqn:Hk; [|done].
    destruct (owns_table _ _ _ Ho _ _ Hk) as (b & Hb & _).
    by rewrite Hmem in Hb. }
  split.
  - rewrite (owns_real _ _ _ Ho), Hmem, table_weight_empty. done.
  - rewrite (owns_apparent _ _ _ Ho). unfold entries_len, entries_weight. simpl.
    rewrite table_weight_zero; [done|].
    intros n peer Hn. rewrite (Hempty n peer Hn). apply table_weight_empty.
Qed.

(** ** Forget and NameOwnerChanged *)

(** X5. From a reachable state Forget is always defined and always
    answered: with the empty tuple when the payload has the type (u),
    and otherwise with invalid-args and the state untouched. *)
Theorem forget_is_always_answered st sender parameters :
  reachable sha256_hex st →
  ∃ r st',
    forget sender parameters st = Some (r, st') ∧ reachable sha256_hex st'
    ∧ if bool_decide (g_variant_get_type_string parameters = "(u)")
      then r = return_value (V_tuple []) []
      else r = return_error G_DBUS_ERROR_INVALID_ARGS "Wrong argument types"
           ∧ st' = st.
Proof.
  intros Hreach.
  destruct (consistent_forget sender parameters st
              (reachable_consistent _ _ Hreach)) as (r & st' & Hf & _).
  exists r, st'. split; [done|]. split.
  - apply (reachable_step _ (ev_method_call sender "" "Forget" parameters
                               None None) st (Some r) st' Hreach).
    simpl. unfold method_call. simpl. by rewrite (bind_eq _ _ _ _ _ Hf).
  - unfold forget, g_variant_is_of_type in Hf. case_bool_decide; simpl in Hf.
    + apply bind_Some in Hf as ([] & s1 & _ & [<- _]%ret_Some). done.
    + by apply ret_Some in Hf as [<- ->].
Qed.

(** X6. From a reachable state NameOwnerChanged is always defined; it
    leaves the state as it is unless the name starts with a colon, the
    old owner is the name, the new owner is empty and a peer of that
    name is known. *)
Theorem name_owner_changed_is_total st nm from to :
  reachable sha256_hex st →
  ∃ st',
    name_owner_changed nm from to st = Some (tt, st')
    ∧ reachable sha256_hex st'
    ∧ (starts_with_colon nm = false ∨ nm ≠ from ∨ to ≠ ""
       ∨ peers st !! nm = None → st' = st).
Proof.
  intros Hreach.
  destruct (consistent_name_owner_changed nm from to st
              (reachable_consistent _ _ Hreach)) as ([] & st' & Hn & _).
  exists st'. split; [done|]. split.
  - apply (reachable_step _ (ev_name_owner_changed nm from to) st None st'
             Hreach).
    simpl. by rewrite (bind_eq _ _ _ _ _ Hn).
  - intros Hskip. unfold name_owner_changed in Hn.
    destruct (starts_with_colon nm) eqn:Hc; simpl in Hn;
      [|by apply ret_Some in Hn as [_ ->]].
    case_bool_decide as Hfrom; simpl in Hn;
      [|by apply ret_Some in Hn as [_ ->]].
    case_bool_decide as Hto; simpl in Hn;
      [|by apply ret_Some in Hn as [_ ->]].
    destruct Hskip as [?|[?|[?|Hnone]]]; [done..|].
    apply bind_Some in Hn as (found & s1 & Hrem & [_ ->]%ret_Some).
    unfold g_hash_table_remove_peer in Hrem.
    apply bind_Some in Hrem as (s0 & s0' & [= <- <-] & Hrem).
    rewrite Hnone in Hrem. by apply ret_Some in Hrem as [_ ->].
Qed.

(** X7. Forget of a handle the sender holds removes that entry and
    nothing else from the sender's table, takes the length of the blob
    off the apparent size, and drops one reference: the blob is
    destroyed (and the real size reduced) when it was the last one, and
    keeps one reference less otherwise. *)
Theorem forget_known_handle st sender peer h a :
  reachable sha256_hex st →
  peers st !! sender = Some peer → peer_blobs peer !! h = Some a →
  ∃ b st',
    mem st !! a = Some b
    ∧ forget sender (V_tuple [V_u h]) st
      = Some (return_value (V_tuple []) [], st')
    ∧ peers st'
      = <[sender := mkPeer sender (next_blob_id peer)
                      (delete h (peer_blobs peer))]> (peers st)
    ∧ apparent_blob_size st' = gsize_wrap (apparent_blob_size st - len b)
    ∧ if decide (ref_count b = 1)
      then mem st' = delete a (mem st)
           ∧ blobs st' = delete (sha256 b) (blobs st)
           ∧ real_blob_size st' = gsize_wrap (real_blob_size st - len b)
      else mem st' = <[a := set_ref_count (ref_count b - 1) b]> (mem st)
           ∧ blobs st' = blobs st
           ∧ real_blob_size st' = real_blob_size st.
Proof.
  intros Ho%reachable_consistent Hn Hh.
  destruct (owns_entry _ _ _ _ _ _ _ Ho Hn Hh) as [b Hb].
  destruct (owns_pos _ _ _ Ho _ _ Hb) as [Hpos _].
  pose proof (owns_names _ _ _ Ho _ _ Hn) as Hname.
  set (s1 := set_peers (<[name peer := mkPeer (name peer) (next_blob_id peer)
                             (delete h (peer_blobs peer))]> (peers st)) st).
  pose proof (removed_blob_from_peer_cb_eq a s1) as Hcb.
  change (mem s1) with (mem st) in Hcb. rewrite Hb in Hcb.
  rewrite bool_decide_eq_false_2 in Hcb by (unfold G_MININT; lia).
  match type of Hcb with _ = Some (tt, ?s) => set (st' := s) in Hcb end.
  exists b, st'. split; [done|]. split.
  { unfold forget. simpl.
    assert (remove_blob_from_peer sender h st = Some (tt, st')) as Hrem.
    { apply remove_blob_from_peer_Some. exists peer, st. split.
      - apply lookup_peer_Some. by left.
      - by rewrite Hh. }
    by rewrite (bind_eq _ _ _ _ _ Hrem). }
  subst st' s1. rewrite Hname.
  destruct (decide (ref_count b = 1)) as [H1|H1].
  - rewrite bool_decide_eq_true_2 by lia. done.
  - rewrite bool_decide_eq_false_2 by lia. done.
Qed.

(** ** One peer at a time *)

Lemma lookup_peer_name nm st peer st' :
  consistent st → lookup_peer nm st = Some (peer, st') → name peer = nm.
Proof.
  intros Ho [[Hn _]|(_ & -> & _)]%lookup_peer_Some; [|done].
  by apply (owns_names _ _ _ Ho).
Qed.

Lemma lookup_peer_frame nm st peer st' n :
  lookup_peer nm st = Some (peer, st') → n ≠ nm →
  peers st' !! n = peers st !! n.
Proof.
  intros [[_ ->]|(_ & _ & ->)]%lookup_peer_Some Hne; [done|].
  simpl. by rewrite lookup_insert_ne.
Qed.

Lemma remove_blob_from_peer_frame nm blob_id st u st' n :
  consistent st → remove_blob_from_peer nm blob_id st = Some (u, st') →
  n ≠ nm → peers st' !! n = peers st !! n.
Proof.
  intros Ho (peer & st1 & Hpeer & Hrest)%remove_blob_from_peer_Some Hne.
  pose proof (lookup_peer_name _ _ _ _ Ho Hpeer) as Hname.
  rewrite <- (lookup_peer_frame _ _ _ _ n Hpeer Hne).
  destruct (peer_blobs peer !! blob_id) as [blob|]; [|by subst].
  apply removed_blob_from_peer_cb_peers in Hrest. rewrite Hrest. simpl.
  rewrite Hname. by rewrite lookup_insert_ne.
Qed.

Lemma dispatch_peers_frame e st r st' n :
  consistent st → dispatch sha256_hex e st = Some (r, st') →
  n ≠ subject e → peers st' !! n = peers st !! n.
Proof.
  intros Ho He Hne.
  destruct e as [sender iface method parameters fd_list dup|nm from to];
    simpl in He, Hne.
  - apply bind_Some in He as (r0 & s1 & Hcall & [_ ->]%ret_Some).
    unfold method_call in Hcall. case_bool_decide.
    + destruct r0 as [code message|v fds].
      * by rewrite (make_unique_error_keeps_state _ _ _ _ _ _ _ _ _ Ho Hcall).
      * pose proof Hcall as Hinv.
        apply make_unique_value_inv in Hinv as (f & ? & ? & ? & ? & ? & ? & ?
          & Hf & _).
        destruct (make_unique_value_post _ _ _ _ _ _ _ _ _ f Ho Hf Hcall)
          as (arr & blob & b' & _ & _ & _ & _ & _ & Hpeers & _).
        rewrite Hpeers. by rewrite lookup_insert_ne.
    + case_bool_decide.
      * unfold forget in Hcall. destruct (negb _).
        -- by apply ret_Some in Hcall as [_ ->].
        -- apply bind_Some in Hcall as ([] & s2 & Hrem & [_ ->]%ret_Some).
           by apply (remove_blob_from_peer_frame _ _ _ _ _ n Ho Hrem).
      * by apply ret_Some in Hcall as [_ ->].
  - apply bind_Some in He as ([] & s1 & Hn & [_ ->]%ret_Some).
    unfold name_owner_changed in Hn.
    destruct (_ && _); [|by apply ret_Some in Hn as [_ ->]].
    apply bind_Some in Hn as (found & s2 & Hrem & [_ ->]%ret_Some).
    unfold g_hash_table_remove_peer in Hrem.
    apply bind_Some in Hrem as (s0 & s0' & [= <- <-] & Hrem).
    destruct (peers st !! nm) as [peer|]; [|by apply ret_Some in Hrem as [_ ->]].
    apply bind_Some in Hrem as ([] & s3 & ->%modify_Some & Hrem).
    apply bind_Some in Hrem as ([] & s4 & Hfree & [_ ->]%ret_Some).
    unfold peer_free in Hfree. apply destroy_values_peers in Hfree.
    rewrite Hfree. simpl. by rewrite lookup_delete_ne.
Qed.

Lemma run_peers_frame evs st rs st' n :
  consistent st → run sha256_hex evs st = Some (rs, st') →
  Forall (λ e, subject e ≠ n) evs → peers st' !! n = peers st !! n.
Proof.
  revert st rs. induction evs as [|e evs IH]; simpl; intros st rs Ho Hrun Hall.
  - by apply ret_Some in Hrun as [_ ->].
  - apply bind_Some in Hrun as (r & s1 & He & Hrun).
    apply bind_Some in Hrun as (rs' & s2 & Hrun & [_ ->]%ret_Some).
    apply Forall_cons in Hall as [Hne Hall].
    rewrite (IH s1 rs'); [|by apply (consistent_dispatch sha256_hex e st r s1)|done..].
    apply (dispatch_peers_frame e st r s1); [done..|congruence].
Qed.

Lemma reachable_run evs st rs st' :
  reachable sha256_hex st → run sha256_hex evs st = Some (rs, st') →
  reachable sha256_hex st'.
Proof.
  revert st rs. induction evs as [|e evs IH]; simpl; intros st rs Hreach Hrun.
  - by apply ret_Some in Hrun as [_ ->].
  - apply bind_Some in Hrun as (r & s1 & He & Hrun).
    apply bind_Some in Hrun as (rs' & s2 & Hrun & [_ ->]%ret_Some).
    apply (IH s1 rs'); [|done]. by apply (reachable_step _ e st r).
Qed.

(** X8. A peer's record (its handle table and its handle counter) is
    only touched by the method calls of that peer and the
    NameOwnerChanged signals for its name: whatever other peers submit
    or forget, and whichever of them die, it stays as it is. *)
Theorem peers_are_isolated evs st rs st' n :
  reachable sha256_hex st → run sha256_hex evs st = Some (rs, st') →
  Forall (λ e, subject e ≠ n) evs → peers st' !! n = peers st !! n.
Proof.
  intros Hreach Hrun Hall.
  apply (run_peers_frame evs st rs); [|done..].
  by apply reachable_consistent in Hreach.
Qed.

(** X9. A peer's handles are issued in sequence: of two submissions of
    the same sender that are served, with only events of other peers in
    between, the second gets the handle after the first (modulo 2^32);
    a sender the daemon does not know starts at 1. *)
Theorem handles_are_consecutive st sender parameters1 fd_list1 dup1 v1 fds1
    st1 evs rs st2 parameters2 fd_list2 dup2 v2 fds2 st3 :
  reachable sha256_hex st →
  make_unique sha256_hex sender parameters1 fd_list1 dup1 st
  = Some (return_value v1 fds1, st1) →
  Forall (λ e, subject e ≠ sender) evs →
  run sha256_hex evs st1 = Some (rs, st2) →
  make_unique sha256_hex sender parameters2 fd_list2 dup2 st2
  = Some (return_value v2 fds2, st3) →
  ∃ arr1 arr2 h,
    v1 = V_tuple [V_ah arr1; V_u h]
    ∧ v2 = V_tuple [V_ah arr2; V_u (guint32_wrap (h + 1))]
    ∧ (peers st !! sender = None → h = 1).
Proof.
  intros Hreach Hmu1 Hall Hrun Hmu2.
  assert (reachable sha256_hex st1) as Hreach1.
  { apply (reachable_step _ (ev_method_call sender "" "MakeUnique" parameters1
                               fd_list1 dup1) st (Some (return_value v1 fds1))
             st1 Hreach).
    simpl. unfold method_call. simpl. by rewrite (bind_eq _ _ _ _ _ Hmu1). }
  pose proof (reachable_run _ _ _ _ Hreach1 Hrun) as Hreach2.
  pose proof (reachable_consistent _ _ Hreach) as Ho.
  pose proof (reachable_consistent _ _ Hreach1) as Ho1.
  pose proof (reachable_consistent _ _ Hreach2) as Ho2.
  pose proof Hmu1 as (f1 & ? & ? & ? & ? & ? & ? & ? & Hf1 & _)%make_unique_value_inv.
  pose proof Hmu2 as (f2 & ? & ? & ? & ? & ? & ? & ? & Hf2 & _)%make_unique_value_inv.
  destruct (make_unique_value_post _ _ _ _ _ _ _ _ _ f1 Ho Hf1 Hmu1)
    as (arr1 & blob1 & b1 & -> & _ & _ & _ & _ & Hpeers1 & _).
  destruct (make_unique_value_post _ _ _ _ _ _ _ _ _ f2 Ho2 Hf2 Hmu2)
    as (arr2 & blob2 & b2 & -> & _).
  rewrite (run_peers_frame evs st1 rs st2 sender Ho1 Hrun Hall).
  rewrite Hpeers1, lookup_insert_eq. simpl.
  exists arr1, arr2, (next_blob_id (default (mkPeer sender 1 ∅) (peers st !! sender))).
  split; [done|]. split; [done|]. by intros ->.
Qed.

(** ** MakeUnique *)

Lemma make_unique_checks_passed sender parameters fd_list dup f st :
  g_variant_get_type_string parameters = "(h)" →
  steal_one_fd_from_list fd_list (g_variant_get_h parameters) = Some (Some f) →
  - 2 ^ 31 ≤ f_get_seals f < 2 ^ 31 → all_sealed f → readable f = true →
  make_unique sha256_hex sender parameters fd_list dup st
  = (found ← lookup_blob (sha256_hex (f_data f));
     match found with
     | None =>
         blob ← blob_new f (sha256_hex (f_data f));
         blob_id ← add_blob_to_peer sender blob;
         blob_unref blob;;
         mret (return_value (V_tuple [V_ah []; V_u blob_id]) [])
     | Some blob =>
         b ← deref blob;
         let '(fd_handle, ret_fds) := g_unix_fd_list_append [] (fd b) dup in
         if bool_decide (fd_handle < 0) then
           blob_unref blob;;
           mret (return_error G_DBUS_ERROR_FAILED "Failed to dup fd")
         else
           blob_id ← add_blob_to_peer sender blob;
           blob_unref blob;;
           mret (return_value (V_tuple [V_ah [fd_handle]; V_u blob_id]) ret_fds)
     end) st.
Proof.
  intros Hty Hf Hrange Hsealed Hr. unfold make_unique, g_variant_is_of_type.
  rewrite bool_decide_eq_true_2 by done. cbn [negb]. rewrite Hf.
  apply (seals_missing_spec f Hrange) in Hsealed. rewrite Hsealed.
  rewrite (checksum_from_fd_readable _ _ Hr).
  by cbv beta iota zeta delta [g_checksum_get_string g_checksum_new app].
Qed.

(** The state a served submission of new bytes leaves. *)
Lemma make_unique_miss st sender parameters fd_list dup f :
  consistent st →
  g_variant_get_type_string parameters = "(h)" →
  steal_one_fd_from_list fd_list (g_variant_get_h parameters) = Some (Some f) →
  - 2 ^ 31 ≤ f_get_seals f < 2 ^ 31 → all_sealed f → readable f = true →
  blobs st !! sha256_hex (f_data f) = None →
  (∀ peer, peers st !! sender = Some peer →
           peer_blobs peer !! next_blob_id peer = None) →
  let peer := default (mkPeer sender 1 ∅) (peers st !! sender) in
  let blob := fresh (dom (mem st)) in
  let l := match fstat f with Some st_size => gsize_wrap st_size | None => 0 end in
  make_unique sha256_hex sender parameters fd_list dup st
  = Some (return_value (V_tuple [V_ah []; V_u (next_blob_id peer)]) [],
          mkDaemon (gsize_wrap (real_blob_size st + l))
            (gsize_wrap (apparent_blob_size st + l))
            (<[blob := mkBlob (sha256_hex (f_data f)) l (f_fd f) 1]> (mem st))
            (<[sha256_hex (f_data f) := blob]> (blobs st))
            (<[sender := mkPeer sender (guint32_wrap (next_blob_id peer + 1))
                           (<[next_blob_id peer := blob]> (peer_blobs peer))]>
               (peers st))).
Proof.
  intros Ho Hty Hf Hrange Hsealed Hr Hsha Hnew peer blob l.
  rewrite (make_unique_checks_passed _ _ _ _ f) by done.
  assert (lookup_blob (sha256_hex (f_data f)) st = Some (None, st)) as Hfound.
  { apply lookup_blob_Some. by rewrite Hsha. }
  rewrite (bind_eq _ _ _ _ _ Hfound).
  set (b := mkBlob (sha256_hex (f_data f)) l (f_fd f) 1).
  set (s1 := set_blobs (<[sha256_hex (f_data f) := blob]> (blobs st))
               (set_real (gsize_wrap (real_blob_size st + l))
                  (set_mem (<[blob := b]> (mem st)) st))).
  rewrite (bind_eq (blob_new f (sha256_hex (f_data f))) _ st blob s1 eq_refl).
  destruct (owns_lookup_peer [] [] sender st Ho)
    as (peer' & sP & Hpeer & _ & HsP & Hname).
  assert (lookup_peer sender s1
          = Some (peer', set_peers (peers sP) s1)) as Hpeer1.
  { apply lookup_peer_Some in Hpeer as [[Hn ->]|(Hn & -> & ->)];
      apply lookup_peer_Some; [left|right]; simpl; by destruct st. }
  assert (peer' = peer) as ->.
  { subst peer. apply lookup_peer_Some in Hpeer as [[-> _]|(-> & -> & _)]; done. }
  assert (peers sP = <[sender := peer]> (peers st)) as HpeersP.
  { apply lookup_peer_Some in Hpeer as [[Hn ->]|(Hn & _ & ->)]; [|done].
    symmetry. by apply insert_id. }
  assert (peer_blobs peer !! next_blob_id peer = None) as Hfresh.
  { subst peer. destruct (peers st !! sender) as [p|] eqn:Hp; simpl; [by apply Hnew|done]. }
  set (s2 := entry_added peer blob b (set_peers (peers sP) s1)).
  assert (add_blob_to_peer sender blob s1 = Some (next_blob_id peer, s2))
    as Hadd.
  { rewrite (add_blob_to_peer_eq sender blob s1 peer _ b Hpeer1).
    - by rewrite Hfresh.
    - apply lookup_insert_eq.
    - unfold G_MAXINT. simpl. lia. }
  rewrite (bind_eq _ _ _ _ _ Hadd).
  assert (blob_unref blob s2
          = Some (tt, set_mem (<[blob := set_ref_count (ref_count b + 1 - 1)
                                          (set_ref_count (ref_count b + 1) b)]>
                                 (mem s2)) s2)) as Hunref.
  { apply blob_unref_Some. exists (set_ref_count (ref_count b + 1) b).
    split; [apply lookup_insert_eq|]. split; [unfold G_MININT; simpl; lia|].
    simpl. done. }
  rewrite (bind_eq _ _ _ _ _ Hunref). unfold mret, M_ret. do 2 f_equal.
  subst s2 s1. unfold entry_added, set_mem, set_blobs, set_real, set_peers. simpl.
  rewrite !insert_insert_eq, HpeersP, Hname, insert_insert_eq. done.
Qed.

(** X10. A submission of bytes that are not in the store creates one
    blob for them: with the digest, the size [fstat] answers, the
    descriptor of the message and one reference, held by the new handle;
    both counters grow by the size, and the reply carries no
    descriptor.  (The handle is taken to be new in the sender's
    table.) *)
Theorem make_unique_new_content st sender parameters fd_list dup f :
  reachable sha256_hex st →
  g_variant_get_type_string parameters = "(h)" →
  steal_one_fd_from_list fd_list (g_variant_get_h parameters) = Some (Some f) →
  - 2 ^ 31 ≤ f_get_seals f < 2 ^ 31 → all_sealed f → readable f = true →
  blobs st !! sha256_hex (f_data f) = None →
  (∀ peer, peers st !! sender = Some peer →
           peer_blobs peer !! next_blob_id peer = None) →
  let peer := default (mkPeer sender 1 ∅) (peers st !! sender) in
  let blob := fresh (dom (mem st)) in
  let l := match fstat f with Some st_size => gsize_wrap st_size | None => 0 end in
  make_unique sha256_hex sender parameters fd_list dup st
  = Some (return_value (V_tuple [V_ah []; V_u (next_blob_id peer)]) [],
          mkDaemon (gsize_wrap (real_blob_size st + l))
            (gsize_wrap (apparent_blob_size st + l))
            (<[blob := mkBlob (sha256_hex (f_data f)) l (f_fd f) 1]> (mem st))
            (<[sha256_hex (f_data f) := blob]> (blobs st))
            (<[sender := mkPeer sender (guint32_wrap (next_blob_id peer + 1))
                           (<[next_blob_id peer := blob]> (peer_blobs peer))]>
               (peers st))).
Proof.
  intros Ho%reachable_consistent Hty Hf Hrange Hsealed Hr Hsha Hnew.
  by apply (make_unique_miss st sender parameters fd_list dup f).
Qed.

(** The state a served submission of known bytes leaves. *)
Lemma make_unique_hit st sender parameters fd_list fd' f blob b :
  consistent st →
  g_variant_get_type_string parameters = "(h)" →
  steal_one_fd_from_list fd_list (g_variant_get_h parameters) = Some (Some f) →
  - 2 ^ 31 ≤ f_get_seals f < 2 ^ 31 → all_sealed f → readable f = true →
  blobs st !! sha256_hex (f_data f) = Some blob → mem st !! blob = Some b →
  ref_count b + 2 ≤ G_MAXINT →
  (∀ peer, peers st !! sender = Some peer →
           peer_blobs peer !! next_blob_id peer = None) →
  let peer := default (mkPeer sender 1 ∅) (peers st !! sender) in
  make_unique sha256_hex sender parameters fd_list (Some fd') st
  = Some (return_value (V_tuple [V_ah [0]; V_u (next_blob_id peer)]) [fd'],
          mkDaemon (real_blob_size st)
            (gsize_wrap (apparent_blob_size st + len b))
            (<[blob := set_ref_count (ref_count b + 1) b]> (mem st))
            (blobs st)
            (<[sender := mkPeer sender (guint32_wrap (next_blob_id peer + 1))
                           (<[next_blob_id peer := blob]> (peer_blobs peer))]>
               (peers st))).
Proof.
  intros Ho Hty Hf Hrange Hsealed Hr Hsha Hb Hroom Hnew
    peer.
  rewrite (make_unique_checks_passed _ _ _ _ f) by done.
  set (b1 := set_ref_count (ref_count b + 1) b).
  set (s0 := set_mem (<[blob := b1]> (mem st)) st).
  assert (lookup_blob (sha256_hex (f_data f)) st = Some (Some blob, s0))
    as Hfound.
  { apply lookup_blob_Some. rewrite Hsha. split; [done|]. exists b.
    split; [done|]. split; [unfold G_MAXINT in *; lia | done]. }
  rewrite (bind_eq _ _ _ _ _ Hfound).
  erewrite (bind_eq (deref blob) _ s0 b1);
    [|apply deref_Some; split; [apply lookup_insert_eq | done]].
  cbv beta iota zeta delta [g_unix_fd_list_append length app].
  change (Z.of_nat 0) with 0. rewrite bool_decide_eq_false_2 by lia.
  destruct (owns_lookup_peer [] [] sender st Ho)
    as (peer' & sP & Hpeer & _ & HsP & Hname).
  assert (lookup_peer sender s0 = Some (peer', set_peers (peers sP) s0))
    as Hpeer0.
  { apply lookup_peer_Some in Hpeer as [[Hn ->]|(Hn & -> & ->)];
      apply lookup_peer_Some; [left|right]; simpl; by destruct st. }
  assert (peer' = peer) as ->.
  { subst peer. apply lookup_peer_Some in Hpeer as [[-> _]|(-> & -> & _)]; done. }
  assert (peers sP = <[sender := peer]> (peers st)) as HpeersP.
  { apply lookup_peer_Some in Hpeer as [[Hn ->]|(Hn & _ & ->)]; [|done].
    symmetry. by apply insert_id. }
  assert (peer_blobs peer !! next_blob_id peer = None) as Hfresh.
  { subst peer. destruct (peers st !! sender) as [p|] eqn:Hp; simpl;
      [by apply Hnew | done]. }
  set (s2 := entry_added peer blob b1 (set_peers (peers sP) s0)).
  assert (add_blob_to_peer sender blob s0 = Some (next_blob_id peer, s2))
    as Hadd.
  { rewrite (add_blob_to_peer_eq sender blob s0 peer _ b1 Hpeer0).
    - by rewrite Hfresh.
    - apply lookup_insert_eq.
    - unfold G_MAXINT in *. simpl. lia. }
  rewrite (bind_eq _ _ _ _ _ Hadd).
  destruct (owns_pos _ _ _ Ho _ _ Hb) as [Hpos _].
  assert (blob_unref blob s2
          = Some (tt, set_mem (<[blob := set_ref_count (ref_count b1 + 1 - 1)
                                          (set_ref_count (ref_count b1 + 1) b1)]>
                                 (mem s2)) s2)) as Hunref.
  { apply blob_unref_Some. exists (set_ref_count (ref_count b1 + 1) b1).
    split; [apply lookup_insert_eq|]. split; [unfold G_MININT; simpl; lia|].
    simpl. rewrite bool_decide_eq_false_2 by lia. done. }
  rewrite (bind_eq _ _ _ _ _ Hunref). unfold mret, M_ret. do 2 f_equal.
  subst s2 s0 b1. unfold entry_added, set_mem, set_peers, set_ref_count. simpl.
  rewrite !insert_insert_eq, HpeersP, Hname, insert_insert_eq.
  do 3 f_equal. f_equal. lia.
Qed.

(** X28. A submission of bytes that are in the store adds a handle to
    their blob: the blob gains one reference and keeps its descriptor,
    the apparent size grows by its length, the real size and the store
    stay as they are, and the reply carries the duplicate of the
    canonical descriptor at index 0.  (The handle is taken to be new in
    the sender's table.) *)
Theorem make_unique_known_content st sender parameters fd_list fd' f blob b :
  reachable sha256_hex st →
  g_variant_get_type_string parameters = "(h)" →
  steal_one_fd_from_list fd_list (g_variant_get_h parameters) = Some (Some f) →
  - 2 ^ 31 ≤ f_get_seals f < 2 ^ 31 → all_sealed f → readable f = true →
  blobs st !! sha256_hex (f_data f) = Some blob → mem st !! blob = Some b →
  ref_count b + 2 ≤ G_MAXINT →
  (∀ peer, peers st !! sender = Some peer →
           peer_blobs peer !! next_blob_id peer = None) →
  let peer := default (mkPeer sender 1 ∅) (peers st !! sender) in
  make_unique sha256_hex sender parameters fd_list (Some fd') st
  = Some (return_value (V_tuple [V_ah [0]; V_u (next_blob_id peer)]) [fd'],
          mkDaemon (real_blob_size st)
            (gsize_wrap (apparent_blob_size st + len b))
            (<[blob := set_ref_count (ref_count b + 1) b]> (mem st))
            (blobs st)
            (<[sender := mkPeer sender (guint32_wrap (next_blob_id peer + 1))
                           (<[next_blob_id peer := blob]> (peer_blobs peer))]>
               (peers st))).
Proof.
  intros Ho%reachable_consistent Hty Hf Hrange Hsealed Hr Hsha Hb Hroom Hnew.
  by apply (make_unique_hit st sender parameters fd_list fd' f blob b).
Qed.

(** X30. Whatever the state, a submission that is served leaves the
    sender with a handle for the bytes: the handle of the reply is an
    entry of the sender's table, and it points at the blob the store
    has for the digest of the submitted bytes (also when the handle
    counter has wrapped and the handle replaces an older one). *)
Theorem served_handle_names_the_bytes st sender parameters fd_list dup v fds
    st' :
  reachable sha256_hex st →
  make_unique sha256_hex sender parameters fd_list dup st
  = Some (return_value v fds, st') →
  ∃ f arr h blob b peer,
    steal_one_fd_from_list fd_list (g_variant_get_h parameters)
    = Some (Some f)
    ∧ v = V_tuple [V_ah arr; V_u h]
    ∧ blobs st' !! sha256_hex (f_data f) = Some blob
    ∧ mem st' !! blob = Some b ∧ sha256 b = sha256_hex (f_data f)
    ∧ peers st' !! sender = Some peer ∧ peer_blobs peer !! h = Some blob
    ∧ reachable sha256_hex st'.
Proof.
  intros Hreach Hmu.
  pose proof (reachable_consistent _ _ Hreach) as Ho.
  pose proof Hmu as (f & ? & ? & ? & ? & ? & ? & ? & Hf & _)%make_unique_value_inv.
  destruct (make_unique_value_post _ _ _ _ _ _ _ _ _ f Ho Hf Hmu)
    as (arr & blob & b & -> & _ & Hblob & Hb & Hsha & Hpeers & _).
  eexists f, arr, _, blob, b, _. split; [done|]. split; [done|].
  split; [done|]. split; [done|]. split; [done|].
  split; [rewrite Hpeers; apply lookup_insert_eq|].
  split; [apply lookup_insert_eq|].
  apply (reachable_step _ (ev_method_call sender "" "MakeUnique" parameters
                             fd_list dup) st
           (Some (return_value
                    (V_tuple [V_ah arr;
                              V_u (next_blob_id
                                     (default (mkPeer sender 1 ∅)
                                        (peers st !! sender)))]) fds))
           st' Hreach).
  simpl. unfold method_call. simpl. by rewrite (bind_eq _ _ _ _ _ Hmu).
Qed.

(** X11. The error FAILED is the answer exactly when the bytes are in
    the store and the canonical descriptor cannot be duplicated into the
    reply; the state is then as before the call. *)
Theorem make_unique_dup_failure st sender parameters fd_list :
  reachable sha256_hex st →
  (∀ f blob b,
      g_variant_get_type_string parameters = "(h)" →
      steal_one_fd_from_list fd_list (g_variant_get_h parameters)
      = Some (Some f) →
      - 2 ^ 31 ≤ f_get_seals f < 2 ^ 31 → all_sealed f → readable f = true →
      blobs st !! sha256_hex (f_data f) = Some blob →
      mem st !! blob = Some b → ref_count b ≠ G_MAXINT →
      make_unique sha256_hex sender parameters fd_list None st
      = Some (return_error G_DBUS_ERROR_FAILED "Failed to dup fd", st))
  ∧ (∀ dup message st',
       make_unique sha256_hex sender parameters fd_list dup st
       = Some (return_error G_DBUS_ERROR_FAILED message, st') →
       st' = st ∧ dup = None
       ∧ ∃ f, steal_one_fd_from_list fd_list (g_variant_get_h parameters)
              = Some (Some f)
              ∧ is_Some (blobs st !! sha256_hex (f_data f))).
Proof.
  intros Ho%reachable_consistent. split.
  - intros f blob b Hty Hf Hrange Hsealed Hr Hsha Hb Hrc.
    rewrite (make_unique_checks_passed _ _ _ _ f) by done.
    set (b1 := set_ref_count (ref_count b + 1) b).
    set (s0 := set_mem (<[blob := b1]> (mem st)) st).
    assert (lookup_blob (sha256_hex (f_data f)) st = Some (Some blob, s0))
      as Hfound.
    { apply lookup_blob_Some. rewrite Hsha. split; [done|]. by exists b. }
    rewrite (bind_eq _ _ _ _ _ Hfound).
    erewrite (bind_eq (deref blob) _ s0 b1);
      [|apply deref_Some; split; [apply lookup_insert_eq | done]].
    cbv beta iota zeta delta [g_unix_fd_list_append].
    rewrite bool_decide_eq_true_2 by lia.
    destruct (owns_pos _ _ _ Ho _ _ Hb) as [Hpos _].
    assert (blob_unref blob s0 = Some (tt, st)) as Hunref.
    { apply blob_unref_Some. exists b1. split; [apply lookup_insert_eq|].
      split; [unfold G_MININT; simpl; lia|]. simpl.
      rewrite bool_decide_eq_false_2 by lia.
      destruct st as [real apparent m t ps]. unfold set_mem. simpl in *.
      f_equal. subst b1. rewrite insert_insert_eq, set_ref_count_back.
      symmetry. by apply insert_id. }
    by rewrite (bind_eq _ _ _ _ _ Hunref).
  - intros dup message st' Hmu.
    split; [by apply (make_unique_error_keeps_state _ _ _ _ _ _ _ _ _ Ho Hmu)|].
    unfold make_unique in Hmu.
    destruct (negb _); [by apply ret_Some in Hmu as [? _]|].
    destruct (steal_one_fd_from_list _ _) as [[f|]|];
      [|by apply ret_Some in Hmu as [? _]|done].
    destruct (seals_missing _); [by apply ret_Some in Hmu as [? _]|].
    rewrite checksum_from_fd_spec in Hmu. destruct (readable f);
      [|by apply ret_Some in Hmu as [? _]].
    cbv beta iota zeta delta [g_checksum_get_string g_checksum_new app] in Hmu.
    apply bind_Some in Hmu as (found & s0 & Hfound & Hmu).
    apply lookup_blob_Some in Hfound.
    destruct (blobs st !! sha256_hex (f_data f)) as [canonical|] eqn:Hsha.
    + destruct Hfound as (-> & _).
      apply bind_Some in Hmu as (b1 & ? & _ & Hmu).
      destruct dup as [fd'|].
      * cbv beta iota zeta delta [g_unix_fd_list_append length app] in Hmu.
        change (Z.of_nat 0) with 0 in Hmu.
        rewrite bool_decide_eq_false_2 in Hmu by lia.
        apply bind_Some in Hmu as (? & ? & _ & Hmu).
        by apply bind_Some in Hmu as (? & ? & _ & [? _]%ret_Some).
      * split; [done|]. exists f. split; [done|]. by eexists.
    + destruct Hfound as [-> _].
      apply bind_Some in Hmu as (? & ? & _ & Hmu).
      apply bind_Some in Hmu as (? & ? & _ & Hmu).
      by apply bind_Some in Hmu as (? & ? & _ & [? _]%ret_Some).
Qed.

(** X12. For an index that is not negative, a MakeUnique call is answered
    with invalid-args and an unchanged state exactly when the request is
    bad: the payload is not (h), there is no descriptor at the index,
    the descriptor lacks a seal, or it cannot be read to the end. *)
Theorem make_unique_refuses_bad_requests st sender interface_name parameters
    fd_list dup :
  0 ≤ g_variant_get_h parameters →
  (∀ f, passed_fd fd_list (g_variant_get_h parameters) = Some f →
        - 2 ^ 31 ≤ f_get_seals f < 2 ^ 31) →
  bad_request parameters fd_list ↔
  ∃ message,
    method_call sha256_hex sender interface_name "MakeUnique" parameters
      fd_list dup st
    = Some (return_error G_DBUS_ERROR_INVALID_ARGS message, st).
Proof.
  intros Hh Hrange. unfold method_call. rewrite bool_decide_eq_true_2 by done.
  destruct (make_unique_invalid_args sha256_hex st sender parameters fd_list
              dup Hh Hrange) as [Hbad Hgood].
  split; [done|]. intros [message Hmu]. by apply Hgood in Hmu as [? _].
Qed.

(** X13. A reply of the daemon is one the client can take: its array
    has no handle and the reply no descriptor, or the array is [0] and
    the reply carries exactly one descriptor; on such a reply neither
    [make_unique_cb] nor [call_make_unique] reads outside the
    descriptor array. *)
Theorem daemon_reply_is_safe_for_client sender parameters fd_list dup st v fds
    st' :
  make_unique sha256_hex sender parameters fd_list dup st
  = Some (return_value v fds, st') →
  ∃ arr h,
    v = V_tuple [V_ah arr; V_u h]
    ∧ (arr = [] ∧ fds = [] ∨ arr = [0] ∧ ∃ fd', dup = Some fd' ∧ fds = [fd'])
    ∧ ∀ response_fd_list,
        response_fd_list = Some fds ∨ fds = [] ∧ response_fd_list = None →
        (∀ d mmap_ret,
            is_Some (Client.make_unique_cb d
                       (Some (Client.mkResponse arr h response_fd_list))
                       mmap_ret))
        ∧ (∀ bus memfd id_out memfd_handle,
              is_Some (Client.call_make_unique bus memfd id_out memfd_handle
                         (Some (Client.mkResponse arr h response_fd_list)))).
Proof.
  intros (f & found & s0 & blob & arr & s1 & blob_id & s2 & _ & _ & _ & Hfound
          & _ & _ & ->)%make_unique_value_inv.
  exists arr, blob_id. split; [done|].
  assert (arr = [] ∧ fds = [] ∨ arr = [0] ∧ ∃ fd', dup = Some fd' ∧ fds = [fd'])
    as Hshape.
  { destruct found as [canonical|].
    - right. by destruct Hfound as (_ & _ & -> & Hdup).
    - left. by destruct Hfound as (_ & -> & ->). }
  split; [done|]. intros response_fd_list Hlist. split.
  - intros d mmap_ret. unfold Client.make_unique_cb. simpl.
    destruct Hshape as [[-> ->]|(-> & fd' & _ & ->)].
    + by destruct (Client.mapped_data_unref _).
    + destruct Hlist as [->|[[=] _]]. simpl. case_bool_decide; [|done].
      by destruct (Client.mapped_data_unref _).
  - intros bus memfd id_out memfd_handle. unfold Client.call_make_unique.
    destruct bus; simpl; [|done]. case_bool_decide; [|done]. simpl.
    destruct Hshape as [[-> ->]|(-> & fd' & _ & ->)]; [done|].
    by destruct Hlist as [->|[[=] _]].
Qed.

(** ** The canonical descriptor *)

Lemma released_same_blobs st st' : released st st' → same_blobs st st'.
Proof. by intros [_ Hm]. Qed.

Lemma same_blobs_refl st : same_blobs st st.
Proof. intros a b' Hb. by exists b'. Qed.

Lemma same_blobs_trans st1 st2 st3 :
  same_blobs st1 st2 → same_blobs st2 st3 → same_blobs st1 st3.
Proof.
  intros H1 H2 a b3 Hb3. destruct (H2 a b3 Hb3) as (b2 & Hb2 & ? & ? & ?).
  destruct (H1 a b2 Hb2) as (b1 & Hb1 & ? & ? & ?).
  exists b1. repeat split; congruence.
Qed.

Lemma same_blobs_mem st st' : mem st' = mem st → same_blobs st st'.
Proof. intros Hm a b' Hb. rewrite Hm in Hb. by exists b'. Qed.

Lemma same_blobs_set_ref_count st blob b rc :
  mem st !! blob = Some b →
  same_blobs st (set_mem (<[blob := set_ref_count rc b]> (mem st)) st).
Proof.
  intros Hb a b'. simpl. destruct (decide (a = blob)) as [->|Hne].
  - rewrite lookup_insert_eq. intros [= <-]. by exists b.
  - rewrite lookup_insert_ne by done. intros Ha. by exists b'.
Qed.

Lemma same_blobs_entry_added st peer blob b :
  mem st !! blob = Some b → same_blobs st (entry_added peer blob b st).
Proof.
  intros Hb a b'. unfold entry_added. simpl.
  destruct (decide (a = blob)) as [->|Hne].
  - rewrite lookup_insert_eq. intros [= <-]. by exists b.
  - rewrite lookup_insert_ne by done. intros Ha. by exists b'.
Qed.

Lemma add_blob_to_peer_same_blobs nm blob st blob_id st' :
  add_blob_to_peer nm blob st = Some (blob_id, st') → same_blobs st st'.
Proof.
  intros (peer & st1 & b & Hpeer & Hb & _ & _ & Hst')%add_blob_to_peer_Some.
  destruct (lookup_peer_mem _ _ _ _ Hpeer) as (Hmem & _).
  apply (same_blobs_trans _ st1); [by apply same_blobs_mem|].
  rewrite <- Hmem in Hb.
  apply (same_blobs_trans _ (entry_added peer blob b st1));
    [by apply same_blobs_entry_added|].
  destruct (peer_blobs peer !! blob_id) as [old|].
  - by apply released_same_blobs, (removed_blob_from_peer_cb_released old _ tt).
  - subst st'. apply same_blobs_refl.
Qed.

Lemma remove_blob_from_peer_same_blobs nm blob_id st u st' :
  remove_blob_from_peer nm blob_id st = Some (u, st') → same_blobs st st'.
Proof.
  intros (peer & st1 & Hpeer & Hrest)%remove_blob_from_peer_Some.
  destruct (lookup_peer_mem _ _ _ _ Hpeer) as (Hmem & _).
  apply (same_blobs_trans _ st1); [by apply same_blobs_mem|].
  destruct (peer_blobs peer !! blob_id) as [blob|]; [|subst; apply same_blobs_refl].
  apply (same_blobs_trans _ (set_peers (<[name peer := mkPeer (name peer)
           (next_blob_id peer) (delete blob_id (peer_blobs peer))]> (peers st1))
           st1)); [by apply same_blobs_mem|].
  by apply released_same_blobs, (removed_blob_from_peer_cb_released blob _ u).
Qed.

(** What an event leaves in the memory was there, or is the blob of bytes
    that were not in the store. *)
Lemma dispatch_blobs e st r st' a b' :
  consistent st → dispatch sha256_hex e st = Some (r, st') →
  mem st' !! a = Some b' →
  (∃ b, mem st !! a = Some b ∧ sha256 b' = sha256 b ∧ len b' = len b
        ∧ fd b' = fd b)
  ∨ (mem st !! a = None ∧ blobs st !! sha256 b' = None).
Proof.
  intros Ho He Hb'.
  destruct e as [sender iface method parameters fd_list dup|nm from to];
    simpl in He.
  - apply bind_Some in He as (r0 & s1 & Hcall & [_ Heq]%ret_Some).
    subst s1. unfold method_call in Hcall. case_bool_decide.
    + destruct r0 as [code message|v fds].
      * rewrite (make_unique_error_keeps_state _ _ _ _ _ _ _ _ _ Ho Hcall)
          in Hb'.
        left. by exists b'.
      * apply make_unique_value_inv in Hcall
          as (f & found & s0 & blob & arr & s2 & blob_id & s3 & _ & _ & Hfound
              & Hs2 & Hadd & Hunref & _).
        assert (same_blobs s2 st') as Hrest.
        { apply (same_blobs_trans _ s3).
          - by apply (add_blob_to_peer_same_blobs sender blob _ blob_id).
          - by apply released_same_blobs, (blob_unref_released blob _ tt). }
        destruct (Hrest a b' Hb') as (b2 & Hb2 & Hsha2 & Hlen2 & Hfd2).
        apply lookup_blob_Some in Hfound.
        destruct (blobs st !! sha256_hex (f_data f)) as [canonical|] eqn:Hsha.
        -- destruct Hfound as (-> & b0 & Hb0 & _ & ->).
           destruct Hs2 as (_ & -> & _).
           destruct (same_blobs_set_ref_count st canonical b0 (ref_count b0 + 1)
                       Hb0 a b2 Hb2) as (b & Hb & ? & ? & ?).
           left. exists b. repeat split; congruence.
        -- destruct Hfound as [-> ->]. destruct Hs2 as (Hnew & _).
           unfold blob_new in Hnew. injection Hnew as <- <-. simpl in Hb2.
           destruct (decide (a = fresh (dom (mem st)))) as [->|Hne].
           ++ rewrite lookup_insert_eq in Hb2. injection Hb2 as <-.
              right. split; [apply fresh_blob_absent|].
              rewrite Hsha2. simpl. done.
           ++ rewrite lookup_insert_ne in Hb2 by done.
              left. exists b2. repeat split; congruence.
    + case_bool_decide.
      * unfold forget in Hcall. destruct (negb _).
        -- apply ret_Some in Hcall as [_ ->]. left. by exists b'.
        -- apply bind_Some in Hcall as ([] & s2 & Hrem & [_ ->]%ret_Some).
           left. by apply (remove_blob_from_peer_same_blobs _ _ _ _ _ Hrem).
      * apply ret_Some in Hcall as [_ ->]. left. by exists b'.
  - apply bind_Some in He as ([] & s1 & Hn & [_ ->]%ret_Some).
    unfold name_owner_changed in Hn.
    destruct (_ && _); [|apply ret_Some in Hn as [_ ->]; left; by exists b'].
    apply bind_Some in Hn as (found & s2 & Hrem & [_ ->]%ret_Some).
    unfold g_hash_table_remove_peer in Hrem.
    apply bind_Some in Hrem as (s0 & s0' & [= <- <-] & Hrem).
    destruct (peers st !! nm) as [peer|];
      [|apply ret_Some in Hrem as [_ ->]; left; by exists b'].
    apply bind_Some in Hrem as ([] & s3 & ->%modify_Some & Hrem).
    apply bind_Some in Hrem as ([] & s4 & Hfree & [_ ->]%ret_Some).
    unfold peer_free in Hfree. apply destroy_values_released in Hfree.
    left. destruct (released_same_blobs _ _ Hfree a b' Hb')
      as (b & Hb & ? & ? & ?).
    by exists b.
Qed.

(** X29. The canonical descriptor is stable: when a digest is in the
    store before and after an event, it is the same blob, with the same
    descriptor and the same length. *)
Theorem canonical_descriptor_is_stable e st r st' k a b a' b' :
  reachable sha256_hex st → dispatch sha256_hex e st = Some (r, st') →
  blobs st !! k = Some a → mem st !! a = Some b →
  blobs st' !! k = Some a' → mem st' !! a' = Some b' →
  a' = a ∧ fd b' = fd b ∧ len b' = len b.
Proof.
  intros Hreach He Hk Hb Hk' Hb'.
  pose proof (reachable_consistent _ _ Hreach) as Ho.
  pose proof (consistent_dispatch _ e st r st' Ho He) as Ho'.
  destruct (owns_table _ _ _ Ho' _ _ Hk') as (b'' & Hb'' & Hsha').
  rewrite Hb' in Hb''. injection Hb'' as <-.
  destruct (dispatch_blobs e st r st' a' b' Ho He Hb')
    as [(b0 & Hb0 & Hsha0 & Hlen0 & Hfd0)|[_ Hnone]].
  - pose proof (owns_mem _ _ _ Ho _ _ Hb0) as Hk0.
    rewrite <- Hsha0, Hsha', Hk in Hk0. injection Hk0 as ->.
    rewrite Hb in Hb0. injection Hb0 as <-. done.
  - rewrite Hsha', Hk in Hnone. done.
Qed.

End FurtherProperties.

(** ** Hashing the descriptor, once more *)

Lemma checksum_loop_fault_result f e fuel checksum offset :
  f_fault f = Some e → (e ≤ length (f_data f))%nat →
  (offset ≤ e)%nat → (e - offset < fuel)%nat →
  checksum_loop fuel checksum f offset
  = (false, checksum ++ drop offset (take e (f_data f))).
Proof.
  intros He Hle. revert checksum offset.
  induction fuel as [|fuel IH]; intros checksum offset Hoff Hfuel; [lia|].
  cbn [checksum_loop]. unfold pread. rewrite He.
  case_bool_decide as Hend.
  { rewrite drop_ge by (rewrite length_take; lia). by rewrite app_nil_r. }
  pose proof BUFSIZE_pos as Hbuf.
  set (buf := take BUFSIZE (drop offset (take e (f_data f)))).
  assert (length buf = BUFSIZE `min` (e - offset))%nat as Hlen.
  { subst buf. rewrite length_take, length_drop, length_take. lia. }
  rewrite bool_decide_eq_true_2 by lia. rewrite IH by lia.
  unfold g_checksum_update. rewrite <- app_assoc. f_equal. f_equal.
  rewrite <- drop_drop. subst buf. apply take_drop_length.
Qed.

(** X14. [checksum_from_fd] feeds the checksum the whole file, in
    reads of at most 64 KiB, and answers TRUE; when a read fails it
    answers FALSE, and the checksum has been fed the bytes before the
    failing offset. *)
Theorem checksum_from_fd_result f checksum :
  checksum_from_fd checksum f
  = match f_fault f with
    | Some e =>
        if bool_decide (e ≤ length (f_data f))%nat
        then (false, checksum ++ take e (f_data f))
        else (true, checksum ++ f_data f)
    | None => (true, checksum ++ f_data f)
    end.
Proof.
  destruct (f_fault f) as [e|] eqn:He.
  - case_bool_decide as Hle.
    + unfold checksum_from_fd.
      rewrite (checksum_loop_fault_result f e) by (done || lia). done.
    + apply checksum_from_fd_readable. unfold readable. rewrite He.
      apply bool_decide_eq_true_2. lia.
  - apply checksum_from_fd_readable. unfold readable. by rewrite He.
Qed.

(** ** The client library: writing and sealing the memfd *)

Lemma write_all_to_fd_true answers data written :
  write_all_to_fd answers data = Some (true, written) → written = data.
Proof.
  revert data written.
  induction answers as [|a answers IH]; intros data written Hw.
  - destruct data; [|done]. by injection Hw as <-.
  - destruct data as [|x data]; [by injection Hw as <-|].
    destruct a as [n|errno]; cbn [write_all_to_fd] in Hw.
    + destruct (write_all_to_fd answers (drop n (x :: data)))
        as [[ok written']|] eqn:Hrest; [|done].
      simpl in Hw. injection Hw as -> <-.
      apply IH in Hrest as ->. apply take_drop.
    + case_bool_decide; [by apply IH | done].
Qed.

(** X16. When [write_all_to_fd] answers TRUE every byte has been
    written, in order, whatever the sizes of the partial writes and
    however often [write] was interrupted; when it answers FALSE a
    proper prefix has been written and [write] failed with an error
    other than EINTR. *)
Theorem write_all_to_fd_writes_data answers data ok written :
  write_all_to_fd answers data = Some (ok, written) →
  if ok then written = data
  else ∃ rest errno,
      data = written ++ rest ∧ rest ≠ [] ∧ errno ≠ EINTR
      ∧ write_failed errno ∈ answers.
Proof.
  revert data ok written.
  induction answers as [|a answers IH]; intros data ok written Hw.
  - destruct data; [|done]. by injection Hw as <- <-.
  - destruct data as [|x data].
    { by injection Hw as <- <-. }
    destruct a as [n|errno].
    + cbn [write_all_to_fd] in Hw.
      destruct (write_all_to_fd answers (drop n (x :: data)))
        as [[ok' written']|] eqn:Hrest; [|done].
      simpl in Hw. injection Hw as <- <-.
      apply IH in Hrest. destruct ok'.
      * subst written'. apply take_drop.
      * destruct Hrest as (rest & errno & Hdata & Hne & Herr & Hin).
        exists rest, errno. split.
        { rewrite <- app_assoc, <- Hdata. symmetry. apply take_drop. }
        split; [done|]. split; [done|]. by right.
    + cbn [write_all_to_fd] in Hw. case_bool_decide as Herr.
      * apply IH in Hw. destruct ok; [done|].
        destruct Hw as (rest & errno' & ? & ? & ? & ?).
        exists rest, errno'. do 3 (split; [done|]). by right.
      * injection Hw as <- <-. exists (x :: data), errno.
        split; [done|]. split; [done|]. split; [done|]. by left.
Qed.

(** X17. [write_all_to_fd] answers TRUE once [write] has taken all the
    bytes, as long as it fails with EINTR only. *)
Theorem write_all_to_fd_completes answers data :
  Forall (λ a, ∀ errno, a = write_failed errno → errno = EINTR) answers →
  (length data
   ≤ sum_list ((λ a, match a with wrote n => n | write_failed _ => 0 end)
                 <$> answers))%nat →
  write_all_to_fd answers data = Some (true, data).
Proof.
  intros Hall. revert data.
  induction Hall as [|a answers Ha Hall IH]; intros data Hlen.
  - destruct data; [done | simpl in Hlen; lia].
  - destruct data as [|x data]; [done|].
    destruct a as [n|errno].
    + cbn [write_all_to_fd]. rewrite IH.
      * simpl. by rewrite take_drop.
      * rewrite length_drop. csimpl in Hlen. simpl. lia.
    + cbn [write_all_to_fd]. rewrite bool_decide_eq_true_2 by by apply Ha.
      apply IH. csimpl in Hlen. simpl in *. lia.
Qed.

Lemma overwrite_all (data : list byte) (file : list byte) :
  length file = length data → overwrite data file = data.
Proof.
  intros Hlen. unfold overwrite. rewrite drop_ge by lia. apply app_nil_r.
Qed.

Lemma create_sealed_memfd_for_data_memfd pid count data memfd_ret
    ftruncate_ret answers add_seals_ret fd count' m effects :
  create_sealed_memfd_for_data pid count data memfd_ret ftruncate_ret answers
    add_seals_ret = Some (fd, count', Some m, effects) →
  m_data m = data ∧ m_seals m = ALL_SEALS.
Proof.
  unfold create_sealed_memfd_for_data. case_bool_decide; [done|].
  case_bool_decide; [done|]. case_bool_decide; [|done].
  destruct (write_all_to_fd answers data) as [[ok written]|] eqn:Hw; [|done].
  simpl. destruct ok; simpl; [|done]. case_bool_decide; [|done].
  intros [= _ _ <- _]. simpl. apply write_all_to_fd_true in Hw as ->.
  split; [|done]. apply overwrite_all. by rewrite length_replicate.
Qed.

(** X18. [create_sealed_memfd_for_data] advances the counter, and
    either answers the descriptor of a memfd that holds exactly the
    bytes and carries the four seals, with nothing closed, or answers -1
    after closing the memfd it created (if it created one). *)
Theorem create_sealed_memfd_for_data_result pid count data memfd_ret
    ftruncate_ret answers add_seals_ret fd count' memfd effects :
  create_sealed_memfd_for_data pid count data memfd_ret ftruncate_ret answers
    add_seals_ret = Some (fd, count', memfd, effects) →
  count' = count + 1
  ∧ ((fd = memfd_ret ∧ 0 ≤ fd ∧ effects = []
      ∧ ∃ m, memfd = Some m ∧ m_data m = data ∧ m_seals m = ALL_SEALS
             ∧ m_name m = full_name pid count)
     ∨ (fd = -1 ∧ memfd = None
        ∧ effects = if bool_decide (0 ≤ memfd_ret)
                    then [Client.sys_close memfd_ret] else [])).
Proof.
  unfold create_sealed_memfd_for_data. case_bool_decide; [done|].
  case_bool_decide as Hfd.
  { intros [= <- <- <- <-]. split; [done|]. right.
    by rewrite bool_decide_eq_false_2 by lia. }
  rewrite (bool_decide_eq_true_2 (0 ≤ memfd_ret)) by lia.
  case_bool_decide as Htr; [|intros [= <- <- <- <-]; split; [done|]; by right].
  destruct (write_all_to_fd answers data) as [[ok written]|] eqn:Hw; [|done].
  simpl. destruct ok; simpl; [|intros [= <- <- <- <-]; split; [done|]; by right].
  case_bool_decide; intros [= <- <- <- <-]; (split; [done|]); [left|by right].
  split; [done|]. split; [lia|]. split; [done|]. eexists. split; [done|].
  simpl. apply write_all_to_fd_true in Hw as ->.
  split; [|done]. apply overwrite_all. by rewrite length_replicate.
Qed.

(** X19. Within a process the memfds get different names: the counter
    is part of the name. *)
Theorem full_name_differs pid count1 count2 :
  count1 ≠ count2 → full_name pid count1 ≠ full_name pid count2.
Proof.
  unfold full_name. intros Hne Heq. apply Hne.
  apply (inj (String.app "unique-")) in Heq.
  apply (inj (String.app (pretty pid))) in Heq.
  apply (inj (String.app "-")) in Heq.
  by apply (inj pretty) in Heq.
Qed.

Section EndToEnd.

Variable sha256_hex : list byte → string.

(** X20. What the client creates the daemon accepts: a memfd made by
    [create_sealed_memfd_for_data] passes the seal check and the
    read of MakeUnique, so the call is served (when the reference count
    has room and, for bytes already in the store, the canonical
    descriptor can be duplicated); afterwards the store has a blob for
    the digest of the bytes and the sender a handle to it. *)
Theorem created_memfd_is_served st sender dup pid count data memfd_ret
    ftruncate_ret answers add_seals_ret fd count' m effects n :
  reachable sha256_hex st →
  create_sealed_memfd_for_data pid count data memfd_ret ftruncate_ret answers
    add_seals_ret = Some (fd, count', Some m, effects) →
  (∀ blob b, blobs st !! sha256_hex data = Some blob →
             mem st !! blob = Some b →
             ref_count b + 2 ≤ G_MAXINT ∧ is_Some dup) →
  ∃ arr h fds st' blob,
    make_unique sha256_hex sender (V_tuple [V_h 0]) (Some [memfd_file n m])
      dup st
    = Some (return_value (V_tuple [V_ah arr; V_u h]) fds, st')
    ∧ blobs st' !! sha256_hex data = Some blob
    ∧ ∃ peer, peers st' !! sender = Some peer
              ∧ peer_blobs peer !! h = Some blob.
Proof.
  intros Ho%reachable_consistent Hcreate Hroom.
  apply create_sealed_memfd_for_data_memfd in Hcreate as [Hdata Hseals].
  assert (all_sealed (memfd_file n m)) as Hsealed.
  { unfold all_sealed. simpl. rewrite Hseals. by vm_compute. }
  destruct (make_unique_serves sha256_hex st sender (V_tuple [V_h 0])
              (Some [memfd_file n m]) dup (memfd_file n m))
    as (v & fds & st' & Hmu); [done|done|done|done| |done|done| |].
  { simpl. rewrite Hseals. by vm_compute. }
  { simpl. by rewrite Hdata. }
  destruct (make_unique_value_post sha256_hex st sender (V_tuple [V_h 0])
              (Some [memfd_file n m]) dup v fds st' (memfd_file n m) Ho
              eq_refl Hmu)
    as (arr & blob & b' & -> & _ & Hblob & _ & _ & Hpeers & _).
  simpl in Hblob. rewrite Hdata in Hblob.
  eexists arr, _, fds, st', blob. split; [done|]. split; [done|].
  eexists. rewrite Hpeers, lookup_insert_eq. split; [done|]. simpl.
  apply lookup_insert_eq.
Qed.

End EndToEnd.

(** ** The descriptors of a stolen list *)

Lemma close_loop_past {A} (fds : list A) i handle :
  handle < i → close_loop fds i handle = fds.
Proof.
  revert i. induction fds as [|fd fds IH]; intros i Hi; [done|].
  simpl. rewrite bool_decide_eq_true_2 by lia. simpl. f_equal. apply IH. lia.
Qed.

Lemma close_loop_split {A} (fds : list A) i handle fd :
  i ≤ handle → fds !! Z.to_nat (handle - i) = Some fd →
  fds ≡ₚ fd :: close_loop fds i handle.
Proof.
  revert i. induction fds as [|fd0 fds IH]; intros i Hi Hfd; [done|].
  simpl. destruct (decide (i = handle)) as [->|Hne].
  - rewrite bool_decide_eq_false_2 by lia. simpl.
    rewrite Z.sub_diag in Hfd. simpl in Hfd. injection Hfd as ->.
    rewrite close_loop_past by lia. done.
  - rewrite bool_decide_eq_true_2 by done. simpl.
    rewrite Permutation_swap. f_equiv. apply IH; [lia|].
    replace (Z.to_nat (handle - i)) with (S (Z.to_nat (handle - (i + 1))))
      in Hfd by lia.
    done.
Qed.

Lemma steal_one_fd_from_list_closed_Some {A} (fd_list : option (list A))
    handle fd :
  steal_one_fd_from_list fd_list handle = Some (Some fd) →
  ∃ fds, fd_list = Some fds
         ∧ (Z.of_nat (length fds) ≤ handle → False)
         ∧ fds ≡ₚ fd :: steal_one_fd_from_list_closed fd_list handle.
Proof.
  unfold steal_one_fd_from_list, steal_one_fd_from_list_closed.
  destruct fd_list as [fds|]; [|done].
  case_bool_decide as Hlen; [done|]. case_bool_decide as Hneg; [done|].
  intros [= Hfd]. exists fds. split; [done|]. split; [done|].
  apply close_loop_split; [lia|]. by rewrite Z.sub_0_r.
Qed.

Lemma steal_one_fd_from_list_closed_None {A} (fd_list : option (list A))
    handle :
  steal_one_fd_from_list fd_list handle = Some None →
  steal_one_fd_from_list_closed fd_list handle = []
  ∧ ∀ fds, fd_list = Some fds → Z.of_nat (length fds) ≤ handle.
Proof.
  unfold steal_one_fd_from_list, steal_one_fd_from_list_closed.
  destruct fd_list as [fds|]; [|done].
  case_bool_decide as Hlen; [by intros _; split; [|intros ? [= <-]]|].
  case_bool_decide as Hneg; [done|].
  intros [= Hfd%lookup_ge_None]. lia.
Qed.

(** X21. [steal_one_fd_from_list] loses no descriptor: when it
    answers a descriptor, that one and the ones it closed are the
    descriptors of the list, each once; when it answers -1 it has closed
    nothing (the list keeps them); for a negative index it closes them
    all before it reads outside the array. *)
Theorem steal_one_fd_from_list_closes_the_rest {A} (fd_list : option (list A))
    handle :
  match steal_one_fd_from_list fd_list handle with
  | Some (Some fd) =>
      ∃ fds, fd_list = Some fds
             ∧ fds ≡ₚ fd :: steal_one_fd_from_list_closed fd_list handle
  | Some None => steal_one_fd_from_list_closed fd_list handle = []
  | None =>
      ∃ fds, fd_list = Some fds
             ∧ steal_one_fd_from_list_closed fd_list handle = fds
  end.
Proof.
  destruct (steal_one_fd_from_list fd_list handle) as [[fd|]|] eqn:Hsteal.
  - apply steal_one_fd_from_list_closed_Some in Hsteal
      as (fds & -> & _ & Hperm).
    by exists fds.
  - by apply steal_one_fd_from_list_closed_None in Hsteal as [? _].
  - unfold steal_one_fd_from_list, steal_one_fd_from_list_closed in *.
    destruct fd_list as [fds|]; [|done].
    case_bool_decide as Hlen; [done|]. case_bool_decide as Hneg; [|done].
    exists fds. split; [done|]. apply close_loop_past. lia.
Qed.

(** ** The client library: the asynchronous and the synchronous path *)

Theorem g_bytes_new_unique_async_result bytes memfd bus handle mmap_ret :
  let len := Z.of_nat (length bytes) in
  let mapped :=
    Client.sys_mmap 0 len Client.PROT_READ Client.MAP_PRIVATE memfd 0 in
  g_bytes_new_unique_async bytes memfd bus handle mmap_ret
  = if bool_decide (memfd < 0) then (Client.g_bytes_new bytes, false, [])
    else if bool_decide (mmap_ret = 0)
    then (Client.g_bytes_new bytes, false, [mapped; Client.sys_close memfd])
    else if bus && bool_decide (handle ≠ -1)
    then (Client.g_bytes_new_with_free_func mmap_ret len
            (Client.mkMappedData 2 mmap_ret len 0), true,
          [mapped; Client.sys_close memfd])
    else (Client.g_bytes_new_with_free_func mmap_ret len
            (Client.mkMappedData 1 mmap_ret len 0), false,
          [mapped; Client.sys_close memfd]).
Proof.
  intros len mapped. unfold g_bytes_new_unique_async.
  destruct (decide (memfd < 0)) as [Hfd|Hfd].
  { rewrite bool_decide_eq_false_2 by lia.
    by rewrite bool_decide_eq_true_2 by done. }
  rewrite bool_decide_eq_true_2 by lia.
  rewrite (bool_decide_eq_false_2 (memfd < 0)) by done.
  destruct (decide (mmap_ret = 0)) as [Hmap|Hmap].
  { rewrite bool_decide_eq_false_2 by tauto.
    by rewrite bool_decide_eq_true_2 by done. }
  rewrite bool_decide_eq_true_2 by done.
  rewrite (bool_decide_eq_false_2 (mmap_ret = 0)) by done.
  unfold call_make_unique_async. destruct bus; simpl; [|done].
  by case_bool_decide.
Qed.

(** X22. [g_bytes_new_unique_async] falls back to the heap copy
    exactly when no memfd could be made or [mmap] answered the null
    pointer (so not for MAP_FAILED, which it hands on as the data); a
    call is pending exactly when the bytes are mapped, the bus is there
    and the descriptor was appended, and then the record has two
    references; the memfd is mapped once and closed once. *)
Theorem g_bytes_new_unique_async_maps bytes memfd bus handle mmap_ret :
  let len := Z.of_nat (length bytes) in
  let '(gb, pending, effects) :=
    g_bytes_new_unique_async bytes memfd bus handle mmap_ret in
  (gb = Client.g_bytes_new bytes ↔ memfd < 0 ∨ mmap_ret = 0)
  ∧ (pending = true ↔
     0 ≤ memfd ∧ mmap_ret ≠ 0 ∧ bus = true ∧ handle ≠ -1)
  ∧ (pending = true →
     gb = Client.g_bytes_new_with_free_func mmap_ret len
            (Client.mkMappedData 2 mmap_ret len 0))
  ∧ effects
    = if bool_decide (0 ≤ memfd)
      then [Client.sys_mmap 0 len Client.PROT_READ Client.MAP_PRIVATE memfd 0;
            Client.sys_close memfd]
      else [].
Proof.
  intros len. rewrite g_bytes_new_unique_async_result. fold len.
  destruct (decide (memfd < 0)) as [Hfd|Hfd].
  { rewrite bool_decide_eq_true_2 by done.
    rewrite bool_decide_eq_false_2 by lia.
    split; [by split; [left|]|]. split; [|done]. split; [done|lia]. }
  rewrite bool_decide_eq_false_2 by done.
  rewrite (bool_decide_eq_true_2 (0 ≤ memfd)) by lia.
  destruct (decide (mmap_ret = 0)) as [Hmap|Hmap].
  { rewrite bool_decide_eq_true_2 by done.
    split; [by split; [right|]|]. split; [|done]. split; [done|tauto]. }
  rewrite bool_decide_eq_false_2 by done.
  destruct bus; simpl.
  - case_bool_decide as Hh.
    + split; [split; [done|lia]|]. split; [|done]. split; [lia|done].
    + split; [split; [done|lia]|]. split; [|done]. split; [done|tauto].
  - split; [split; [done|lia]|]. split; [|done]. split; [done|].
    by intros (_ & _ & ? & _).
Qed.

(** X23. The reply to the asynchronous call and the release of the
    bytes may come in either order: the record is freed by the second of
    them, and the calls made are the same: the remap (if the reply has a
    descriptor), then one [munmap] of the mapping and one Forget of the
    handle of the reply (none for handle 0, or without reply). *)
Theorem async_release_order_is_irrelevant bytes memfd handle mmap_ret p n d
    effects0 response remap_ret d1 effects :
  g_bytes_new_unique_async bytes memfd true handle mmap_ret
  = (Client.g_bytes_new_with_free_func p n d, true, effects0) →
  Client.make_unique_cb d response remap_ret
  = Some (Client.returned d1 effects) →
  let last :=
    Client.sys_munmap p n
      :: match response with
         | Some r => if bool_decide (Client.r_id r ≠ 0)
                     then [Client.call_forget (Client.r_id r)] else []
         | None => []
         end in
  (∃ d1', d1 = Some d1' ∧ Client.mapped_data_unref d1' = (None, last))
  ∧ (∃ d2, Client.mapped_data_unref d = (Some d2, [])
           ∧ Client.make_unique_cb d2 response remap_ret
             = Some (Client.returned None (effects ++ last))).
Proof.
  rewrite g_bytes_new_unique_async_result.
  case_bool_decide; [done|]. case_bool_decide; [done|].
  destruct (true && _); [|done]. intros [= <- <- <- _]. clear.
  set (len := Z.of_nat (length bytes)).
  unfold Client.make_unique_cb.
  destruct response as [r|].
  - destruct (Client.r_handles r) as [|handle_v rest].
    + intros [= <- <-]. simpl. split.
      * eexists. split; [done|]. unfold Client.mapped_data_unref. simpl.
        by case_bool_decide.
      * eexists. split; [done|]. simpl. unfold Client.mapped_data_unref. simpl.
        by case_bool_decide.
    + destruct (steal_one_fd_from_list _ _) as [[new_memfd|]|]; simpl; [| |done].
      * case_bool_decide; [|done]. intros [= <- <-]. split.
        -- eexists. split; [done|]. unfold Client.mapped_data_unref. simpl.
           by case_bool_decide.
        -- eexists. split; [done|]. simpl.
           unfold Client.mapped_data_unref. simpl.
           rewrite bool_decide_eq_true_2 by done.
           by rewrite (app_nil_r (_ ++ _)).
      * intros [= <- <-]. split.
        -- eexists. split; [done|]. unfold Client.mapped_data_unref. simpl.
           by case_bool_decide.
        -- eexists. split; [done|]. simpl. unfold Client.mapped_data_unref.
           simpl. by rewrite app_nil_r.
  - intros [= <- <-]. simpl. split.
    + eexists. split; [done|]. done.
    + eexists. split; [done|]. done.
Qed.

(** X24. [g_bytes_new_unique_sync] always answers the heap copy; it
    maps nothing and sends no Forget.  The calls it makes are closes:
    none without a memfd; the memfd alone when there is no bus, no
    reply, or no descriptor to take from the reply; and otherwise every
    descriptor of the reply's list but the one the reply names, then
    the memfd, then the descriptor the reply names, so that the memfd
    and each descriptor of the list are closed once. *)
Theorem g_bytes_new_unique_sync_copies bytes memfd bus handle response
    mmap_ret gb effects :
  Client.g_bytes_new_unique_sync bytes memfd bus handle response mmap_ret
  = Some (gb, effects) →
  gb = Client.g_bytes_new bytes
  ∧ ((memfd < 0 ∧ effects = [])
     ∨ (0 ≤ memfd ∧ effects = [Client.sys_close memfd])
     ∨ (0 ≤ memfd
        ∧ ∃ r handle_v rest new_memfd fds,
            response = Some r ∧ Client.r_handles r = handle_v :: rest
            ∧ Client.r_fd_list r = Some fds
            ∧ steal_one_fd_from_list (Client.r_fd_list r) handle_v
              = Some (Some new_memfd)
            ∧ effects
              = (Client.sys_close
                   <$> steal_one_fd_from_list_closed (Client.r_fd_list r)
                         handle_v)
                  ++ [Client.sys_close memfd; Client.sys_close new_memfd]
            ∧ effects ≡ₚ Client.sys_close <$> memfd :: fds)).
Proof.
  unfold Client.g_bytes_new_unique_sync. case_bool_decide as Hfd.
  2:{ intros [= <- <-]. split; [done|]. left. split; [lia|done]. }
  unfold Client.call_make_unique. destruct bus; simpl.
  2:{ try rewrite bool_decide_eq_false_2 by tauto. intros [= <- <-].
      split; [done|]. right. left. done. }
  case_bool_decide as Hh; simpl.
  2:{ try rewrite bool_decide_eq_false_2 by tauto. intros [= <- <-].
      split; [done|]. right. left. done. }
  destruct response as [r|]; simpl.
  2:{ try rewrite bool_decide_eq_false_2 by tauto. intros [= <- <-].
      split; [done|]. right. left. done. }
  destruct (Client.r_handles r) as [|handle_v rest] eqn:Hhandles; simpl.
  { try rewrite bool_decide_eq_false_2 by tauto. intros [= <- <-].
    split; [done|]. right. left. done. }
  destruct (steal_one_fd_from_list _ _) as [[new_memfd|]|] eqn:Hsteal; simpl;
    [| |done].
  - try rewrite bool_decide_eq_false_2 by tauto. intros [= <- <-].
    split; [done|]. right. right. split; [done|].
    destruct (steal_one_fd_from_list_closed_Some _ _ _ Hsteal)
      as (fds & Hfds & _ & Hperm).
    exists r, handle_v, rest, new_memfd, fds.
    do 4 (split; [done|]). rewrite <- app_assoc. split; [done|].
    rewrite Hperm. rewrite !fmap_cons. apply Permutation_app_comm.
  - try rewrite bool_decide_eq_false_2 by tauto. intros [= <- <-].
    split; [done|]. right. left. split; [done|].
    destruct (steal_one_fd_from_list_closed_None _ _ Hsteal) as [-> _].
    done.
Qed.

(** ** The daemon's descriptors

    First, the handlers with their traces are the handlers. *)

Lemma traced_bind_Some {A B} (m : Traced.T A) (k : A → Traced.T B) st b st'' tr :
  (m ≫= k) st = Some (b, st'', tr) ↔
  ∃ a st' tr1 tr2, m st = Some (a, st', tr1) ∧ k a st' = Some (b, st'', tr2)
                   ∧ tr = tr1 ++ tr2.
Proof.
  unfold mbind, Traced.T_bind. split.
  - destruct (m st) as [[[a st'] tr1]|]; [|done].
    destruct (k a st') as [[[b' s''] tr2]|] eqn:Hk; [|done].
    intros [= -> -> <-]. by exists a, st', tr1, tr2.
  - intros (a & st' & tr1 & tr2 & -> & -> & ->). done.
Qed.

Lemma erase_lift {A} (m : M A) st : Traced.erase (Traced.lift m) st = m st.
Proof. unfold Traced.erase, Traced.lift. by destruct (m st) as [[a st']|]. Qed.

Lemma erase_bind {A B} (m : Traced.T A) (k : A → Traced.T B) (m0 : M A)
    (k0 : A → M B) :
  (∀ st, Traced.erase m st = m0 st) →
  (∀ a st, Traced.erase (k a) st = k0 a st) →
  ∀ st, Traced.erase (m ≫= k) st = (m0 ≫= k0) st.
Proof.
  intros Hm Hk st. specialize (Hm st). unfold Traced.erase in *.
  unfold mbind, Traced.T_bind, M_bind.
  destruct (m st) as [[[a st'] tr]|]; rewrite <- Hm; [|done].
  specialize (Hk a st'). rewrite <- Hk.
  by destruct (k a st') as [[[b st''] tr']|].
Qed.

Lemma erase_emit_then {A} tr (m : Traced.T A) (m0 : M A) :
  (∀ st, Traced.erase m st = m0 st) →
  ∀ st, Traced.erase (Traced.emit tr ;; m) st = m0 st.
Proof.
  intros Hm st. specialize (Hm st). unfold Traced.erase in *.
  unfold mbind, Traced.T_bind, Traced.emit.
  rewrite <- Hm. by destruct (m st) as [[[b st''] tr']|].
Qed.

Lemma erase_close_fd_then {A} fd (m : Traced.T A) (m0 : M A) :
  (∀ st, Traced.erase m st = m0 st) →
  ∀ st, Traced.erase (Traced.close_fd fd ;; m) st = m0 st.
Proof.
  intros Hm. unfold Traced.close_fd. simpl. case_bool_decide.
  - by apply erase_emit_then.
  - intros st. specialize (Hm st). unfold Traced.erase in *.
    unfold mbind, Traced.T_bind. simpl. rewrite <- Hm.
    by destruct (m st) as [[[b st''] tr']|].
Qed.

Lemma erase_emit2_ret_bind {A B} tr1 tr2 (x : A) (k : A → Traced.T B) st :
  Traced.erase ((Traced.emit tr1 ;; Traced.emit tr2 ;; mret x) ≫= k) st
  = Traced.erase (k x) st.
Proof.
  unfold Traced.erase, mbind, Traced.T_bind, Traced.emit. simpl.
  by destruct (k x st) as [[[? ?] ?]|].
Qed.

Lemma erase_blob_unref blob st :
  Traced.erase (Traced.blob_unref blob) st = blob_unref blob st.
Proof.
  unfold Traced.blob_unref, blob_unref.
  apply erase_bind; [apply erase_lift|]. intros b s.
  case_bool_decide; [apply erase_lift|].
  case_bool_decide; [|apply erase_lift]. done.
Qed.

Lemma erase_removed_blob_from_peer_cb blob st :
  Traced.erase (Traced.removed_blob_from_peer_cb blob) st
  = removed_blob_from_peer_cb blob st.
Proof.
  unfold Traced.removed_blob_from_peer_cb, removed_blob_from_peer_cb.
  apply erase_bind; [apply erase_lift|]. intros b s.
  apply erase_bind; [apply erase_lift|]. intros [] s'.
  apply erase_blob_unref.
Qed.

Lemma erase_destroy_values l st :
  Traced.erase (Traced.destroy_values l) st = destroy_values l st.
Proof.
  revert st. induction l as [|blob l IH]; intros st; [done|]. simpl.
  apply erase_bind; [apply erase_removed_blob_from_peer_cb|]. by intros [].
Qed.

Lemma erase_add_blob_to_peer nm blob st :
  Traced.erase (Traced.add_blob_to_peer nm blob) st = add_blob_to_peer nm blob st.
Proof.
  unfold Traced.add_blob_to_peer, add_blob_to_peer.
  apply erase_bind; [apply erase_lift|]. intros peer s.
  apply erase_bind; [apply erase_lift|]. intros [] s1.
  apply erase_bind; [apply erase_lift|]. intros b s2.
  apply erase_bind; [apply erase_lift|]. intros [] s3.
  apply erase_bind; [apply erase_lift|]. intros blob' s4.
  apply erase_bind; [apply erase_lift|]. intros [] s5.
  apply erase_bind; [|done].
  simpl. destruct (peer_blobs peer !! next_blob_id peer); [|done].
  apply erase_removed_blob_from_peer_cb.
Qed.

Lemma erase_remove_blob_from_peer nm blob_id st :
  Traced.erase (Traced.remove_blob_from_peer nm blob_id) st
  = remove_blob_from_peer nm blob_id st.
Proof.
  unfold Traced.remove_blob_from_peer, remove_blob_from_peer.
  apply erase_bind; [apply erase_lift|]. intros peer s.
  destruct (peer_blobs peer !! blob_id); [|done].
  apply erase_bind; [apply erase_lift|]. intros [] s1.
  apply erase_removed_blob_from_peer_cb.
Qed.

Lemma erase_Some {A} (m : Traced.T A) (m0 : M A) st a st' :
  Traced.erase m st = m0 st → m0 st = Some (a, st') →
  ∃ tr, m st = Some (a, st', tr).
Proof.
  unfold Traced.erase. intros <-.
  destruct (m st) as [[[a' s'] tr]|]; [|done]. intros [= -> ->]. by exists tr.
Qed.

(** Then, every step accounts for the descriptors. *)

Lemma fd_is_nonneg x y : 0 ≤ fd_is x y.
Proof. unfold fd_is. case_decide; lia. Qed.

Lemma taken_app x tr1 tr2 : taken x (tr1 ++ tr2) = taken x tr1 + taken x tr2.
Proof. apply list_weight_app. Qed.

Lemma closed_app x tr1 tr2 : closed x (tr1 ++ tr2) = closed x tr1 + closed x tr2.
Proof. apply list_weight_app. Qed.

Lemma list_weight_fmap {A B} (w : B → Z) (f : A → B) l :
  list_weight w (f <$> l) = list_weight (w ∘ f) l.
Proof. induction l as [|y l IH]; csimpl; [done | by rewrite IH]. Qed.

Lemma taken_fd_taken x l :
  taken x (Traced.fd_taken <$> l) = list_weight (fd_is x) l.
Proof. unfold taken. by rewrite list_weight_fmap. Qed.

Lemma taken_fd_closed x l : taken x (Traced.fd_closed <$> l) = 0.
Proof.
  unfold taken. rewrite list_weight_fmap.
  induction l as [|y l IH]; simpl; [done | by rewrite IH].
Qed.

Lemma closed_fd_closed x l :
  closed x (Traced.fd_closed <$> l) = list_weight (fd_is x) l.
Proof. unfold closed. by rewrite list_weight_fmap. Qed.

Lemma closed_fd_taken x l : closed x (Traced.fd_taken <$> l) = 0.
Proof.
  unfold closed. rewrite list_weight_fmap.
  induction l as [|y l IH]; simpl; [done | by rewrite IH].
Qed.

Lemma moves_ret {A} (a : A) o : moves o (mret a) (λ _, o).
Proof. intros st a' st' tr x [= <- <- <-]. done. Qed.

Lemma moves_bind {A B} o1 (m : Traced.T A) o2 (k : A → Traced.T B) o3 :
  moves o1 m o2 → (∀ a, moves (o2 a) (k a) o3) → moves o1 (m ≫= k) o3.
Proof.
  intros Hm Hk st b st'' tr x
    (a & st' & tr1 & tr2 & Hm' & Hk' & ->)%traced_bind_Some.
  specialize (Hm _ _ _ _ x Hm'). specialize (Hk a _ _ _ _ x Hk').
  rewrite taken_app, closed_app. lia.
Qed.

Lemma moves_bind_result {A B} o1 (m : Traced.T A) o2 (k : A → Traced.T B) o3 :
  moves o1 m o2 →
  (∀ a, (∃ st st' tr, m st = Some (a, st', tr)) → moves (o2 a) (k a) o3) →
  moves o1 (m ≫= k) o3.
Proof.
  intros Hm Hk st b st'' tr x
    (a & st' & tr1 & tr2 & Hm' & Hk' & ->)%traced_bind_Some.
  specialize (Hm _ _ _ _ x Hm').
  specialize (Hk a (ex_intro _ st (ex_intro _ st' (ex_intro _ tr1 Hm')))
                _ _ _ _ x Hk').
  rewrite taken_app, closed_app. lia.
Qed.

Lemma moves_lift {A} (m : M A) o :
  (∀ st a st' x, m st = Some (a, st') → held x st' = held x st) →
  moves o (Traced.lift m) (λ _, o).
Proof.
  intros Hm st a st' tr x. unfold Traced.lift.
  destruct (m st) as [[a' s']|] eqn:Hrun; [|done]. intros [= <- <- <-].
  rewrite (Hm _ _ _ x Hrun). done.
Qed.

Lemma moves_close fd o : moves (fd :: o) (Traced.close fd) (λ _, o).
Proof. intros st [] st' tr x [= <- <-]. unfold taken, closed. simpl. lia. Qed.

Lemma moves_close_fd_none o : moves o (Traced.close_fd (-1)) (λ _, o).
Proof. apply moves_ret. Qed.

Lemma moves_close_fd fd o :
  0 ≤ fd → moves (fd :: o) (Traced.close_fd fd) (λ _, o).
Proof.
  intros Hfd. unfold Traced.close_fd. simpl.
  rewrite bool_decide_eq_true_2 by done. apply moves_close.
Qed.

Lemma held_set_ref_count x st blob b rc :
  mem st !! blob = Some b →
  held x (set_mem (<[blob := set_ref_count rc b]> (mem st)) st) = held x st.
Proof.
  intros Hb. unfold held. simpl.
  rewrite (table_weight_replace _ _ _ _ _ Hb). simpl. lia.
Qed.

Lemma moves_deref blob o : moves o (Traced.lift (deref blob)) (λ _, o).
Proof. apply moves_lift. by intros st b st' x [_ ->]%deref_Some. Qed.

Lemma moves_modify f o :
  (∀ st, mem (f st) = mem st) → moves o (Traced.lift (modify f)) (λ _, o).
Proof.
  intros Hf. apply moves_lift. intros st [] st' x ->%modify_Some.
  unfold held. by rewrite Hf.
Qed.

Lemma moves_lookup_peer nm o : moves o (Traced.lift (lookup_peer nm)) (λ _, o).
Proof.
  apply moves_lift. intros st peer st' x (Hmem & _)%lookup_peer_mem.
  unfold held. by rewrite Hmem.
Qed.

Lemma moves_blob_ref blob o : moves o (Traced.lift (blob_ref blob)) (λ _, o).
Proof.
  apply moves_lift. intros st a st' x (b & Hb & _ & _ & ->)%blob_ref_Some.
  by apply held_set_ref_count.
Qed.

Lemma moves_lookup_blob sha o : moves o (Traced.lift (lookup_blob sha)) (λ _, o).
Proof.
  apply moves_lift. intros st found st' x Hl%lookup_blob_Some.
  destruct (blobs st !! sha) as [blob|].
  - destruct Hl as (_ & b & Hb & _ & ->). by apply held_set_ref_count.
  - by destruct Hl as [_ ->].
Qed.

Lemma moves_blob_new f sha o :
  moves (f_fd f :: o) (Traced.lift (blob_new f sha)) (λ _, o).
Proof.
  intros st blob st' tr x. unfold Traced.lift, blob_new.
  intros [= <- <- <-]. unfold held, taken, closed. simpl.
  rewrite table_weight_insert by apply fresh_blob_absent. simpl. lia.
Qed.

Lemma moves_blob_unref blob o : moves o (Traced.blob_unref blob) (λ _, o).
Proof.
  unfold Traced.blob_unref. intros st a st' tr x
    (b & s1 & tr1 & tr2 & Hd & Hk & ->)%traced_bind_Some.
  unfold Traced.lift in Hd. destruct (deref blob st) as [[b' s']|] eqn:Hb; [|done].
  injection Hd as -> -> <-. apply deref_Some in Hb as [Hb ->].
  case_bool_decide; [done|]. case_bool_decide.
  - apply traced_bind_Some in Hk as ([] & s2 & tr3 & tr4 & [= <- <-] & [= <- <-] & ->).
    subst. unfold held, taken, closed. simpl.
    rewrite (table_weight_delete _ _ _ _ Hb). lia.
  - unfold Traced.lift, modify in Hk. simplify_eq.
    rewrite held_set_ref_count by done. unfold taken, closed. simpl. lia.
Qed.

Lemma moves_removed_blob_from_peer_cb blob o :
  moves o (Traced.removed_blob_from_peer_cb blob) (λ _, o).
Proof.
  unfold Traced.removed_blob_from_peer_cb.
  eapply moves_bind; [apply moves_deref|]. intros b.
  eapply moves_bind; [by apply moves_modify|]. intros [].
  apply moves_blob_unref.
Qed.

Lemma moves_destroy_values l o : moves o (Traced.destroy_values l) (λ _, o).
Proof.
  induction l as [|blob l IH]; simpl; [apply moves_ret|].
  eapply moves_bind; [apply moves_removed_blob_from_peer_cb|]. by intros [].
Qed.

Lemma moves_add_blob_to_peer nm blob o :
  moves o (Traced.add_blob_to_peer nm blob) (λ _, o).
Proof.
  unfold Traced.add_blob_to_peer.
  eapply moves_bind; [apply moves_lookup_peer|]. intros peer.
  eapply moves_bind; [by apply moves_modify|]. intros [].
  eapply moves_bind; [apply moves_deref|]. intros b.
  eapply moves_bind; [by apply moves_modify|]. intros [].
  eapply moves_bind; [apply moves_blob_ref|]. intros blob'.
  eapply moves_bind; [by apply moves_modify|]. intros [].
  eapply moves_bind.
  { simpl. destruct (peer_blobs peer !! next_blob_id peer).
    - apply moves_removed_blob_from_peer_cb.
    - apply moves_ret. }
  intros []. apply moves_ret.
Qed.

Lemma moves_remove_blob_from_peer nm blob_id o :
  moves o (Traced.remove_blob_from_peer nm blob_id) (λ _, o).
Proof.
  unfold Traced.remove_blob_from_peer.
  eapply moves_bind; [apply moves_lookup_peer|]. intros peer.
  destruct (peer_blobs peer !! blob_id).
  - eapply moves_bind; [by apply moves_modify|]. intros [].
    apply moves_removed_blob_from_peer_cb.
  - apply moves_ret.
Qed.

Lemma moves_steal_one_fd_from_list fd_list handle o :
  moves o (Traced.steal_one_fd_from_list fd_list handle)
    (λ stolen, option_list (f_fd <$> stolen) ++ o).
Proof.
  intros st stolen st' tr x. unfold Traced.steal_one_fd_from_list.
  unfold mbind, Traced.T_bind, Traced.emit. simpl.
  destruct (steal_one_fd_from_list fd_list handle) as [[f|]|] eqn:Hsteal;
    [| |done]; simpl; intros [= <- <- <-].
  - apply steal_one_fd_from_list_closed_Some in Hsteal
      as (fds & -> & Hlen & Hperm).
    rewrite bool_decide_eq_false_2 by done.
    rewrite !taken_app, !closed_app, taken_fd_taken, taken_fd_closed,
      closed_fd_taken, closed_fd_closed. simpl.
    rewrite !list_weight_fmap.
    rewrite (list_weight_perm _ _ _ Hperm). simpl. unfold taken, closed.
    simpl. lia.
  - apply steal_one_fd_from_list_closed_None in Hsteal as [-> Hlen].
    assert (match fd_list with
            | Some fds =>
                if bool_decide (Z.of_nat (length fds) ≤ handle)
                then [] else fds
            | None => []
            end = []) as ->.
    { destruct fd_list as [fds|]; [|done].
      by rewrite bool_decide_eq_true_2 by by apply Hlen. }
    unfold taken, closed. simpl. lia.
Qed.

Section Descriptors.

Variable sha256_hex : list byte → string.

Lemma erase_make_unique sender parameters fd_list dup st :
  Traced.erase (Traced.make_unique sha256_hex sender parameters fd_list dup) st
  = make_unique sha256_hex sender parameters fd_list dup st.
Proof.
  unfold Traced.make_unique, make_unique.
  destruct (negb _); [by apply erase_close_fd_then|].
  unfold Traced.steal_one_fd_from_list.
  destruct (steal_one_fd_from_list fd_list (g_variant_get_h parameters))
    as [[f|]|]; [| |done].
  2:{ rewrite erase_emit2_ret_bind. by apply erase_close_fd_then. }
  rewrite erase_emit2_ret_bind.
  destruct (seals_missing _); [by apply erase_close_fd_then|].
  destruct (checksum_from_fd _ _) as [[] checksum];
    [|by apply erase_close_fd_then].
  revert st. apply erase_bind; [apply erase_lift|]. intros [blob|] s0.
  - apply erase_bind; [apply erase_lift|]. intros b s1.
    destruct (g_unix_fd_list_append _ _ _) as [fd_handle ret_fds].
    case_bool_decide.
    + apply erase_bind; [apply erase_blob_unref|]. intros [] s2.
      by apply erase_close_fd_then.
    + apply erase_bind; [apply erase_add_blob_to_peer|]. intros blob_id s2.
      apply erase_bind; [apply erase_blob_unref|]. intros [] s3.
      by apply erase_close_fd_then.
  - simpl. apply erase_bind; [apply erase_lift|]. intros blob s1.
    apply erase_bind; [apply erase_add_blob_to_peer|]. intros blob_id s2.
    apply erase_bind; [apply erase_blob_unref|]. intros [] s3.
    by apply erase_close_fd_then.
Qed.

Lemma erase_dispatch e st :
  Traced.erase (Traced.dispatch sha256_hex e) st = dispatch sha256_hex e st.
Proof.
  destruct e as [sender iface method parameters fd_list dup|nm from to]; simpl.
  - apply erase_bind; [|done]. intros s. unfold Traced.method_call, method_call.
    case_bool_decide; [apply erase_make_unique|].
    case_bool_decide; [|done].
    unfold Traced.forget, forget. destruct (negb _); [done|].
    apply erase_bind; [apply erase_remove_blob_from_peer | done].
  - apply erase_bind; [|done]. intros s.
    unfold Traced.name_owner_changed, name_owner_changed.
    destruct (_ && _); [|done].
    apply erase_bind; [|done]. intros s'.
    unfold Traced.g_hash_table_remove_peer, g_hash_table_remove_peer.
    apply erase_bind; [apply erase_lift|]. intros s0 s1.
    destruct (peers s0 !! nm) as [peer|]; [|done].
    apply erase_bind; [apply erase_lift|]. intros [] s2.
    apply erase_bind; [|done]. intros s3. apply erase_destroy_values.
Qed.

Lemma erase_run evs st :
  Traced.erase (Traced.run sha256_hex evs) st = run sha256_hex evs st.
Proof.
  revert st. induction evs as [|e evs IH]; intros st; [done|]. simpl.
  apply erase_bind; [apply erase_dispatch|]. intros r s.
  apply erase_bind; [apply IH | done].
Qed.

Lemma moves_make_unique sender parameters fd_list dup :
  (∀ fds, fd_list = Some fds → Forall (λ f, 0 ≤ f_fd f) fds) →
  moves [] (Traced.make_unique sha256_hex sender parameters fd_list dup)
    (λ _, []).
Proof.
  intros Hvalid. unfold Traced.make_unique.
  destruct (negb _).
  { eapply moves_bind; [apply moves_close_fd_none|]. intros []. apply moves_ret. }
  eapply moves_bind_result; [apply moves_steal_one_fd_from_list|].
  intros [f|] (st & st' & tr & Hsteal); simpl.
  2:{ eapply moves_bind; [apply moves_close_fd_none|]. intros [].
      apply moves_ret. }
  assert (0 ≤ f_fd f) as Hfd.
  { unfold Traced.steal_one_fd_from_list, mbind, Traced.T_bind, Traced.emit
      in Hsteal. simpl in Hsteal.
    destruct (steal_one_fd_from_list fd_list (g_variant_get_h parameters))
      as [[f'|]|] eqn:Hs; [|done..]. simpl in Hsteal.
    injection Hsteal as -> _ _.
    unfold steal_one_fd_from_list in Hs. destruct fd_list as [fds|]; [|done].
    case_bool_decide; [done|]. case_bool_decide; [done|].
    injection Hs as Hs. specialize (Hvalid fds eq_refl).
    rewrite Forall_forall in Hvalid. apply Hvalid.
    by apply (list_elem_of_lookup_2 _ (Z.to_nat (g_variant_get_h parameters))). }
  destruct (seals_missing _).
  { eapply moves_bind; [by apply moves_close_fd|]. intros []. apply moves_ret. }
  destruct (checksum_from_fd _ _) as [[] checksum].
  2:{ eapply moves_bind; [by apply moves_close_fd|]. intros []. apply moves_ret. }
  eapply moves_bind; [apply moves_lookup_blob|]. intros [blob|].
  - eapply moves_bind; [apply moves_deref|]. intros b.
    destruct (g_unix_fd_list_append _ _ _) as [fd_handle ret_fds].
    case_bool_decide.
    + eapply moves_bind; [apply moves_blob_unref|]. intros [].
      eapply moves_bind; [by apply moves_close_fd|]. intros []. apply moves_ret.
    + eapply moves_bind; [apply moves_add_blob_to_peer|]. intros blob_id.
      eapply moves_bind; [apply moves_blob_unref|]. intros [].
      eapply moves_bind; [by apply moves_close_fd|]. intros []. apply moves_ret.
  - simpl. eapply moves_bind; [apply moves_blob_new|]. intros blob.
    eapply moves_bind; [apply moves_add_blob_to_peer|]. intros blob_id.
    eapply moves_bind; [apply moves_blob_unref|]. intros [].
    eapply moves_bind; [apply moves_close_fd_none|]. intros []. apply moves_ret.
Qed.

Lemma moves_dispatch e :
  descriptors_valid e → moves [] (Traced.dispatch sha256_hex e) (λ _, []).
Proof.
  intros Hvalid.
  destruct e as [sender iface method parameters fd_list dup|nm from to]; simpl.
  - eapply moves_bind; [|intros r; apply moves_ret].
    unfold Traced.method_call. case_bool_decide.
    { apply moves_make_unique. by intros fds ->. }
    case_bool_decide; [|apply moves_ret].
    unfold Traced.forget. destruct (negb _); [apply moves_ret|].
    eapply moves_bind; [apply moves_remove_blob_from_peer|]. intros [].
    apply moves_ret.
  - eapply moves_bind; [|intros u; apply moves_ret].
    unfold Traced.name_owner_changed. destruct (_ && _); [|apply moves_ret].
    eapply moves_bind; [|intros found; apply moves_ret].
    unfold Traced.g_hash_table_remove_peer.
    eapply moves_bind; [apply moves_lift; by intros st a st' x [= _ <-]|].
    intros s0. destruct (peers s0 !! nm) as [peer|]; [|apply moves_ret].
    eapply moves_bind; [by apply moves_modify|]. intros [].
    eapply moves_bind; [apply moves_destroy_values|]. intros [].
    apply moves_ret.
Qed.

Lemma moves_run evs :
  Forall descriptors_valid evs →
  moves [] (Traced.run sha256_hex evs) (λ _, []).
Proof.
  induction 1 as [|e evs He Hevs IH]; simpl; [apply moves_ret|].
  eapply moves_bind; [by apply moves_dispatch|]. intros r.
  eapply moves_bind; [apply IH|]. intros rs. apply moves_ret.
Qed.

(** X25. The daemon neither leaks a descriptor nor closes one it does
    not hold: over any run from the start, each descriptor is taken from
    the messages as often as it is closed or held by a blob of the store
    at the end. *)
Theorem descriptors_are_closed_or_held evs rs st :
  Forall descriptors_valid evs →
  run sha256_hex evs main_init = Some (rs, st) →
  ∃ tr,
    Traced.run sha256_hex evs main_init = Some (rs, st, tr)
    ∧ ∀ x, taken x tr = closed x tr + held x st.
Proof.
  intros Hvalid Hrun.
  destruct (erase_Some _ _ _ _ _ (erase_run evs main_init) Hrun)
    as [tr Htr].
  exists tr. split; [done|]. intros x.
  pose proof (moves_run evs Hvalid _ _ _ _ x Htr) as Hbal.
  unfold held at 1 in Hbal. simpl in Hbal. rewrite table_weight_empty in Hbal.
  lia.
Qed.

(** X26. A MakeUnique call that is answered with an error has closed
    every descriptor it took from the message. *)
Theorem make_unique_error_closes_descriptors st sender parameters fd_list dup
    code message st' :
  reachable sha256_hex st →
  (∀ fds, fd_list = Some fds → Forall (λ f, 0 ≤ f_fd f) fds) →
  make_unique sha256_hex sender parameters fd_list dup st
  = Some (return_error code message, st') →
  ∃ tr,
    Traced.make_unique sha256_hex sender parameters fd_list dup st
    = Some (return_error code message, st', tr)
    ∧ ∀ x, taken x tr = closed x tr.
Proof.
  intros Ho%reachable_consistent Hvalid Hmu.
  destruct (erase_Some _ _ _ _ _
              (erase_make_unique sender parameters fd_list dup st)
              Hmu) as [tr Htr].
  exists tr. split; [done|]. intros x.
  pose proof (moves_make_unique sender parameters fd_list dup Hvalid
                _ _ _ _ x Htr) as Hbal.
  rewrite (make_unique_error_keeps_state _ _ _ _ _ _ _ _ _ Ho Hmu) in Hbal.
  simpl in Hbal. lia.
Qed.

End Descriptors.

(** X27. Forget closes the canonical descriptor exactly when it drops
    the last reference to the blob; it closes nothing else and takes
    nothing. *)
Theorem forget_closes_descriptor_of_last_reference st sender peer h a b :
  peers st !! sender = Some peer → peer_blobs peer !! h = Some a →
  mem st !! a = Some b → ref_count b ≠ G_MININT →
  ∃ st',
    forget sender (V_tuple [V_u h]) st
    = Some (return_value (V_tuple []) [], st')
    ∧ Traced.forget sender (V_tuple [V_u h]) st
      = Some (return_value (V_tuple []) [], st',
              if bool_decide (ref_count b = 1)
              then [Traced.fd_closed (fd b)] else []).
Proof.
  intros Hn Hh Hb Hrc.
  unfold forget, Traced.forget, remove_blob_from_peer,
    Traced.remove_blob_from_peer, Traced.removed_blob_from_peer_cb,
    removed_blob_from_peer_cb, Traced.blob_unref, blob_unref, lookup_peer,
    store_peer, deref, modify, Traced.lift, Traced.close, Traced.emit,
    mbind, mret, M_bind, M_ret, Traced.T_bind, Traced.T_ret.
  simpl. rewrite Hn, Hh. simpl. rewrite Hb. simpl. rewrite Hb.
  rewrite (bool_decide_eq_false_2 (ref_count b = G_MININT)) by done.
  destruct (decide (ref_count b = 1)) as [H1|H1].
  - rewrite !(bool_decide_eq_true_2 (ref_count b - 1 = 0)) by lia.
    rewrite (bool_decide_eq_true_2 (ref_count b = 1)) by done.
    eexists. split; reflexivity.
  - rewrite !(bool_decide_eq_false_2 (ref_count b - 1 = 0)) by lia.
    rewrite (bool_decide_eq_false_2 (ref_count b = 1)) by done.
    eexists. split; reflexivity.
Qed.

(** ** The counters at the end of their range

    The size counters are [gsize] and a peer's handle counter is
    [guint32]: both wrap around, and the daemon can be driven there. *)

Lemma main_init_reachable sha256_hex : reachable sha256_hex main_init.
Proof. by exists [], []. Qed.

Lemma sealed_memfd_accepted n bytes :
  (- 2 ^ 31 ≤ f_get_seals (sealed_memfd n bytes) < 2 ^ 31)
  ∧ all_sealed (sealed_memfd n bytes)
  ∧ readable (sealed_memfd n bytes) = true.
Proof.
  split; [by vm_compute|]. split; [|done].
  split; [discriminate | reflexivity].
Qed.

Lemma reachable_make_unique sha256_hex st sender parameters fd_list dup r st' :
  reachable sha256_hex st →
  make_unique sha256_hex sender parameters fd_list dup st = Some (r, st') →
  reachable sha256_hex st'.
Proof.
  intros Hreach Hmu.
  apply (reachable_step _ (ev_method_call sender "" "MakeUnique" parameters
                             fd_list dup) st (Some r) st' Hreach).
  simpl. unfold method_call. simpl. by rewrite (bind_eq _ _ _ _ _ Hmu).
Qed.

Lemma reachable_forget sha256_hex st sender parameters r st' :
  reachable sha256_hex st →
  forget sender parameters st = Some (r, st') →
  reachable sha256_hex st'.
Proof.
  intros Hreach Hf.
  apply (reachable_step _ (ev_method_call sender "" "Forget" parameters
                             None None) st (Some r) st' Hreach).
  simpl. unfold method_call. simpl. by rewrite (bind_eq _ _ _ _ _ Hf).
Qed.

Lemma dispatch_make_unique sha256_hex sender parameters fd_list dup st r st' :
  make_unique sha256_hex sender parameters fd_list dup st = Some (r, st') →
  dispatch sha256_hex
    (ev_method_call sender unique_interface "MakeUnique" parameters fd_list dup)
    st
  = Some (Some r, st').
Proof.
  intros Hmu. simpl. unfold method_call. simpl.
  by rewrite (bind_eq _ _ _ _ _ Hmu).
Qed.

Lemma run_cons sha256_hex e evs st r st' rs st'' :
  dispatch sha256_hex e st = Some (r, st') →
  run sha256_hex evs st' = Some (rs, st'') →
  run sha256_hex (e :: evs) st = Some (r :: rs, st'').
Proof.
  intros He Hrun. simpl. rewrite (bind_eq _ _ _ _ _ He).
  by rewrite (bind_eq _ _ _ _ _ Hrun).
Qed.

(** The state after one peer has submitted the same bytes three
    times. *)
Lemma three_submissions_state sha256_hex bytes :
  let l := gsize_wrap (Z.of_nat (length bytes)) in
  let blob := 1%positive in
  ∃ rs st,
    run sha256_hex (three_submissions bytes) main_init = Some (rs, st)
    ∧ mem st = {[ blob := mkBlob (sha256_hex bytes) l 7 3 ]}
    ∧ blobs st = {[ sha256_hex bytes := blob ]}
    ∧ peers st
      = {[ ":1.1" := mkPeer ":1.1" 4
                       (<[3 := blob]> (<[2 := blob]> {[ 1 := blob ]})) ]}
    ∧ real_blob_size st = gsize_wrap (0 + l)
    ∧ apparent_blob_size st
      = gsize_wrap (gsize_wrap (gsize_wrap (0 + l) + l) + l).
Proof.
  intros l blob.
  pose proof (reachable_consistent _ _ (main_init_reachable sha256_hex)) as Ho0.
  set (sha := sha256_hex bytes).
  (* the first submission *)
  destruct (sealed_memfd_accepted 7 bytes) as (Hrange1 & Hsealed1 & Hr1).
  pose proof (make_unique_miss sha256_hex main_init ":1.1" (V_tuple [V_h 0])
                (Some [sealed_memfd 7 bytes]) None (sealed_memfd 7 bytes)
                Ho0 eq_refl eq_refl Hrange1 Hsealed1 Hr1 eq_refl) as Hmu1.
  cbv zeta in Hmu1. specialize (Hmu1 ltac:(by intros peer)).
  change (peers main_init !! ":1.1") with (@None Peer) in Hmu1.
  cbn [default next_blob_id peer_blobs f_data f_fd sealed_memfd fstat
         f_stat_ok] in Hmu1.
  match type of Hmu1 with
  | context [fresh ?X] => change (fresh X) with blob in Hmu1
  end.
  fold sha l in Hmu1.
  match type of Hmu1 with _ = Some (_, ?s) => set (s1 := s) in Hmu1 end.
  pose proof (consistent_make_unique _ _ _ _ _ _ _ _ Ho0 Hmu1) as Ho1.
  (* the second *)
  destruct (sealed_memfd_accepted 8 bytes) as (Hrange2 & Hsealed2 & Hr2).
  pose proof (make_unique_hit sha256_hex s1 ":1.1" (V_tuple [V_h 0])
                (Some [sealed_memfd 8 bytes]) 9 (sealed_memfd 8 bytes)
                blob (mkBlob sha l 7 1)
                Ho1 eq_refl eq_refl Hrange2 Hsealed2 Hr2) as Hmu2.
  cbv zeta in Hmu2.
  specialize (Hmu2 (lookup_insert_eq _ _ _) (lookup_insert_eq _ _ _)
                ltac:(by vm_compute)).
  assert (peers s1 !! ":1.1"
          = Some (mkPeer ":1.1" 2 (<[1 := blob]> ∅))) as Hp1
    by apply lookup_insert_eq.
  rewrite Hp1 in Hmu2.
  cbn [default next_blob_id peer_blobs len ref_count] in Hmu2.
  specialize (Hmu2 ltac:(by intros peer [= <-])).
  match type of Hmu2 with _ = Some (_, ?s) => set (s2 := s) in Hmu2 end.
  pose proof (consistent_make_unique _ _ _ _ _ _ _ _ Ho1 Hmu2) as Ho2.
  (* the third *)
  destruct (sealed_memfd_accepted 10 bytes) as (Hrange3 & Hsealed3 & Hr3).
  pose proof (make_unique_hit sha256_hex s2 ":1.1" (V_tuple [V_h 0])
                (Some [sealed_memfd 10 bytes]) 11 (sealed_memfd 10 bytes)
                blob (set_ref_count 2 (mkBlob sha l 7 1))
                Ho2 eq_refl eq_refl Hrange3 Hsealed3 Hr3) as Hmu3.
  cbv zeta in Hmu3.
  specialize (Hmu3 (lookup_insert_eq _ _ _) (lookup_insert_eq _ _ _)
                ltac:(by vm_compute)).
  assert (peers s2 !! ":1.1"
          = Some (mkPeer ":1.1" 3 (<[2 := blob]> (<[1 := blob]> ∅)))) as Hp2
    by apply lookup_insert_eq.
  rewrite Hp2 in Hmu3.
  cbn [default next_blob_id peer_blobs len ref_count set_ref_count] in Hmu3.
  specialize (Hmu3 ltac:(by intros peer [= <-])).
  match type of Hmu3 with _ = Some (_, ?s) => set (s3 := s) in Hmu3 end.
  eexists _, s3. split.
  { unfold three_submissions, submit.
    eapply run_cons; [by apply dispatch_make_unique|].
    eapply run_cons; [by apply dispatch_make_unique|].
    eapply run_cons; [by apply dispatch_make_unique|]. done. }
  subst s3 s2 s1. cbn [mem blobs peers real_blob_size apparent_blob_size].
  rewrite !insert_insert_eq, !insert_empty.
  split; [done|]. split; [done|]. split; [done|]. done.
Qed.

Lemma huge_length : Z.of_nat (length huge) = 2 ^ 63 - 1.
Proof.
  unfold huge. rewrite length_replicate. apply Z2Nat.id. by vm_compute.
Qed.

(** C4 as stated fails once the bytes of the handle entries pass 2^64.
    A peer submits a file of 2^63 - 1 bytes three times: the store holds
    one blob for it, with three references, one for each of the peer's
    three handles; the real size is 2^63 - 1, and the apparent size,
    three times as much modulo 2^64, is 2^63 - 3, below the real
    size. *)
Lemma apparent_size_wraps_below_real_size :
  ∃ rs st,
    run sample_digest (three_submissions huge) main_init = Some (rs, st)
    ∧ mem st
      = {[ 1%positive := mkBlob (sample_digest huge) (2 ^ 63 - 1) 7 3 ]}
    ∧ blobs st = {[ sample_digest huge := 1%positive ]}
    ∧ peers st
      = {[ ":1.1" := mkPeer ":1.1" 4
                       (<[3 := 1%positive]>
                          (<[2 := 1%positive]> {[ 1 := 1%positive ]})) ]}
    ∧ real_blob_size st = 2 ^ 63 - 1
    ∧ apparent_blob_size st = 2 ^ 63 - 3
    ∧ apparent_blob_size st < real_blob_size st.
Proof.
  destruct (three_submissions_state sample_digest huge)
    as (rs & st & Hrun & Hmem & Hblobs & Hpeers & Hreal & Happ).
  rewrite huge_length in Hmem, Hreal, Happ.
  exists rs, st. split; [exact Hrun|].
  split; [exact Hmem|]. split; [exact Hblobs|]. split; [exact Hpeers|].
  rewrite Hreal, Happ. clear. by vm_compute.
Qed.

(** A submission of new bytes and the Forget of its handle lead from a
    reachable state to the same state with the sender's counter
    advanced by one. *)
Lemma submit_and_forget_reachable sha256_hex st :
  reachable sha256_hex st →
  blobs st !! sha256_hex hello_world = None →
  (∀ peer, peers st !! ":1.1" = Some peer →
           peer_blobs peer !! next_blob_id peer = None) →
  reachable sha256_hex
    (set_peers
       (<[":1.1" :=
            let peer := default (mkPeer ":1.1" 1 ∅) (peers st !! ":1.1") in
            mkPeer ":1.1" (guint32_wrap (next_blob_id peer + 1))
              (peer_blobs peer)]> (peers st)) st).
Proof.
  intros Hreach Hsha Hfresh.
  pose proof (reachable_consistent _ _ Hreach) as Ho.
  destruct (sealed_memfd_accepted 7 hello_world) as (Hrange & Hsealed & Hr).
  destruct (make_unique_serves sha256_hex st ":1.1" (V_tuple [V_h 0])
              (Some [sealed_memfd 7 hello_world]) None
              (sealed_memfd 7 hello_world) Ho)
    as (v & fds & st1 & Hmu); [done..| |].
  { intros blob b Hblob. simpl in Hblob. by rewrite Hsha in Hblob. }
  destruct (submission_undone _ _ _ _ _ _ _ _ _ Ho Hfresh Hmu)
    as (arr & blob_id & st2 & _ & Hforget & Hreal & Happ & Hmem & Hblobs
        & Hpeers).
  assert (reachable sha256_hex st2) as Hreach2.
  { apply (reachable_forget _ st1 ":1.1" (V_tuple [V_u blob_id])
             (return_value (V_tuple []) [])); [|done].
    by apply (reachable_make_unique _ st ":1.1" (V_tuple [V_h 0])
                (Some [sealed_memfd 7 hello_world]) None (return_value v fds)). }
  replace (set_peers _ st) with st2; [done|].
  destruct st, st2. unfold set_peers. simpl in *. by subst.
Qed.

Lemma lone_peer_reachable sha256_hex (n : nat) :
  reachable sha256_hex (lone_peer (guint32_wrap (2 + Z.of_nat n))).
Proof.
  induction n as [|n IH].
  - pose proof (submit_and_forget_reachable sha256_hex main_init
                  (main_init_reachable _)) as H.
    unfold lone_peer. simpl in H. rewrite lookup_empty in H. simpl in H.
    rewrite insert_empty in H. apply H; [done|]. by intros peer.
  - pose proof (submit_and_forget_reachable sha256_hex _ IH) as H.
    unfold lone_peer in H at 2 3 4. cbn [peers blobs set_peers main_init] in H.
    rewrite lookup_singleton_eq, insert_singleton_eq in H.
    cbn [default next_blob_id peer_blobs] in H.
    replace (guint32_wrap (2 + Z.of_nat (S n)))
      with (guint32_wrap (guint32_wrap (2 + Z.of_nat n) + 1)).
    + apply H; [done|]. intros peer [= <-]. done.
    + unfold guint32_wrap. rewrite Zplus_mod_idemp_l. f_equal. lia.
Qed.

(** After 2^32 - 1 submissions the next handle of the peer is 0. *)
Lemma lone_peer_zero_reachable sha256_hex : reachable sha256_hex (lone_peer 0).
Proof.
  pose proof (lone_peer_reachable sha256_hex (Z.to_nat (2 ^ 32 - 2))) as H.
  rewrite Z2Nat.id in H by (by vm_compute).
  by replace (guint32_wrap (2 + (2 ^ 32 - 2))) with 0 in H by reflexivity.
Qed.

Lemma mapped_data_unref_id d d' :
  (Client.mapped_data_unref d).1 = Some d' → Client.id d' = Client.id d.
Proof.
  unfold Client.mapped_data_unref. case_bool_decide; [done|].
  simpl. by intros [= <-].
Qed.

Lemma mapped_data_unref_no_forget d i :
  Client.id d = 0 → Client.call_forget i ∉ (Client.mapped_data_unref d).2.
Proof.
  intros Hid. unfold Client.mapped_data_unref.
  destruct (bool_decide (guint_wrap _ = 0)); simpl; [|apply not_elem_of_nil].
  rewrite Hid. rewrite bool_decide_eq_false_2 by tauto.
  by intros [=]%list_elem_of_singleton.
Qed.

(** C9 fails on the code for the handle 0.  The daemon issues it: a
    peer's counter starts at 1 and wraps to 0 after 2^32 - 1
    submissions, and the reply to the next submission carries 0, for a
    blob the peer then holds.  The reply handler records the 0, and the
    destruction of the mapping record unmaps and sends no Forget,
    whether the reply comes before the release of the bytes or after
    it: 0 on the record stands for no handle.  So no Forget is ever sent
    for a reply with the handle 0. *)
Theorem handle_zero_is_not_forgotten sha256_hex :
  reachable sha256_hex (lone_peer 0)
  ∧ (∃ st' peer blob,
      make_unique sha256_hex ":1.1" (V_tuple [V_h 0])
        (Some [sealed_memfd 7 hello_world]) None (lone_peer 0)
      = Some (return_value (V_tuple [V_ah []; V_u 0]) [], st')
      ∧ peers st' !! ":1.1" = Some peer ∧ peer_blobs peer !! 0 = Some blob
      ∧ is_Some (mem st' !! blob))
  ∧ Client.make_unique_cb (Client.mkMappedData 2 4096 14 0) (Some zero_reply)
      4096
    = Some (Client.returned (Some (Client.mkMappedData 1 4096 14 0)) [])
  ∧ Client.mapped_data_unref (Client.mkMappedData 1 4096 14 0)
    = (None, [Client.sys_munmap 4096 14])
  ∧ Client.make_unique_cb (Client.mkMappedData 1 4096 14 0) (Some zero_reply)
      4096
    = Some (Client.returned None [Client.sys_munmap 4096 14])
  ∧ (∀ d r mmap_ret d' effects i,
       Client.r_id r = 0 →
       Client.make_unique_cb d (Some r) mmap_ret
       = Some (Client.returned d' effects) →
       (Client.call_forget i ∉ effects)
       ∧ ∀ d1, d' = Some d1 →
               Client.id d1 = 0
               ∧ Client.call_forget i ∉ (Client.mapped_data_unref d1).2).
Proof.
  pose proof (lone_peer_zero_reachable sha256_hex) as Hreach.
  split; [done|]. split; [|split; [done|]; split; [done|]; split; [done|]].
  - destruct (sealed_memfd_accepted 7 hello_world) as (Hrange & Hsealed & Hr).
    pose proof (make_unique_miss sha256_hex (lone_peer 0) ":1.1"
                  (V_tuple [V_h 0]) (Some [sealed_memfd 7 hello_world]) None
                  (sealed_memfd 7 hello_world)
                  (reachable_consistent _ _ Hreach) eq_refl eq_refl Hrange
                  Hsealed Hr) as Hmu.
    cbv zeta in Hmu. unfold lone_peer in Hmu at 1 2 4 5 7 8 9 10 11.
    cbn [peers blobs mem set_peers main_init] in Hmu.
    rewrite lookup_singleton_eq in Hmu.
    cbn [default next_blob_id peer_blobs] in Hmu.
    eexists _, _, _. split.
    { apply Hmu; [done|]. by intros peer [= <-]. }
    cbn [peers mem]. split; [apply lookup_insert_eq|].
    cbn [peer_blobs]. split; [apply lookup_insert_eq|].
    rewrite lookup_insert_eq. by eexists.
  - intros d r mmap_ret d' effects i Hid. unfold Client.make_unique_cb.
    assert (Client.id (Client.set_id (Client.r_id r) d) = 0) as Hset by done.
    pose proof (mapped_data_unref_no_forget _ i Hset) as Hno.
    pose proof (mapped_data_unref_id (Client.set_id (Client.r_id r) d)) as Hkeep.
    assert (∀ l : list Z, Client.call_forget i ∉ Client.sys_close <$> l)
      as Hclosed.
    { intros l (x & [=] & _)%list_elem_of_fmap. }
    destruct (Client.mapped_data_unref _) as [d2 effects2] eqn:Hunref.
    simpl in Hno, Hkeep.
    assert (∀ d1, d2 = Some d1 →
                  Client.id d1 = 0
                  ∧ Client.call_forget i ∉ (Client.mapped_data_unref d1).2)
      as Hlater.
    { intros d1 ->.
      assert (Client.id d1 = 0) as Hd1
        by (rewrite (Hkeep d1 eq_refl); exact Hset).
      split; [done|]. by apply mapped_data_unref_no_forget. }
    destruct (Client.r_handles r) as [|handle_v rest].
    + by intros [= <- <-].
    + destruct (steal_one_fd_from_list _ _) as [[new_memfd|]|]; simpl; [| |done].
      * case_bool_decide; [|done]. intros [= <- <-]. split; [|done].
        rewrite !elem_of_app. intros [[?%Hclosed|Hin]|?]; [done| |done].
        apply elem_of_cons in Hin as [[=]|Hin].
        by apply list_elem_of_singleton in Hin.
      * intros [= <- <-]. split; [|done].
        rewrite elem_of_app. by intros [?%Hclosed|?].
Qed.

(** ** Sample runs, once more *)

Lemma store_keyed_by_digest_witness :
  (∀ k a, blobs (state_after two_submissions) !! k = Some a ↔
          ∃ b, mem (state_after two_submissions) !! a = Some b ∧ sha256 b = k)
  ∧ (∀ a1 a2 b1 b2,
       mem (state_after two_submissions) !! a1 = Some b1 →
       mem (state_after two_submissions) !! a2 = Some b2 →
       sha256 b1 = sha256 b2 → a1 = a2).
Proof.
  apply (store_keyed_by_digest sample_digest).
  exists two_submissions, (replies_after two_submissions).
  vm_compute. reflexivity.
Defined.

Lemma handles_point_at_live_blobs_witness :
  ∃ b, mem (state_after two_submissions) !! 1%positive = Some b
       ∧ blobs (state_after two_submissions) !! sha256 b = Some 1%positive
       ∧ 0 < ref_count b.
Proof.
  apply (handles_point_at_live_blobs sample_digest _ ":1.2"
           (mkPeer ":1.2" 2 {[ 1 := 1%positive ]}) 1).
  - exists two_submissions, (replies_after two_submissions).
    vm_compute. reflexivity.
  - vm_compute. reflexivity.
  - vm_compute. reflexivity.
Defined.

Lemma live_blobs_are_referenced_witness :
  ∃ n peer h,
    peers (state_after two_submissions) !! n = Some peer
    ∧ peer_blobs peer !! h = Some 1%positive.
Proof.
  apply (live_blobs_are_referenced sample_digest _ _
           (mkBlob (sample_digest hello_world) 14 7 2)).
  - exists two_submissions, (replies_after two_submissions).
    vm_compute. reflexivity.
  - vm_compute. reflexivity.
Defined.

Lemma no_handles_no_blobs_witness :
  mem (state_after submit_and_forget) = ∅
  ∧ blobs (state_after submit_and_forget) = ∅
  ∧ real_blob_size (state_after submit_and_forget) = 0
  ∧ apparent_blob_size (state_after submit_and_forget) = 0.
Proof.
  apply (no_handles_no_blobs sample_digest).
  - exists submit_and_forget, (replies_after submit_and_forget).
    vm_compute. reflexivity.
  - intros n peer Hn.
    assert (peers (state_after submit_and_forget)
            = {[ ":1.1" := mkPeer ":1.1" 2 ∅ ]}) as Hpeers
      by (vm_compute; reflexivity).
    rewrite Hpeers in Hn. apply lookup_singleton_Some in Hn as [_ <-].
    reflexivity.
Defined.

Lemma forget_is_always_answered_witness :
  ∃ r st',
    forget ":1.1" (V_tuple [V_s "1"]) (state_after two_submissions)
    = Some (r, st')
    ∧ reachable sample_digest st'
    ∧ if bool_decide (g_variant_get_type_string (V_tuple [V_s "1"]) = "(u)")
      then r = return_value (V_tuple []) []
      else r = return_error G_DBUS_ERROR_INVALID_ARGS "Wrong argument types"
           ∧ st' = state_after two_submissions.
Proof.
  apply (forget_is_always_answered sample_digest).
  exists two_submissions, (replies_after two_submissions).
  vm_compute. reflexivity.
Defined.

Lemma name_owner_changed_is_total_witness :
  ∃ st',
    name_owner_changed "org.example.App" "org.example.App" ""
      (state_after two_submissions) = Some (tt, st')
    ∧ reachable sample_digest st'
    ∧ (starts_with_colon "org.example.App" = false
       ∨ "org.example.App" ≠ "org.example.App" ∨ "" ≠ ""
       ∨ peers (state_after two_submissions) !! "org.example.App" = None →
       st' = state_after two_submissions).
Proof.
  apply (name_owner_changed_is_total sample_digest).
  exists two_submissions, (replies_after two_submissions).
  vm_compute. reflexivity.
Defined.

Lemma forget_known_handle_witness :
  ∃ b st',
    mem (state_after two_submissions) !! 1%positive = Some b
    ∧ forget ":1.2" (V_tuple [V_u 1]) (state_after two_submissions)
      = Some (return_value (V_tuple []) [], st')
    ∧ peers st'
      = <[":1.2" := mkPeer ":1.2" 2 ∅]> (peers (state_after two_submissions))
    ∧ apparent_blob_size st'
      = gsize_wrap (apparent_blob_size (state_after two_submissions) - len b).
Proof.
  destruct (forget_known_handle sample_digest (state_after two_submissions)
              ":1.2" (mkPeer ":1.2" 2 {[ 1 := 1%positive ]}) 1 1%positive)
    as (b & st' & Hb & Hforget & Hpeers & Happ & _).
  - exists two_submissions, (replies_after two_submissions).
    vm_compute. reflexivity.
  - vm_compute. reflexivity.
  - vm_compute. reflexivity.
  - exists b, st'. split; [exact Hb|]. split; [exact Hforget|].
    split; [|exact Happ]. rewrite Hpeers. simpl. by rewrite delete_singleton_eq.
Defined.

Lemma peers_are_isolated_witness :
  peers (state_after (two_submissions ++ [third_submission])) !! ":1.2"
  = peers (state_after two_submissions) !! ":1.2".
Proof.
  apply (peers_are_isolated sample_digest [third_submission]
           (state_after two_submissions)
           [Some (return_value (V_tuple [V_ah [0]; V_u 2]) [11])]).
  - exists two_submissions, (replies_after two_submissions).
    vm_compute. reflexivity.
  - vm_compute. reflexivity.
  - apply Forall_cons. split; [discriminate | apply Forall_nil_2].
Defined.

Lemma handles_are_consecutive_witness :
  ∃ arr1 arr2 h,
    V_tuple [V_ah []; V_u 1] = V_tuple [V_ah arr1; V_u h]
    ∧ V_tuple [V_ah [0]; V_u 2]
      = V_tuple [V_ah arr2; V_u (guint32_wrap (h + 1))]
    ∧ (peers main_init !! ":1.1" = None → h = 1).
Proof.
  apply (handles_are_consecutive sample_digest main_init ":1.1"
           (V_tuple [V_h 0]) (Some [sealed_memfd 7 hello_world]) None
           (V_tuple [V_ah []; V_u 1]) [] (state_after one_submission)
           [submit ":1.2" (sealed_memfd 8 hello_world) (Some 9)]
           [Some (return_value (V_tuple [V_ah [0]; V_u 1]) [9])]
           (state_after two_submissions)
           (V_tuple [V_h 0]) (Some [sealed_memfd 10 hello_world]) (Some 11)
           (V_tuple [V_ah [0]; V_u 2]) [11]
           (state_after (two_submissions ++ [third_submission]))).
  - by exists [], [].
  - vm_compute. reflexivity.
  - apply Forall_cons. split; [discriminate | apply Forall_nil_2].
  - vm_compute. reflexivity.
  - vm_compute. reflexivity.
Defined.

Lemma make_unique_new_content_witness :
  make_unique sample_digest ":1.1" (V_tuple [V_h 0])
    (Some [sealed_memfd 7 hello_world]) None main_init
  = Some (return_value (V_tuple [V_ah []; V_u 1]) [],
          mkDaemon 14 14
            {[ 1%positive := mkBlob (sample_digest hello_world) 14 7 1 ]}
            {[ sample_digest hello_world := 1%positive ]}
            {[ ":1.1" := mkPeer ":1.1" 2 {[ 1 := 1%positive ]} ]}).
Proof.
  pose proof (make_unique_new_content sample_digest main_init ":1.1"
                (V_tuple [V_h 0]) (Some [sealed_memfd 7 hello_world]) None
                (sealed_memfd 7 hello_world)) as Hnew.
  rewrite Hnew.
  - vm_compute. reflexivity.
  - by exists [], [].
  - reflexivity.
  - reflexivity.
  - vm_compute. split; [discriminate | reflexivity].
  - split; [discriminate | reflexivity].
  - reflexivity.
  - reflexivity.
  - intros peer Hpeer. discriminate Hpeer.
Defined.

Lemma make_unique_dup_failure_witness :
  make_unique sample_digest ":1.2" (V_tuple [V_h 0])
    (Some [sealed_memfd 8 hello_world]) None (state_after one_submission)
  = Some (return_error G_DBUS_ERROR_FAILED "Failed to dup fd",
          state_after one_submission).
Proof.
  destruct (make_unique_dup_failure sample_digest (state_after one_submission)
              ":1.2" (V_tuple [V_h 0]) (Some [sealed_memfd 8 hello_world]))
    as [Hfail _].
  - exists one_submission, (replies_after one_submission).
    vm_compute. reflexivity.
  - apply (Hfail (sealed_memfd 8 hello_world) 1%positive
             (mkBlob (sample_digest hello_world) 14 7 1)).
    + reflexivity.
    + reflexivity.
    + vm_compute. split; [discriminate | reflexivity].
    + split; [discriminate | reflexivity].
    + reflexivity.
    + vm_compute. reflexivity.
    + vm_compute. reflexivity.
    + discriminate.
Defined.

Lemma make_unique_refuses_bad_requests_witness :
  ∃ message,
    method_call sample_digest ":1.1" unique_interface "MakeUnique"
      (V_tuple [V_h 0]) (Some [unsealed_memfd 7 hello_world]) None main_init
    = Some (return_error G_DBUS_ERROR_INVALID_ARGS message, main_init).
Proof.
  apply (make_unique_refuses_bad_requests sample_digest main_init ":1.1"
           unique_interface (V_tuple [V_h 0])
           (Some [unsealed_memfd 7 hello_world]) None).
  - vm_compute. discriminate.
  - intros f [= <-]. vm_compute. split; [discriminate | reflexivity].
  - right. simpl. left. intros [_ Hbits]. discriminate Hbits.
Defined.

Lemma daemon_reply_is_safe_for_client_witness :
  ∃ arr h,
    V_tuple [V_ah [0]; V_u 1] = V_tuple [V_ah arr; V_u h]
    ∧ (arr = [] ∧ [9] = [] ∨ arr = [0] ∧ ∃ fd', Some 9 = Some fd' ∧ [9] = [fd'])
    ∧ ∀ response_fd_list,
        response_fd_list = Some [9] ∨ [9] = [] ∧ response_fd_list = None →
        (∀ d mmap_ret,
            is_Some (Client.make_unique_cb d
                       (Some (Client.mkResponse arr h response_fd_list))
                       mmap_ret))
        ∧ (∀ bus memfd id_out memfd_handle,
              is_Some (Client.call_make_unique bus memfd id_out memfd_handle
                         (Some (Client.mkResponse arr h response_fd_list)))).
Proof.
  apply (daemon_reply_is_safe_for_client sample_digest ":1.2" (V_tuple [V_h 0])
           (Some [sealed_memfd 8 hello_world]) (Some 9)
           (state_after one_submission) (V_tuple [V_ah [0]; V_u 1]) [9]
           (state_after two_submissions)).
  vm_compute. reflexivity.
Defined.

Lemma peer_free_any_order_witness :
  destroy_values [1%positive; 2%positive] (state_after two_contents)
  = peer_free (mkPeer ":1.1" 3 {[ 1 := 1%positive; 2 := 2%positive ]})
      (state_after two_contents).
Proof.
  apply peer_free_any_order.
  vm_compute. apply perm_swap.
Defined.

Lemma write_all_to_fd_writes_data_witness :
  ∃ rest errno,
    hello_world = take 5 hello_world ++ rest ∧ rest ≠ [] ∧ errno ≠ EINTR
    ∧ write_failed errno ∈ [wrote 5; write_failed EINTR; write_failed ENOSPC].
Proof.
  apply (write_all_to_fd_writes_data
           [wrote 5; write_failed EINTR; write_failed ENOSPC] hello_world
           false (take 5 hello_world)).
  vm_compute. reflexivity.
Defined.

Lemma write_all_to_fd_completes_witness :
  write_all_to_fd [wrote 5; write_failed EINTR; wrote 0; wrote 9] goodbye
  = Some (true, goodbye).
Proof.
  apply write_all_to_fd_completes.
  - repeat (apply Forall_cons; split;
            [intros errno Herr; try discriminate Herr; by injection Herr as <-|]).
    apply Forall_nil_2.
  - vm_compute. lia.
Defined.

Lemma create_sealed_memfd_for_data_result_witness :
  1 = 0 + 1
  ∧ ((5 = 5 ∧ 0 ≤ 5 ∧ @nil Client.Effect = []
      ∧ ∃ m, Some (mkMemfd "unique-100-0" 3 hello_world 15) = Some m
             ∧ m_data m = hello_world ∧ m_seals m = ALL_SEALS
             ∧ m_name m = full_name 100 0)
     ∨ (5 = -1 ∧ Some (mkMemfd "unique-100-0" 3 hello_world 15) = None
        ∧ @nil Client.Effect
          = if bool_decide (0 ≤ 5) then [Client.sys_close 5] else [])).
Proof.
  apply (create_sealed_memfd_for_data_result 100 0 hello_world 5 0
           [wrote 5; wrote 9] 0).
  vm_compute. reflexivity.
Defined.

Lemma full_name_differs_witness : full_name 100 0 ≠ full_name 100 1.
Proof. apply full_name_differs. discriminate. Defined.

Lemma created_memfd_is_served_witness :
  ∃ arr h fds st' blob,
    make_unique sample_digest ":1.2" (V_tuple [V_h 0])
      (Some [memfd_file 8 (mkMemfd "unique-100-0" 3 hello_world 15)])
      (Some 9) (state_after one_submission)
    = Some (return_value (V_tuple [V_ah arr; V_u h]) fds, st')
    ∧ blobs st' !! sample_digest hello_world = Some blob
    ∧ ∃ peer, peers st' !! ":1.2" = Some peer
              ∧ peer_blobs peer !! h = Some blob.
Proof.
  apply (created_memfd_is_served sample_digest (state_after one_submission)
           ":1.2" (Some 9) 100 0 hello_world 5 0 [wrote 5; wrote 9] 0 5 1
           (mkMemfd "unique-100-0" 3 hello_world 15) []).
  - exists one_submission, (replies_after one_submission).
    vm_compute. reflexivity.
  - vm_compute. reflexivity.
  - intros blob b Hblob Hb. vm_compute in Hblob. injection Hblob as <-.
    vm_compute in Hb. injection Hb as <-. split; [|by eexists].
    vm_compute. intros H. discriminate H.
Defined.

Lemma g_bytes_new_unique_async_maps_witness :
  (Client.g_bytes_new_with_free_func MAP_FAILED 14
     (Client.mkMappedData 2 MAP_FAILED 14 0)
   = Client.g_bytes_new hello_world ↔ 5 < 0 ∨ MAP_FAILED = 0)
  ∧ (true = true ↔ 0 ≤ 5 ∧ MAP_FAILED ≠ 0 ∧ true = true ∧ 0 ≠ -1).
Proof.
  pose proof (g_bytes_new_unique_async_maps hello_world 5 true 0 MAP_FAILED)
    as Hmaps.
  vm_compute in Hmaps. destruct Hmaps as (Hcopy & Hpending & _).
  split; [exact Hcopy | exact Hpending].
Defined.

Lemma async_release_order_is_irrelevant_witness :
  (∃ d1', Some (Client.mkMappedData 1 4096 14 2) = Some d1'
          ∧ Client.mapped_data_unref d1'
            = (None, [Client.sys_munmap 4096 14; Client.call_forget 2]))
  ∧ (∃ d2, Client.mapped_data_unref (Client.mkMappedData 2 4096 14 0)
           = (Some d2, [])
           ∧ Client.make_unique_cb d2 (Some hit_reply) 4096
             = Some (Client.returned None
                       ([Client.sys_mmap 4096 14 1 18 9 0; Client.sys_close 9]
                          ++ [Client.sys_munmap 4096 14; Client.call_forget 2]))).
Proof.
  apply (async_release_order_is_irrelevant hello_world 5 0 4096 4096 14
           (Client.mkMappedData 2 4096 14 0)
           [Client.sys_mmap 0 14 1 2 5 0; Client.sys_close 5]
           (Some hit_reply) 4096).
  - vm_compute. reflexivity.
  - vm_compute. reflexivity.
Defined.

Lemma g_bytes_new_unique_sync_copies_witness :
  Client.g_bytes_new hello_world = Client.g_bytes_new hello_world
  ∧ ((5 < 0
      ∧ [Client.sys_close 10; Client.sys_close 5; Client.sys_close 9] = [])
     ∨ (0 ≤ 5
        ∧ [Client.sys_close 10; Client.sys_close 5; Client.sys_close 9]
          = [Client.sys_close 5])
     ∨ (0 ≤ 5
        ∧ ∃ r handle_v rest new_memfd fds,
            Some crowded_reply = Some r
            ∧ Client.r_handles r = handle_v :: rest
            ∧ Client.r_fd_list r = Some fds
            ∧ steal_one_fd_from_list (Client.r_fd_list r) handle_v
              = Some (Some new_memfd)
            ∧ [Client.sys_close 10; Client.sys_close 5; Client.sys_close 9]
              = (Client.sys_close
                   <$> steal_one_fd_from_list_closed (Client.r_fd_list r)
                         handle_v)
                  ++ [Client.sys_close 5; Client.sys_close new_memfd]
            ∧ [Client.sys_close 10; Client.sys_close 5; Client.sys_close 9]
              ≡ₚ Client.sys_close <$> 5 :: fds)).
Proof.
  apply (g_bytes_new_unique_sync_copies hello_world 5 true 0
           (Some crowded_reply) 4096).
  vm_compute. reflexivity.
Defined.

Lemma descriptors_are_closed_or_held_witness :
  ∃ tr,
    Traced.run sample_digest submit_and_forget main_init
    = Some (replies_after submit_and_forget, state_after submit_and_forget, tr)
    ∧ ∀ x, taken x tr = closed x tr + held x (state_after submit_and_forget).
Proof.
  apply (descriptors_are_closed_or_held sample_digest).
  - apply Forall_cons. split.
    { apply Forall_cons. split; [discriminate | apply Forall_nil_2]. }
    apply Forall_cons. split; [exact I | apply Forall_nil_2].
  - vm_compute. reflexivity.
Defined.

Lemma make_unique_error_closes_descriptors_witness :
  ∃ tr,
    Traced.make_unique sample_digest ":1.1" (V_tuple [V_h 1])
      (Some [sealed_memfd 7 hello_world; unsealed_memfd 8 goodbye]) None
      main_init
    = Some (return_error G_DBUS_ERROR_INVALID_ARGS "Fd not sealed", main_init,
            tr)
    ∧ ∀ x, taken x tr = closed x tr.
Proof.
  apply (make_unique_error_closes_descriptors sample_digest).
  - by exists [], [].
  - intros fds [= <-]. apply Forall_cons. split; [discriminate|].
    apply Forall_cons. split; [discriminate | apply Forall_nil_2].
  - vm_compute. reflexivity.
Defined.

Lemma forget_closes_descriptor_of_last_reference_witness :
  ∃ st',
    forget ":1.1" (V_tuple [V_u 1]) (state_after one_submission)
    = Some (return_value (V_tuple []) [], st')
    ∧ Traced.forget ":1.1" (V_tuple [V_u 1]) (state_after one_submission)
      = Some (return_value (V_tuple []) [], st',
              if bool_decide
                   (ref_count (mkBlob (sample_digest hello_world) 14 7 1) = 1)
              then [Traced.fd_closed
                      (fd (mkBlob (sample_digest hello_world) 14 7 1))]
              else []).
Proof.
  apply (forget_closes_descriptor_of_last_reference
           (state_after one_submission) ":1.1"
           (mkPeer ":1.1" 2 {[ 1 := 1%positive ]}) 1 1%positive).
  - vm_compute. reflexivity.
  - vm_compute. reflexivity.
  - vm_compute. reflexivity.
  - discriminate.
Defined.


Lemma make_unique_known_content_witness :
  make_unique sample_digest ":1.2" (V_tuple [V_h 0])
    (Some [sealed_memfd 8 hello_world]) (Some 9) (state_after one_submission)
  = Some (return_value (V_tuple [V_ah [0]; V_u 1]) [9],
          mkDaemon 14 28
            {[ 1%positive := mkBlob (sample_digest hello_world) 14 7 2 ]}
            {[ sample_digest hello_world := 1%positive ]}
            {[ ":1.1" := mkPeer ":1.1" 2 {[ 1 := 1%positive ]};
               ":1.2" := mkPeer ":1.2" 2 {[ 1 := 1%positive ]} ]}).
Proof.
  pose proof (make_unique_known_content sample_digest
                (state_after one_submission) ":1.2" (V_tuple [V_h 0])
                (Some [sealed_memfd 8 hello_world]) 9
                (sealed_memfd 8 hello_world) 1%positive
                (mkBlob (sample_digest hello_world) 14 7 1)) as Hknown.
  rewrite Hknown.
  - vm_compute. reflexivity.
  - exists one_submission, (replies_after one_submission).
    vm_compute. reflexivity.
  - reflexivity.
  - reflexivity.
  - vm_compute. split; [discriminate | reflexivity].
  - split; [discriminate | reflexivity].
  - reflexivity.
  - vm_compute. reflexivity.
  - vm_compute. reflexivity.
  - vm_compute. discriminate.
  - intros peer Hpeer. vm_compute in Hpeer. discriminate Hpeer.
Defined.

Lemma canonical_descriptor_is_stable_witness :
  1%positive = 1%positive
  ∧ fd (mkBlob (sample_digest hello_world) 14 7 2)
    = fd (mkBlob (sample_digest hello_world) 14 7 1)
  ∧ len (mkBlob (sample_digest hello_world) 14 7 2)
    = len (mkBlob (sample_digest hello_world) 14 7 1).
Proof.
  apply (canonical_descriptor_is_stable sample_digest
           (submit ":1.2" (sealed_memfd 8 hello_world) (Some 9))
           (state_after one_submission)
           (Some (return_value (V_tuple [V_ah [0]; V_u 1]) [9]))
           (state_after two_submissions) (sample_digest hello_world)).
  - exists one_submission, (replies_after one_submission).
    vm_compute. reflexivity.
  - vm_compute. reflexivity.
  - vm_compute. reflexivity.
  - vm_compute. reflexivity.
  - vm_compute. reflexivity.
  - vm_compute. reflexivity.
Defined.

Lemma served_handle_names_the_bytes_witness :
  ∃ f arr h blob b peer,
    steal_one_fd_from_list (Some [sealed_memfd 10 hello_world])
      (g_variant_get_h (V_tuple [V_h 0])) = Some (Some f)
    ∧ V_tuple [V_ah [0]; V_u 2] = V_tuple [V_ah arr; V_u h]
    ∧ blobs (state_after (two_submissions ++ [third_submission]))
        !! sample_digest (f_data f) = Some blob
    ∧ mem (state_after (two_submissions ++ [third_submission])) !! blob
      = Some b
    ∧ sha256 b = sample_digest (f_data f)
    ∧ peers (state_after (two_submissions ++ [third_submission])) !! ":1.1"
      = Some peer
    ∧ peer_blobs peer !! h = Some blob
    ∧ reachable sample_digest
        (state_after (two_submissions ++ [third_submission])).
Proof.
  apply (served_handle_names_the_bytes sample_digest
           (state_after two_submissions) ":1.1" (V_tuple [V_h 0])
           (Some [sealed_memfd 10 hello_world]) (Some 11)
           (V_tuple [V_ah [0]; V_u 2]) [11]).
  - exists two_submissions, (replies_after two_submissions).
    vm_compute. reflexivity.
  - vm_compute. reflexivity.
Defined.
